(** * robotoff.utils.text.flashtext: the keyword trie matcher

    A shallow embedding of [KeywordProcessor] (src/robotoff/utils/text/flashtext.py)
    and the properties its specification states about it.

    - A Python [str] is a sequence of Unicode code points: [list N].
    - The nested dict-of-dicts trie is an insertion-ordered association list
      per node; the reserved key ["_keyword_"] (which no one-character key can
      equal) is the [Term] item, a one-character key is a [Child] item.
    - Clean names are strings, the documented type of [get_keyword]'s result;
      a string is truthy when it is not empty.
    - Python ints are [Z]; list indexing follows Python (negative indices wrap,
      anything else out of range raises [IndexError]).
    - [str.lower] is a builtin: every character lowers to one code point,
      given by the parameter [lower_at] (which may look at the context, as
      Python does for the Greek final sigma), except for U+0130 which lowers
      to the two code points U+0069 U+0307. *)

From Stdlib Require Import String Ascii.
From Stdlib Require Import List ZArith NArith Bool Lia Sorted Permutation.
Import ListNotations.
Local Open Scope Z_scope.

(** ** Python values *)

Definition char := N.
Definition str := list char.

Definition of_string (s : String.string) : str :=
  map N_of_ascii (list_ascii_of_string s).

Definition char_eqb (a b : char) : bool := N.eqb a b.

Fixpoint str_eqb (a b : str) : bool :=
  match a, b with
  | [], [] => true
  | x :: a', y :: b' => char_eqb x y && str_eqb a' b'
  | _, _ => false
  end.

(** [len(x)] as a Python int. *)
Definition len {A} (l : list A) : Z := Z.of_nat (length l).

(** Truthiness of a string or a list: non-empty. *)
Definition truthy {A} (l : list A) : bool :=
  match l with [] => false | _ => true end.

(** [c in s] for a set of characters. *)
Definition mem (c : char) (s : list char) : bool := existsb (char_eqb c) s.

Inductive exn := IndexError | AttributeError.

(** Outcome of a computation that may raise, or whose loop budget in the
    embedding may run out. *)
Inductive res (A : Type) :=
| Ok (a : A)
| Raise (e : exn)
| OutOfFuel.
Arguments Ok {A} a.
Arguments Raise {A} e.
Arguments OutOfFuel {A}.

Definition bind {A B} (m : res A) (k : A -> res B) : res B :=
  match m with
  | Ok a => k a
  | Raise e => Raise e
  | OutOfFuel => OutOfFuel
  end.

Notation "x <- m ;; k" := (bind m (fun x => k))
  (at level 61, m at next level, right associativity).

(** [l[i]]: Python list or string indexing. *)
Definition py_index {A} (l : list A) (i : Z) : res A :=
  let j := if i <? 0 then i + len l else i in
  if (0 <=? j) && (j <? len l) then
    match nth_error l (Z.to_nat j) with
    | Some a => Ok a
    | None => Raise IndexError
    end
  else Raise IndexError.

(** [s[i:]] for [0 <= i]. *)
Definition slice_from {A} (l : list A) (i : Z) : list A := skipn (Z.to_nat i) l.

(** ** Case folding *)

(* LATIN CAPITAL LETTER I WITH DOT ABOVE is the only letter than changes
   length when lowercased *)
Definition LATIN_CAPITAL_LETTER_I_WITH_DOT_ABOVE : char := 304%N.

Section Lower.
(** [lower_at s i]: the code point that the character at index [i] of [s]
    lowers to, when that character is not U+0130. *)
Variable lower_at : str -> nat -> char.

Definition lower_piece (s : str) (i : nat) (c : char) : str :=
  if char_eqb c LATIN_CAPITAL_LETTER_I_WITH_DOT_ABOVE
  then [105%N; 775%N]
  else [lower_at s i].

Fixpoint lower_from (s : str) (i : nat) (rest : str) : str :=
  match rest with
  | [] => []
  | c :: rest' => lower_piece s i c ++ lower_from s (S i) rest'
  end.

(** [s.lower()] *)
Definition lower (s : str) : str := lower_from s 0 s.
End Lower.

(** The lowering of the ASCII range, used to run the examples. *)
Definition ascii_lower1 (c : char) : char :=
  if (65 <=? c)%N && (c <=? 90)%N then (c + 32)%N else c.

Definition ascii_lower_at (s : str) (i : nat) : char :=
  ascii_lower1 (nth i s 0%N).

(** ** The trie *)

Inductive item (T : Type) :=
| Child (c : char) (t : T)      (* key: the one-character string [c] *)
| Term (v : str).               (* key: "_keyword_", value: the clean name *)
Arguments Child {T} c t.
Arguments Term {T} v.

#[local] Unset Elimination Schemes.
Inductive trie := Dict (items : list (item trie)).
#[local] Set Elimination Schemes.

Definition items (d : trie) : list (item trie) := let 'Dict l := d in l.

Definition empty_dict : trie := Dict [].

(** [d[c]] / [d.get(c)] for a one-character key. *)
Fixpoint get_child (c : char) (l : list (item trie)) : option trie :=
  match l with
  | [] => None
  | Child c' t :: l' => if char_eqb c' c then Some t else get_child c l'
  | Term _ :: l' => get_child c l'
  end.

(** [d.get("_keyword_")] *)
Fixpoint get_term (l : list (item trie)) : option str :=
  match l with
  | [] => None
  | Term v :: _ => Some v
  | Child _ _ :: l' => get_term l'
  end.

Definition isSome {A} (o : option A) : bool :=
  match o with Some _ => true | None => false end.

(** [c in d] *)
Definition has_child (c : char) (d : trie) : bool := isSome (get_child c (items d)).
(** ["_keyword_" in d] *)
Definition has_keyword (d : trie) : bool := isSome (get_term (items d)).

(** [d[c] = t]: an existing key keeps its place, a new key goes last. *)
Fixpoint set_child (c : char) (t : trie) (l : list (item trie)) : list (item trie) :=
  match l with
  | [] => [Child c t]
  | Child c' t' :: l' =>
      if char_eqb c' c then Child c t :: l' else Child c' t' :: set_child c t l'
  | Term v :: l' => Term v :: set_child c t l'
  end.

(** [d["_keyword_"] = v] *)
Fixpoint set_term (v : str) (l : list (item trie)) : list (item trie) :=
  match l with
  | [] => [Term v]
  | Term _ :: l' => Term v :: l'
  | Child c t :: l' => Child c t :: set_term v l'
  end.

(** [d.pop(c)] *)
Fixpoint pop_child (c : char) (l : list (item trie)) : list (item trie) :=
  match l with
  | [] => []
  | Child c' t' :: l' =>
      if char_eqb c' c then l' else Child c' t' :: pop_child c l'
  | Term v :: l' => Term v :: pop_child c l'
  end.

(** [d.pop("_keyword_")] *)
Fixpoint pop_term (l : list (item trie)) : list (item trie) :=
  match l with
  | [] => []
  | Term _ :: l' => l'
  | Child c t :: l' => Child c t :: pop_term l'
  end.

(** ** KeywordProcessor *)

Record KeywordProcessor := {
  _white_space_chars : list char;
  non_word_boundaries : list char;
  keyword_trie_dict : trie;
  case_sensitive : bool;
  _terms_in_trie : Z
}.

Definition digits : str := of_string "0123456789"%string.
Definition ascii_letters : str :=
  of_string "abcdefghijklmnopqrstuvwxyzABCDEFGHIJKLMNOPQRSTUVWXYZ"%string.

(** [KeywordProcessor.__init__] *)
Definition init (case_sensitive : bool) : KeywordProcessor :=
  {| _white_space_chars := [46; 9; 10; 7; 32; 44]%N;
     non_word_boundaries := digits ++ ascii_letters ++ of_string "_"%string;
     keyword_trie_dict := empty_dict;
     case_sensitive := case_sensitive;
     _terms_in_trie := 0 |}.

Definition with_trie (self : KeywordProcessor) (d : trie) (n : Z) : KeywordProcessor :=
  {| _white_space_chars := _white_space_chars self;
     non_word_boundaries := non_word_boundaries self;
     keyword_trie_dict := d;
     case_sensitive := case_sensitive self;
     _terms_in_trie := n |}.

(** [KeywordProcessor.__len__] *)
Definition __len__ (self : KeywordProcessor) : Z := _terms_in_trie self.

(** [KeywordProcessor.set_non_word_boundaries] *)
Definition set_non_word_boundaries (self : KeywordProcessor)
    (non_word_boundaries : list char) : KeywordProcessor :=
  {| _white_space_chars := _white_space_chars self;
     non_word_boundaries := non_word_boundaries;
     keyword_trie_dict := keyword_trie_dict self;
     case_sensitive := case_sensitive self;
     _terms_in_trie := _terms_in_trie self |}.

(** [KeywordProcessor.add_non_word_boundary] *)
Definition add_non_word_boundary (self : KeywordProcessor) (character : char)
  : KeywordProcessor :=
  set_non_word_boundaries self
    (if mem character (non_word_boundaries self)
     then non_word_boundaries self
     else non_word_boundaries self ++ [character]).

Section Processor.
Variable lower_at : str -> nat -> char.

(** [if not self.case_sensitive: word = word.lower()] *)
Definition fold_case (self : KeywordProcessor) (word : str) : str :=
  if case_sensitive self then word else lower lower_at word.

(** The lookup loop shared by [__contains__] and [__getitem__]: the node
    where the walk stops and the number of characters covered. *)
Fixpoint walk (word : str) (current_dict : trie) : trie * Z :=
  match word with
  | [] => (current_dict, 0)
  | c :: rest =>
      match get_child c (items current_dict) with
      | Some sub => let '(d, n) := walk rest sub in (d, n + 1)
      | None => (current_dict, 0)
      end
  end.

(** [KeywordProcessor.__contains__] *)
Definition __contains__ (self : KeywordProcessor) (word : str) : bool :=
  let word := fold_case self word in
  let '(current_dict, len_covered) := walk word (keyword_trie_dict self) in
  has_keyword current_dict && (len_covered =? len word).

(** [KeywordProcessor.__getitem__] *)
Definition __getitem__ (self : KeywordProcessor) (word : str) : option str :=
  let word := fold_case self word in
  let '(current_dict, len_covered) := walk word (keyword_trie_dict self) in
  if has_keyword current_dict && (len_covered =? len word)
  then get_term (items current_dict)
  else None.

(** The walk of [__setitem__]: [setdefault] along the keyword, then the
    terminal slot is written; the flag says whether the slot was new. *)
Fixpoint trie_insert (keyword : str) (clean_name : str) (current_dict : trie)
  : trie * bool :=
  match keyword with
  | [] =>
      (Dict (set_term clean_name (items current_dict)),
       negb (has_keyword current_dict))
  | letter :: rest =>
      let sub := match get_child letter (items current_dict) with
                 | Some s => s
                 | None => empty_dict
                 end in
      let '(sub', status) := trie_insert rest clean_name sub in
      (Dict (set_child letter sub' (items current_dict)), status)
  end.

(** [KeywordProcessor.__setitem__]; [clean_name = None] is the omitted
    argument. *)
Definition __setitem__ (self : KeywordProcessor) (keyword : str)
    (clean_name : option str) : KeywordProcessor * bool :=
  let clean_name :=
    match clean_name with
    | None => if truthy keyword then Some keyword else None
    | Some c => Some c
    end in
  match clean_name with
  | Some cn =>
      if truthy keyword && truthy cn then
        let keyword := fold_case self keyword in
        let '(d, status) := trie_insert keyword cn (keyword_trie_dict self) in
        (with_trie self d
           (if status then _terms_in_trie self + 1 else _terms_in_trie self),
         status)
      else (self, false)
  | None => (self, false)
  end.

(** The two loops of [__delitem__]: the walk down collects the path, the
    walk back up pops one key per dictionary and stops after the first
    dictionary that had more than one key.  [None]: no complete match.
    The flag says that the upward loop has not reached its [break]. *)
Fixpoint trie_remove (keyword : str) (current_dict : trie) : option (trie * bool) :=
  match keyword with
  | [] =>
      if has_keyword current_dict
      then Some (Dict (pop_term (items current_dict)),
                 len (items current_dict) =? 1)
      else None
  | letter :: rest =>
      match get_child letter (items current_dict) with
      | None => None
      | Some sub =>
          match trie_remove rest sub with
          | None => None
          | Some (sub', true) =>
              Some (Dict (pop_child letter (items current_dict)),
                    len (items current_dict) =? 1)
          | Some (sub', false) =>
              Some (Dict (set_child letter sub' (items current_dict)), false)
          end
      end
  end.

(** [KeywordProcessor.__delitem__] *)
Definition __delitem__ (self : KeywordProcessor) (keyword : str)
  : KeywordProcessor * bool :=
  if truthy keyword then
    let keyword := fold_case self keyword in
    match trie_remove keyword (keyword_trie_dict self) with
    | Some (d, _) => (with_trie self d (_terms_in_trie self - 1), true)
    | None => (self, false)
    end
  else (self, false).

Definition add_keyword := __setitem__.
Definition remove_keyword := __delitem__.
Definition get_keyword := __getitem__.
End Processor.

(** ** Enumeration and bulk loading *)

(** [d[k] = v] on the result dictionary of [get_all_keywords]. *)
Fixpoint dict_set (k : str) (v : str) (d : list (str * str)) : list (str * str) :=
  match d with
  | [] => [(k, v)]
  | (k', v') :: d' =>
      if str_eqb k' k then (k, v) :: d' else (k', v') :: dict_set k v d'
  end.

(** [for key in sub_values: terms_present[key] = sub_values[key]] *)
Definition dict_update (terms_present sub_values : list (str * str)) : list (str * str) :=
  fold_left (fun acc kv => dict_set (fst kv) (snd kv) acc) sub_values terms_present.

(** [KeywordProcessor.get_all_keywords], with both arguments given. *)
Fixpoint get_all_keywords_rec (term_so_far : str) (current_dict : trie)
  : list (str * str) :=
  match current_dict with
  | Dict l =>
      (fix loop (l : list (item trie)) (terms_present : list (str * str)) :=
         match l with
         | [] => terms_present
         | Term v :: l' => loop l' (dict_set term_so_far v terms_present)
         | Child key sub :: l' =>
             loop l' (dict_update terms_present
                        (get_all_keywords_rec (term_so_far ++ [key]) sub))
         end) l []
  end.

(** [KeywordProcessor.get_all_keywords()] *)
Definition get_all_keywords (self : KeywordProcessor) : list (str * str) :=
  get_all_keywords_rec [] (keyword_trie_dict self).

(** A value of the dictionary handed to [add_keywords_from_dict]: a list of
    keywords, or something that is not a list. *)
Inductive dict_value := VList (keywords : list str) | VOther.

Section Bulk.
Variable lower_at : str -> nat -> char.

(** [for keyword in keywords: self.add_keyword(keyword, clean_name)] *)
Definition add_all (self : KeywordProcessor) (keywords : list str) (clean_name : str)
  : KeywordProcessor :=
  fold_left (fun s keyword => fst (add_keyword lower_at s keyword (Some clean_name)))
    keywords self.

(** [KeywordProcessor.add_keywords_from_dict]: the processor as the call
    leaves it, and how the call ended. *)
Fixpoint add_keywords_from_dict (self : KeywordProcessor)
    (keyword_dict : list (str * dict_value)) : KeywordProcessor * res unit :=
  match keyword_dict with
  | [] => (self, Ok tt)
  | (clean_name, VOther) :: _ => (self, Raise AttributeError)
  | (clean_name, VList keywords) :: rest =>
      add_keywords_from_dict (add_all self keywords clean_name) rest
  end.

(** [KeywordProcessor.add_keywords_from_list] *)
Definition add_keywords_from_list (self : KeywordProcessor) (keyword_list : list str)
  : KeywordProcessor :=
  fold_left (fun s keyword => fst (add_keyword lower_at s keyword None))
    keyword_list self.
End Bulk.

Section BulkRemoval.
Variable lower_at : str -> nat -> char.

(** [for keyword in keywords: self.remove_keyword(keyword)] *)
Definition remove_all (self : KeywordProcessor) (keywords : list str) : KeywordProcessor :=
  fold_left (fun s keyword => fst (remove_keyword lower_at s keyword)) keywords self.

(** [KeywordProcessor.remove_keywords_from_dict]: the processor as the call
    leaves it, and how the call ended. *)
Fixpoint remove_keywords_from_dict (self : KeywordProcessor)
    (keyword_dict : list (str * dict_value)) : KeywordProcessor * res unit :=
  match keyword_dict with
  | [] => (self, Ok tt)
  | (clean_name, VOther) :: _ => (self, Raise AttributeError)
  | (clean_name, VList keywords) :: rest =>
      remove_keywords_from_dict (remove_all self keywords) rest
  end.

(** [KeywordProcessor.remove_keywords_from_list] *)
Definition remove_keywords_from_list (self : KeywordProcessor) (keyword_list : list str)
  : KeywordProcessor :=
  remove_all self keyword_list.
End BulkRemoval.

(** ** Index mapping *)

(** The loop of [get_index_mapping], from index [idx] on. *)
Fixpoint offsets_from (idx : Z) (sentence : str) : list Z :=
  match sentence with
  | [] => []
  | c :: rest =>
      (if char_eqb c LATIN_CAPITAL_LETTER_I_WITH_DOT_ABOVE then [idx] else [])
        ++ idx :: offsets_from (idx + 1) rest
  end.

(** [get_index_mapping] *)
Definition get_index_mapping (sentence : str) (case_sensitive : bool)
  : option (list Z) :=
  if case_sensitive || negb (mem LATIN_CAPITAL_LETTER_I_WITH_DOT_ABOVE sentence)
  then None
  else Some (offsets_from 0 sentence).

(** [_get_span_indices] *)
Definition _get_span_indices (start_idx end_idx : Z) (index_mapping : option (list Z))
  : res (Z * Z) :=
  match index_mapping with
  | None => Ok (start_idx, end_idx)
  | Some m =>
      a <- py_index m start_idx ;;
      b <- py_index m (end_idx - 1) ;;
      Ok (a, b + 1)
  end.

(** ** Fuzzy search *)

(** [range(n)] *)
Definition range (n : Z) : list Z := map Z.of_nat (seq 0 (Z.to_nat n)).

(** [min((a, b, c))] *)
Definition min3 (a b c : Z) : Z := Z.min (Z.min a b) c.

(** [min(l)] of a non-empty list. *)
Definition list_min (l : list Z) : Z :=
  match l with
  | [] => 0
  | x :: l' => fold_left Z.min l' x
  end.

(** The row loop of [_levenshtein_rec]: the new row of the edit-distance
    table and the value [cost] holds when the loop ends. *)
Definition levenshtein_row (char : char) (word : str) (rows : list Z) : list Z * Z :=
  fold_left
    (fun (acc : list Z * Z) (col : nat) =>
       let new_rows := fst acc in
       let insert_cost := nth (col - 1) new_rows 0 + 1 in
       let delete_cost := nth col rows 0 + 1 in
       let replace_cost :=
         nth (col - 1) rows 0
         + (if char_eqb (nth (col - 1) word 0%N) char then 0 else 1) in
       let cost := min3 insert_cost delete_cost replace_cost in
       (new_rows ++ [cost], cost))
    (seq 1 (length word))
    ([nth 0 rows 0 + 1], 0).

(** [node.keys() & (self._white_space_chars | {self._keyword})] is not empty. *)
Definition stop_crit (self : KeywordProcessor) (node : trie) : bool :=
  has_keyword node || existsb (fun c => has_child c node) (_white_space_chars self).

(** [KeywordProcessor._levenshtein_rec] on a dictionary node; the generator
    is the list of what it yields, in order.  The item ["_keyword_"] of a
    dictionary holds a clean name, which is not a dictionary: the call made
    for it yields nothing. *)
Fixpoint _levenshtein_rec (self : KeywordProcessor) (char : char) (node : trie)
    (word : str) (rows : list Z) (max_cost : Z) (depth : Z) {struct node}
  : list (trie * Z * Z) :=
  let new_rows := fst (levenshtein_row char word rows) in
  let cost := snd (levenshtein_row char word rows) in
  if (last new_rows 0 <=? max_cost) && stop_crit self node then
    [(node, cost, depth)]
  else if list_min new_rows <=? max_cost then
    match node with
    | Dict l =>
        (fix children (l : list (item trie)) : list (trie * Z * Z) :=
           match l with
           | [] => []
           | Child new_char new_node :: l' =>
               _levenshtein_rec self new_char new_node word new_rows max_cost (depth + 1)
                 ++ children l'
           | Term _ :: l' => children l'
           end) l
    end
  else [].

(** [KeywordProcessor.levensthein] *)
Definition levensthein (self : KeywordProcessor) (word : str) (max_cost : Z)
    (start_node : option trie) : list (trie * Z * Z) :=
  let start_node :=
    match start_node with
    | Some d => if truthy (items d) then d else keyword_trie_dict self
    | None => keyword_trie_dict self
    end in
  let rows := range (len word + 1) in
  flat_map
    (fun it => match it with
               | Child char node => _levenshtein_rec self char node word rows max_cost 1
               | Term _ => []
               end)
    (items start_node).

(** [next(generator, default)] *)
Definition next {A} (generator : list A) (default : A) : A := hd default generator.

(** [KeywordProcessor.get_next_word] *)
Fixpoint get_next_word (self : KeywordProcessor) (sentence : str) : str :=
  match sentence with
  | [] => []
  | c :: rest =>
      if negb (mem c (non_word_boundaries self)) then []
      else c :: get_next_word self rest
  end.

(** ** Extraction *)

Record lookahead_state := {
  idy : Z;
  current_dict_continued : trie;
  la_curr_cost : Z;
  longest_sequence_found : option str;
  la_sequence_end_pos : Z;
  is_longer_seq_found : bool
}.

Record scan_state := {
  idx : Z;
  current_dict : trie;
  sequence_start_pos : Z;
  sequence_end_pos : Z;
  curr_cost : Z;
  keywords_extracted : list (str * Z * Z)
}.

(** How an iteration of a loop ends. *)
Inductive loop_ctl := Continue | Break.

(** [if longest_sequence_found:] *)
Definition truthy_opt (o : option str) : bool :=
  match o with Some v => truthy v | None => false end.

Section Scan.
Variable self : KeywordProcessor.
Variable index_mapping : option (list Z).
(** The sentence, lowered already when the processor is case insensitive. *)
Variable sentence : str.
Variable max_cost : Z.
(** Iteration budget of one run of the lookahead loop. *)
Variable inner_fuel : nat.

Definition is_boundary (c : char) : bool := negb (mem c (non_word_boundaries self)).

(** [longest_sequence_found = current_dict_continued[self._keyword];
     sequence_end_pos = idy; is_longer_seq_found = True] *)
Definition found_longer (st : lookahead_state) : lookahead_state :=
  {| idy := idy st;
     current_dict_continued := current_dict_continued st;
     la_curr_cost := la_curr_cost st;
     longest_sequence_found := get_term (items (current_dict_continued st));
     la_sequence_end_pos := idy st;
     is_longer_seq_found := true |}.

Definition move_to (st : lookahead_state) (node : trie) (cost : Z) (pos : Z)
  : lookahead_state :=
  {| idy := pos;
     current_dict_continued := node;
     la_curr_cost := cost;
     longest_sequence_found := longest_sequence_found st;
     la_sequence_end_pos := la_sequence_end_pos st;
     is_longer_seq_found := is_longer_seq_found st |}.

(** One iteration of the loop that looks for the longest sequence from a
    boundary character on; [Break] when the iteration ends in [break]. *)
Definition lookahead_step (st : lookahead_state) : res (loop_ctl * lookahead_state) :=
  inner_char <- py_index sentence (idy st) ;;
  let st :=
    if is_boundary inner_char && has_keyword (current_dict_continued st)
    then found_longer st else st in
  match get_child inner_char (items (current_dict_continued st)) with
  | Some sub => Ok (Continue, move_to st sub (la_curr_cost st) (idy st + 1))
  | None =>
      if la_curr_cost st >? 0 then
        let next_word := get_next_word self (slice_from sentence (idy st)) in
        let found :=
          next (levensthein self next_word (la_curr_cost st)
                  (Some (current_dict_continued st)))
               (empty_dict, 0, 0) in
        let node := fst (fst found) in
        let cost := snd (fst found) in
        let st := move_to st node (la_curr_cost st - cost)
                    (idy st + (len next_word - 1)) in
        if negb (truthy (items node)) then Ok (Break, st)
        else Ok (Continue, move_to st node (la_curr_cost st) (idy st + 1))
      else Ok (Break, st)
  end.

(** The loop [while idy < sentence_len: ... else: ...]. *)
Fixpoint lookahead (fuel : nat) (st : lookahead_state) : res lookahead_state :=
  match fuel with
  | O => OutOfFuel
  | S fuel' =>
      if idy st <? len sentence then
        r <- lookahead_step st ;;
        match fst r with
        | Continue => lookahead fuel' (snd r)
        | Break => Ok (snd r)
        end
      else
        (* end of sentence reached. *)
        Ok (if has_keyword (current_dict_continued st) then found_longer st else st)
  end.

(** [keywords_extracted.append((value, *get_span_indices(start, end)))] *)
Definition append_match (extracted : list (str * Z * Z)) (value : str)
    (start_idx end_idx : Z) : res (list (str * Z * Z)) :=
  span <- _get_span_indices start_idx end_idx index_mapping ;;
  Ok (extracted ++ [(value, fst span, snd span)]).

Definition update (st : scan_state) (i : Z) (d : trie) (e : Z) (c : Z)
    (ex : list (str * Z * Z)) : scan_state :=
  {| idx := i; current_dict := d; sequence_start_pos := sequence_start_pos st;
     sequence_end_pos := e; curr_cost := c; keywords_extracted := ex |}.

(** The branch [if char not in self.non_word_boundaries:]; the flag is
    [reset_current_dict]. *)
Definition at_boundary (char : char) (st : scan_state) : res (scan_state * bool) :=
  let cd := current_dict st in
  if has_keyword cd || has_child char cd then
    let longest := if has_keyword cd then get_term (items cd) else None in
    let end_pos := if has_keyword cd then idx st else sequence_end_pos st in
    la <- match get_child char (items cd) with
          | Some sub =>
              lookahead inner_fuel
                {| idy := idx st + 1;
                   current_dict_continued := sub;
                   la_curr_cost := curr_cost st;
                   longest_sequence_found := longest;
                   la_sequence_end_pos := end_pos;
                   is_longer_seq_found := false |}
          | None =>
              Ok {| idy := idx st;
                    current_dict_continued := cd;
                    la_curr_cost := curr_cost st;
                    longest_sequence_found := longest;
                    la_sequence_end_pos := end_pos;
                    is_longer_seq_found := false |}
          end ;;
    let idx' := if is_longer_seq_found la then la_sequence_end_pos la else idx st in
    match longest_sequence_found la with
    | Some v =>
        if truthy v then
          ex <- append_match (keywords_extracted st) v (sequence_start_pos st) idx' ;;
          Ok (update st idx' (keyword_trie_dict self) (la_sequence_end_pos la)
                max_cost ex, true)
        else
          Ok (update st idx' (keyword_trie_dict self) (la_sequence_end_pos la)
                (la_curr_cost la) (keywords_extracted st), true)
    | None =>
        Ok (update st idx' (keyword_trie_dict self) (la_sequence_end_pos la)
              (la_curr_cost la) (keywords_extracted st), true)
    end
  else
    Ok (update st (idx st) (keyword_trie_dict self) (sequence_end_pos st)
          (curr_cost st) (keywords_extracted st), true).

(** The loop that skips to the end of the word: the value of [idy] when
    it ends, [rest] being [sentence[idy:]]. *)
Fixpoint skip_word (rest : str) (idy : Z) : Z :=
  match rest with
  | [] => idy
  | c :: rest' => if is_boundary c then idy else skip_word rest' (idy + 1)
  end.

(** The branches taken on a character of [self.non_word_boundaries]. *)
Definition at_word_char (char : char) (st : scan_state) : scan_state * bool :=
  match get_child char (items (current_dict st)) with
  | Some sub =>
      (* we can continue from this char *)
      (update st (idx st) sub (sequence_end_pos st) (curr_cost st)
         (keywords_extracted st), false)
  | None =>
      if curr_cost st >? 0 then
        let next_word := get_next_word self (slice_from sentence (idx st)) in
        let found :=
          next (levensthein self next_word (curr_cost st) (Some (current_dict st)))
               (keyword_trie_dict self, 0, 0) in
        (update st (idx st + (len next_word - 1)) (fst (fst found))
           (sequence_end_pos st) (curr_cost st - snd (fst found))
           (keywords_extracted st), false)
      else
        (update st (skip_word (slice_from sentence (idx st + 1)) (idx st + 1))
           (keyword_trie_dict self) (sequence_end_pos st) (curr_cost st)
           (keywords_extracted st), true)
  end.

(** One iteration of [while idx < sentence_len:]. *)
Definition scan_step (st : scan_state) : res scan_state :=
  char <- py_index sentence (idx st) ;;
  r <- (if is_boundary char then at_boundary char st
        else Ok (at_word_char char st)) ;;
  let st := fst r in
  let reset_current_dict := snd r in
  (* if we are end of sentence and have a sequence discovered *)
  ex <- (if idx st + 1 >=? len sentence then
           match get_term (items (current_dict st)) with
           | Some sequence_found =>
               append_match (keywords_extracted st) sequence_found
                 (sequence_start_pos st) (len sentence)
           | None => Ok (keywords_extracted st)
           end
         else Ok (keywords_extracted st)) ;;
  Ok {| idx := idx st + 1;
        current_dict := current_dict st;
        sequence_start_pos :=
          if reset_current_dict then idx st + 1 else sequence_start_pos st;
        sequence_end_pos := sequence_end_pos st;
        curr_cost := curr_cost st;
        keywords_extracted := ex |}.

Fixpoint scan_loop (fuel : nat) (st : scan_state) : res scan_state :=
  match fuel with
  | O => OutOfFuel
  | S fuel' =>
      if idx st <? len sentence then
        st' <- scan_step st ;; scan_loop fuel' st'
      else Ok st
  end.
End Scan.

(** What [extract_keywords] returns an element of its list as. *)
Inductive extracted :=
| Keyword (value : str)
| KeywordSpan (value : str) (span_start span_end : Z).

(** Depth of the deepest chain of dictionaries below a node. *)
Fixpoint height (d : trie) : nat :=
  match d with
  | Dict l =>
      (fix go (l : list (item trie)) : nat :=
         match l with
         | [] => O
         | Child _ t :: l' => Nat.max (S (height t)) (go l')
         | Term _ :: l' => go l'
         end) l
  end.

Section Extract.
Variable lower_at : str -> nat -> char.

Definition initial_state (self : KeywordProcessor) (max_cost : Z) : scan_state :=
  {| idx := 0; current_dict := keyword_trie_dict self; sequence_start_pos := 0;
     sequence_end_pos := 0; curr_cost := max_cost; keywords_extracted := [] |}.

(** [KeywordProcessor.extract_keywords] with an iteration budget [fuel]
    for each of its loops. *)
Definition extract_keywords_fuel (fuel : nat) (self : KeywordProcessor)
    (sentence : str) (span_info : bool) (max_cost : Z) : res (list extracted) :=
  if negb (truthy sentence) then
    (* if sentence is empty or none just return empty list *)
    Ok []
  else
    let index_mapping := get_index_mapping sentence (case_sensitive self) in
    let sentence := fold_case lower_at self sentence in
    st <- scan_loop self index_mapping sentence max_cost fuel fuel
            (initial_state self max_cost) ;;
    if span_info then
      Ok (map (fun m => KeywordSpan (fst (fst m)) (snd (fst m)) (snd m))
            (keywords_extracted st))
    else
      Ok (map (fun m => Keyword (fst (fst m))) (keywords_extracted st)).

(** A budget that every run stays within. *)
Definition enough_fuel (self : KeywordProcessor) (sentence : str) : nat :=
  ((length (fold_case lower_at self sentence) + 2)
   * (height (keyword_trie_dict self) + 3))%nat.

(** [KeywordProcessor.extract_keywords] *)
Definition extract_keywords (self : KeywordProcessor) (sentence : str)
    (span_info : bool) (max_cost : Z) : res (list extracted) :=
  extract_keywords_fuel (enough_fuel self sentence) self sentence span_info max_cost.
End Extract.

(** * Notions used to state the properties *)

(** The clean name registered for [word], read off the trie. *)
Fixpoint lookup (word : str) (d : trie) : option str :=
  match word with
  | [] => get_term (items d)
  | c :: rest =>
      match get_child c (items d) with
      | Some sub => lookup rest sub
      | None => None
      end
  end.

(** The node at the end of [path], when the trie has that path. *)
Fixpoint node_at (path : str) (d : trie) : option trie :=
  match path with
  | [] => Some d
  | c :: rest =>
      match get_child c (items d) with
      | Some sub => node_at rest sub
      | None => None
      end
  end.

(** The one-character keys of a dictionary, in order. *)
Fixpoint child_keys (l : list (item trie)) : list char :=
  match l with
  | [] => []
  | Child c _ :: l' => c :: child_keys l'
  | Term _ :: l' => child_keys l'
  end.

(** How many times the key ["_keyword_"] occurs. *)
Fixpoint term_count (l : list (item trie)) : nat :=
  match l with
  | [] => O
  | Child _ _ :: l' => term_count l'
  | Term _ :: l' => S (term_count l')
  end.

(** The number of terminal slots of a trie. *)
Fixpoint count_terms (d : trie) : nat :=
  match d with
  | Dict l =>
      (fix go (l : list (item trie)) : nat :=
         match l with
         | [] => O
         | Child _ t :: l' => (count_terms t + go l')%nat
         | Term _ :: l' => S (go l')
         end) l
  end.

(** What every Python dictionary of the trie satisfies: a key occurs once;
    and what [__setitem__] guarantees of a stored clean name: it is truthy. *)
Inductive wf : trie -> Prop :=
| wf_Dict (l : list (item trie)) :
    NoDup (child_keys l) ->
    (term_count l <= 1)%nat ->
    (forall v, In (Term v) l -> truthy v = true) ->
    (forall c t, In (Child c t) l -> wf t) ->
    wf (Dict l).

(** The processors that [__init__], [add_keyword], [remove_keyword] and the
    two setters of the word characters build. *)
Inductive reachable (lower_at : str -> nat -> char) : KeywordProcessor -> Prop :=
| reach_init (cs : bool) : reachable lower_at (init cs)
| reach_add (self : KeywordProcessor) (keyword : str) (clean_name : option str) :
    reachable lower_at self ->
    reachable lower_at (fst (add_keyword lower_at self keyword clean_name))
| reach_remove (self : KeywordProcessor) (keyword : str) :
    reachable lower_at self ->
    reachable lower_at (fst (remove_keyword lower_at self keyword))
| reach_set_boundaries (self : KeywordProcessor) (non_word_boundaries : list char) :
    reachable lower_at self ->
    reachable lower_at (set_non_word_boundaries self non_word_boundaries)
| reach_add_boundary (self : KeywordProcessor) (character : char) :
    reachable lower_at self ->
    reachable lower_at (add_non_word_boundary self character).

(** The invariant of a processor: well-formed dictionaries, no terminal slot
    at the root, and a count that is the number of terminal slots. *)
Definition invariant (self : KeywordProcessor) : Prop :=
  wf (keyword_trie_dict self)
  /\ get_term (items (keyword_trie_dict self)) = None
  /\ _terms_in_trie self = Z.of_nat (count_terms (keyword_trie_dict self)).

(** The terminal slots under one item of a dictionary. *)
Definition item_terms (it : item trie) : nat :=
  match it with Child _ t => count_terms t | Term _ => 1%nat end.

(** The registered patterns below a node with their clean names, in
    dictionary order; [prefix] is the path to the node. *)
Fixpoint enumerate (prefix : str) (d : trie) : list (str * str) :=
  match d with
  | Dict l =>
      (fix go (l : list (item trie)) : list (str * str) :=
         match l with
         | [] => []
         | Term v :: l' => (prefix, v) :: go l'
         | Child c t :: l' => enumerate (prefix ++ [c]) t ++ go l'
         end) l
  end.

Definition enum_item (prefix : str) (it : item trie) : list (str * str) :=
  match it with
  | Term v => [(prefix, v)]
  | Child c t => enumerate (prefix ++ [c]) t
  end.

(** The loop of [get_all_keywords] over the items of a dictionary. *)
Definition get_all_keywords_loop (term_so_far : str) (l : list (item trie))
    (terms_present : list (str * str)) : list (str * str) :=
  fold_left
    (fun acc it =>
       match it with
       | Term v => dict_set term_so_far v acc
       | Child key sub =>
           dict_update acc (get_all_keywords_rec (term_so_far ++ [key]) sub)
       end)
    l terms_present.

(** [for keyword, clean_name in pairs: self.add_keyword(keyword, clean_name)] *)
Definition add_pairs (lower_at : str -> nat -> char) (self : KeywordProcessor)
    (pairs : list (str * str)) : KeywordProcessor :=
  fold_left (fun s kv => fst (add_keyword lower_at s (fst kv) (Some (snd kv))))
    pairs self.

(** The measure that bounds the lookahead loop: what is left of the
    sentence, and below it how deep the lookahead node still is ([H] is the
    height of the root; an empty node makes the fuzzy search start again
    from the root). *)
Definition node_weight (H : nat) (d : trie) : nat :=
  if truthy (items d) then height d else S H.

Definition lookahead_measure (sentence_len : Z) (H : nat) (st : lookahead_state) : nat :=
  (Z.to_nat (sentence_len - idy st) * (H + 2)
   + node_weight H (current_dict_continued st))%nat.

(** A reported match: the translation of a span [a, b) of the scanned
    sentence that starts inside it and is not empty (when the root has no
    terminal slot). *)
Definition emitted_ok (root : trie) (index_mapping : option (list Z))
    (sentence_len : Z) (m : str * Z * Z) : Prop :=
  exists a b,
    0 <= a /\ a <= b /\ b <= sentence_len /\ a < sentence_len
    /\ (get_term (items root) = None -> a < b)
    /\ _get_span_indices a b index_mapping = Ok (snd (fst m), snd m).

(** The processor of the class docstring. *)
Definition docstring_processor : KeywordProcessor :=
  add_pairs ascii_lower_at (init false)
    [(of_string "NY", of_string "new york");
     (of_string "new-york", of_string "new york");
     (of_string "SF", of_string "san francisco")].

Definition docstring_sentence : str :=
  of_string "I love SF and NY. new-york is the best.".

(** A case-sensitive processor with the one keyword ["a-bc"]. *)
Definition dash_processor : KeywordProcessor :=
  fst (add_keyword ascii_lower_at (init true) (of_string "a-bc") None).

(** [l[a:b]] for [0 <= a <= b]. *)
Definition substring {A} (l : list A) (a b : Z) : list A :=
  firstn (Z.to_nat (b - a)) (skipn (Z.to_nat a) l).

(** Where the lowering of the character at index [k] starts in the
    lowered sentence. *)
Definition start_of (lower_at : str -> nat -> char) (s : str) (k : nat) : nat :=
  length (lower_from lower_at s 0 (firstn k s)).

(** A sentence that starts with U+0130, and a processor to scan it with. *)
Definition dotted_sentence : str := 304%N :: of_string " NY".


(** The Levenshtein table of [a] against [b] (Wagner and Fischer):
    [lev a b i j] is the edit distance between the first [i] characters of
    [a] and the first [j] characters of [b]. *)
Fixpoint lev (a b : str) (i j : nat) {struct i} : Z :=
  match i with
  | O => Z.of_nat j
  | S i' =>
      (fix inner (j : nat) : Z :=
         match j with
         | O => Z.of_nat (S i')
         | S j' =>
             min3 (inner j' + 1)
                  (lev a b i' (S j') + 1)
                  (lev a b i' j'
                   + (if char_eqb (nth j' b 0%N) (nth i' a 0%N) then 0 else 1))
         end) j
  end.

Definition edit_distance (a b : str) : Z := lev a b (length a) (length b).

(** The row of the table for the whole of [path]. *)
Definition rows_for (path word : str) : list Z :=
  map (lev path word (length path)) (seq 0 (S (length word))).

(** The value [cost] holds when the loop ends: the distance, or [0] when
    the word is empty and the loop body never runs. *)
Definition yielded_cost (word path : str) : Z :=
  match word with
  | [] => 0
  | _ => edit_distance path word
  end.

(** Every path of a trie with the nodes along it, in the order a depth-first
    walk that follows the iteration order of each dictionary comes to them. *)
Fixpoint preorder (d : trie) : list (list (char * trie)) :=
  match d with
  | Dict l =>
      (fix go (l : list (item trie)) : list (list (char * trie)) :=
         match l with
         | [] => []
         | Child c t :: l' => ([(c, t)] :: map (cons (c, t)) (preorder t)) ++ go l'
         | Term _ :: l' => go l'
         end) l
  end.

(** The least entry of the row of [path]. *)
Definition row_min (path word : str) : Z := list_min (rows_for path word).

(** The fuzzy search accepts the node at the end of [path]: the distance of
    the path to the word is within the budget and the node is terminal or
    goes on with a boundary character. *)
Definition accepted (self : KeywordProcessor) (word : str) (k : Z)
    (path : str) (node : trie) : bool :=
  (edit_distance path word <=? k) && stop_crit self node.

(** The fuzzy search goes on below the node at the end of [path]: it did
    not accept it and the row of the path is not all above the budget. *)
Definition expanded (self : KeywordProcessor) (word : str) (k : Z)
    (path : str) (node : trie) : bool :=
  negb (accepted self word k path node) && (row_min path word <=? k).

(** The search yields the end of the trail: it goes on below every node
    before the last and accepts the last. *)
Fixpoint yielded_from (self : KeywordProcessor) (word : str) (k : Z)
    (base : str) (tr : list (char * trie)) : bool :=
  match tr with
  | [] => false
  | (c, n) :: rest =>
      match rest with
      | [] => accepted self word k (base ++ [c]) n
      | _ :: _ =>
          expanded self word k (base ++ [c]) n
          && yielded_from self word k (base ++ [c]) rest
      end
  end.

(** What the search yields for a trail: its last node, the cost and the
    depth. *)
Definition result_of (word : str) (base : str) (tr : list (char * trie))
  : trie * Z * Z :=
  (snd (last tr (0%N, empty_dict)),
   yielded_cost word (base ++ map fst tr),
   len base + len tr).

(** [start_node or self.keyword_trie_dict] *)
Definition start_node_of (self : KeywordProcessor) (start_node : option trie) : trie :=
  match start_node with
  | Some d => if truthy (items d) then d else keyword_trie_dict self
  | None => keyword_trie_dict self
  end.

(** The recursive calls [_levenshtein_rec] makes for the items of a node. *)
Definition levenshtein_children (self : KeywordProcessor) (word : str)
    (rows : list Z) (max_cost depth : Z) (l : list (item trie)) : list (trie * Z * Z) :=
  flat_map
    (fun it => match it with
               | Child c t => _levenshtein_rec self c t word rows max_cost depth
               | Term _ => []
               end) l.

(** Two case-sensitive processors with the keywords ["ab"] and ["ac"],
    added in the two possible orders. *)
Definition ab_ac_processor : KeywordProcessor :=
  add_keywords_from_list ascii_lower_at (init true) [of_string "ab"; of_string "ac"].

Definition ac_ab_processor : KeywordProcessor :=
  add_keywords_from_list ascii_lower_at (init true) [of_string "ac"; of_string "ab"].

(** Position [e] of the sentence is its end or holds a character that is
    not a word character. *)
Definition boundary_at (self : KeywordProcessor) (s : str) (e : Z) : Prop :=
  e = len s
  \/ (0 <= e < len s
      /\ exists c, nth_error s (Z.to_nat e) = Some c /\ is_boundary self c = true).

(** A registered pattern occurs in the sentence from [a] up to [e], where it
    ends at a boundary. *)
Definition match_end (self : KeywordProcessor) (s : str) (a e : Z) : Prop :=
  a < e <= len s /\ boundary_at self s e
  /\ lookup (substring s a e) (keyword_trie_dict self) <> None.

(** A match [(v, a, b)]: the pattern registered with clean name [v] occurs
    from [a] up to [b], and no registered pattern that occurs from [a] ends
    later than [b]. *)
Definition longest_match (self : KeywordProcessor) (s : str) (m : str * Z * Z) : Prop :=
  let v := fst (fst m) in
  let a := snd (fst m) in
  let b := snd m in
  0 <= a /\ a < b /\ b <= len s
  /\ lookup (substring s a b) (keyword_trie_dict self) = Some v
  /\ boundary_at self s b
  /\ forall e, match_end self s a e -> e <= b.

(** The match [e] reported for the match [f] of the scanned sentence. *)
Definition reported (index_mapping : option (list Z)) (f e : str * Z * Z) : Prop :=
  fst (fst e) = fst (fst f)
  /\ _get_span_indices (snd (fst f)) (snd f) index_mapping = Ok (snd (fst e), snd e).

(** [f1] ends before [f2] starts. *)
Definition ends_before (f1 f2 : str * Z * Z) : Prop := snd f1 < snd (fst f2).

(** What the lookahead loop keeps true when no fuzzy budget is left: [a] is
    where the candidate match starts, [lo] where the lookahead started. *)
Definition la_exact_inv (self : KeywordProcessor) (s : str) (a lo : Z)
    (longest0 : option str) (st : lookahead_state) : Prop :=
  (0 <= a /\ a < lo /\ lo <= idy st /\ idy st <= len s)
  /\ la_curr_cost st <= 0
  /\ node_at (substring s a (idy st)) (keyword_trie_dict self)
     = Some (current_dict_continued st)
  /\ (is_longer_seq_found st = true ->
      lo <= la_sequence_end_pos st <= idy st
      /\ boundary_at self s (la_sequence_end_pos st)
      /\ longest_sequence_found st
         = lookup (substring s a (la_sequence_end_pos st)) (keyword_trie_dict self)
      /\ longest_sequence_found st <> None)
  /\ (is_longer_seq_found st = false -> longest_sequence_found st = longest0)
  /\ (forall e, lo <= e < idy st -> match_end self s a e ->
      is_longer_seq_found st = true /\ e <= la_sequence_end_pos st).

(** What holds when that loop has ended. *)
Definition la_exact_post (self : KeywordProcessor) (s : str) (a lo : Z)
    (longest0 : option str) (st : lookahead_state) : Prop :=
  la_curr_cost st <= 0
  /\ (is_longer_seq_found st = true ->
      lo <= la_sequence_end_pos st <= len s
      /\ boundary_at self s (la_sequence_end_pos st)
      /\ longest_sequence_found st
         = lookup (substring s a (la_sequence_end_pos st)) (keyword_trie_dict self)
      /\ longest_sequence_found st <> None)
  /\ (is_longer_seq_found st = false -> longest_sequence_found st = longest0)
  /\ (forall e, lo <= e <= len s -> match_end self s a e ->
      is_longer_seq_found st = true /\ e <= la_sequence_end_pos st).

(** What is known of the matches reported so far: they are the reports of
    longest matches [fs] of the scanned sentence, in order, none overlapping
    the next. *)
Definition reports_longest (self : KeywordProcessor) (index_mapping : option (list Z))
    (s : str) (fs extracted : list (str * Z * Z)) : Prop :=
  Forall2 (reported index_mapping) fs extracted
  /\ Forall (longest_match self s) fs
  /\ Sorted.StronglySorted ends_before fs.

(** What the scan loop keeps true when there is no fuzzy budget. *)
Definition exact_inv (self : KeywordProcessor) (index_mapping : option (list Z))
    (s : str) (st : scan_state) : Prop :=
  0 <= sequence_start_pos st <= idx st
  /\ curr_cost st <= 0
  /\ (idx st < len s ->
      node_at (substring s (sequence_start_pos st) (idx st)) (keyword_trie_dict self)
      = Some (current_dict st))
  /\ exists fs,
       reports_longest self index_mapping s fs (keywords_extracted st)
       /\ forall f, In f fs ->
            snd f <= len s /\ (idx st < len s -> snd f < sequence_start_pos st).

(** What the scan can see of a node without fuzzy budget: for every path
    from it, whether the path is there and the terminal slot at its end. *)
Definition kw_at (p : str) (d : trie) : option (option str) :=
  option_map (fun n => get_term (items n)) (node_at p d).

(** Two tries that the scan cannot tell apart: the order of the items of
    their dictionaries may differ. *)
Definition sim (d1 d2 : trie) : Prop := forall p, kw_at p d1 = kw_at p d2.

(** Two processors with the same settings and tries that differ in the
    order of their items only. *)
Definition proc_sim (self1 self2 : KeywordProcessor) : Prop :=
  non_word_boundaries self1 = non_word_boundaries self2
  /\ case_sensitive self1 = case_sensitive self2
  /\ sim (keyword_trie_dict self1) (keyword_trie_dict self2).

(** Two outcomes that agree, the results being related by [R]. *)
Definition res_rel {A B} (R : A -> B -> Prop) (r1 : res A) (r2 : res B) : Prop :=
  match r1, r2 with
  | Ok a, Ok b => R a b
  | Raise e1, Raise e2 => e1 = e2
  | OutOfFuel, OutOfFuel => True
  | _, _ => False
  end.

Definition la_rel (st1 st2 : lookahead_state) : Prop :=
  idy st1 = idy st2
  /\ la_curr_cost st1 = la_curr_cost st2
  /\ la_curr_cost st1 <= 0
  /\ longest_sequence_found st1 = longest_sequence_found st2
  /\ la_sequence_end_pos st1 = la_sequence_end_pos st2
  /\ is_longer_seq_found st1 = is_longer_seq_found st2
  /\ sim (current_dict_continued st1) (current_dict_continued st2).

Definition scan_rel (st1 st2 : scan_state) : Prop :=
  idx st1 = idx st2
  /\ sequence_start_pos st1 = sequence_start_pos st2
  /\ sequence_end_pos st1 = sequence_end_pos st2
  /\ curr_cost st1 = curr_cost st2
  /\ curr_cost st1 <= 0
  /\ keywords_extracted st1 = keywords_extracted st2
  /\ sim (current_dict st1) (current_dict st2).

(** [p] is a prefix of [k]. *)
Fixpoint is_prefix (p k : str) : bool :=
  match p, k with
  | [], _ => true
  | c :: p', c' :: k' => char_eqb c c' && is_prefix p' k'
  | _ :: _, [] => false
  end.

(** What [kw_at p] is once [k] has been registered with [v], from what it
    was. *)
Definition insert_view (k v p : str) (x : option (option str)) : option (option str) :=
  if str_eqb p k then Some (Some v)
  else if is_prefix p k then Some (match x with Some t => t | None => None end)
  else x.

(** The key and value [add_keyword] writes into the trie, if any. *)
Definition add_effect (lower_at : str -> nat -> char) (self : KeywordProcessor)
    (keyword : str) (clean_name : option str) : option (str * str) :=
  match (match clean_name with
         | None => if truthy keyword then Some keyword else None
         | Some c => Some c
         end) with
  | Some cn =>
      if truthy keyword && truthy cn
      then Some (fold_case lower_at self keyword, cn)
      else None
  | None => None
  end.

(** What the lookahead loop keeps true: [lo] is the index it starts at,
    [longest0] the sequence found before it starts. *)
Definition lookahead_inv (sentence : str) (lo : Z) (longest0 : option str)
    (st : lookahead_state) : Prop :=
  (is_longer_seq_found st = true -> lo <= la_sequence_end_pos st <= len sentence)
  /\ (is_longer_seq_found st = false -> longest_sequence_found st = longest0).

(** What the scan loop keeps true. *)
Definition scan_inv (self : KeywordProcessor) (index_mapping : option (list Z))
    (sentence : str) (st : scan_state) : Prop :=
  0 <= sequence_start_pos st <= idx st
  /\ (height (current_dict st) <= height (keyword_trie_dict self))%nat
  /\ (get_term (items (keyword_trie_dict self)) = None ->
      has_keyword (current_dict st) = true ->
      sequence_start_pos st < idx st)
  /\ Forall (emitted_ok (keyword_trie_dict self) index_mapping (len sentence))
       (keywords_extracted st).

(** What a branch of the body of the scan loop leaves when there is no fuzzy
    budget; the flag of [r] is [reset_current_dict]. *)
Definition branch_post (self : KeywordProcessor) (index_mapping : option (list Z))
    (s : str) (st : scan_state) (r : scan_state * bool) : Prop :=
  let st1 := fst r in
  idx st <= idx st1 <= len s
  /\ sequence_start_pos st1 = sequence_start_pos st
  /\ curr_cost st1 <= 0
  /\ (snd r = true -> current_dict st1 = keyword_trie_dict self)
  /\ (snd r = false ->
      idx st1 = idx st
      /\ keywords_extracted st1 = keywords_extracted st
      /\ node_at (substring s (sequence_start_pos st) (idx st + 1))
           (keyword_trie_dict self) = Some (current_dict st1))
  /\ exists fs,
       reports_longest self index_mapping s fs (keywords_extracted st1)
       /\ forall f, In f fs ->
            snd f <= len s
            /\ (snd r = true -> snd f <= idx st1)
            /\ (snd r = false -> snd f < sequence_start_pos st).

(** What one call of [_levenshtein_rec] on [node] yields. *)
Definition rec_spec (self : KeywordProcessor) (word : str) (k : Z) (node : trie) : Prop :=
  forall c base,
    _levenshtein_rec self c node word (rows_for base word) k (len base + 1)
    = map (result_of word base)
        (filter (yielded_from self word k base)
           ([(c, node)] :: map (cons (c, node)) (preorder node))).

(** The entries of a dictionary whose values are all lists. *)
Definition list_entries (entries : list (str * list str)) : list (str * dict_value) :=
  map (fun e => (fst e, VList (snd e))) entries.

(** What a loop over such entries registers. *)
Definition add_entries (lower_at : str -> nat -> char) (self : KeywordProcessor)
    (entries : list (str * list str)) : KeywordProcessor :=
  fold_left (fun s e => add_all lower_at s (snd e) (fst e)) entries self.

(** The processors of the docstrings of [extract_keywords], [levensthein]
    and [get_all_keywords]. *)
Definition big_apple_processor : KeywordProcessor :=
  fst (add_keyword ascii_lower_at
         (fst (add_keyword ascii_lower_at (init false) (of_string "Big Apple")
                 (Some (of_string "New York"))))
         (of_string "Bay Area") None).

Definition marie_processor : KeywordProcessor :=
  fst (add_keyword ascii_lower_at (init true) (of_string "Marie")
         (Some (of_string "Mary"))).

Definition marie_blanc_processor : KeywordProcessor :=
  fst (add_keyword ascii_lower_at (init true) (of_string "Marie Blanc")
         (Some (of_string "Mary"))).

Definition j2ee_processor : KeywordProcessor :=
  fst (add_keyword ascii_lower_at
         (fst (add_keyword ascii_lower_at (init false) (of_string "j2ee")
                 (Some (of_string "Java"))))
         (of_string "Python") (Some (of_string "Python"))).

(** No dictionary below the root is empty. *)
Inductive pruned : trie -> Prop :=
| pruned_Dict (l : list (item trie)) :
    (forall c t, In (Child c t) l -> truthy (items t) = true) ->
    (forall c t, In (Child c t) l -> pruned t) ->
    pruned (Dict l).

(** The patterns of the docstring processor, registered in another order
    together with one more that is removed again. *)
Definition rebuilt_processor : KeywordProcessor :=
  fst (remove_keyword ascii_lower_at
         (add_pairs ascii_lower_at (init false)
            [(of_string "SF", of_string "san francisco");
             (of_string "LA", of_string "los angeles");
             (of_string "new-york", of_string "new york");
             (of_string "NY", of_string "new york")])
         (of_string "LA")).

(** What the key [q] looks up to once the pairs have been registered in
    order: the clean name of the last pair that passes the guard of
    [__setitem__] and whose keyword folds to [q], or [before] when there is
    none. *)
Definition registered_by (fold : str -> str) (pairs : list (str * str)) (q : str)
    (before : option str) : option str :=
  fold_left
    (fun (acc : option str) (kv : str * str) =>
       if truthy (fst kv) && truthy (snd kv) && str_eqb q (fold (fst kv))
       then Some (snd kv) else acc)
    pairs before.

(** The (keyword, clean name) pairs of a dictionary of lists, in the order
    in which [add_keywords_from_dict] registers them, and its keywords. *)
Definition entry_pairs (entries : list (str * list str)) : list (str * str) :=
  flat_map (fun e => map (fun keyword => (keyword, fst e)) (snd e)) entries.

Definition entry_keywords (entries : list (str * list str)) : list str :=
  flat_map snd entries.

(** The dictionary of the docstring of [add_keywords_from_dict]. *)
Definition java_entries : list (str * list str) :=
  [(of_string "java", [of_string "java_2e"; of_string "java programing"]);
   (of_string "product management", [of_string "PM"; of_string "product manager"])].

(** [v] is the clean name of a registered pattern; [node] is a dictionary of
    the trie. *)
Definition registered_value (root : trie) (v : str) : Prop :=
  exists p, lookup p root = Some v.

Definition in_trie (root node : trie) : Prop :=
  exists p, node_at p root = Some node.

(** What the lookahead loop and the scan loop keep true with any fuzzy
    budget: the budget left is between [0] and [max_cost], the current
    dictionary is one of the trie, and what has been found is registered. *)
Definition lookahead_sound (root : trie) (max_cost : Z) (st : lookahead_state) : Prop :=
  (0 <= max_cost -> 0 <= la_curr_cost st <= max_cost)
  /\ forall v, longest_sequence_found st = Some v -> registered_value root v.

Definition scan_sound (root : trie) (max_cost : Z) (st : scan_state) : Prop :=
  (0 <= max_cost -> 0 <= curr_cost st <= max_cost)
  /\ in_trie root (current_dict st)
  /\ Forall (fun m => registered_value root (fst (fst m))) (keywords_extracted st).

(** The clean name of an extracted match. *)
Definition value_of (e : extracted) : str :=
  match e with Keyword v => v | KeywordSpan v _ _ => v end.

(** Two states of the scan that differ in the spans reported so far only. *)
Definition same_values (st1 st2 : scan_state) : Prop :=
  idx st1 = idx st2
  /\ current_dict st1 = current_dict st2
  /\ sequence_start_pos st1 = sequence_start_pos st2
  /\ sequence_end_pos st1 = sequence_end_pos st2
  /\ curr_cost st1 = curr_cost st2
  /\ map (fun m => fst (fst m)) (keywords_extracted st1)
     = map (fun m => fst (fst m)) (keywords_extracted st2).

(** A fresh processor with the settings of [self], into which the pairs
    that [get_all_keywords] lists are registered again. *)
Definition rebuilt_from_keywords (lower_at : str -> nat -> char) (self : KeywordProcessor)
  : KeywordProcessor :=
  add_pairs lower_at
    (set_non_word_boundaries (init (case_sensitive self)) (non_word_boundaries self))
    (get_all_keywords self).

(** A span of the scanned sentence that is not empty and lies in it. *)
Definition span_in (s : str) (f : str * Z * Z) : Prop :=
  0 <= snd (fst f) < snd f /\ snd f <= len s.

(** What is known of the matches reported so far, with any budget: they are
    the reports of spans [fs] of the scanned sentence that lie in it, come
    in order without overlapping, and end before the current candidate
    starts. *)
Definition spans_ordered (index_mapping : option (list Z)) (s : str)
    (st : scan_state) : Prop :=
  exists fs,
    Forall2 (reported index_mapping) fs (keywords_extracted st)
    /\ StronglySorted ends_before fs
    /\ Forall (span_in s) fs
    /\ (idx st < len s -> Forall (fun f => snd f < sequence_start_pos st) fs).

(** The span of an extracted match. *)
Definition span_start (e : extracted) : Z :=
  match e with KeywordSpan _ a _ => a | Keyword _ => 0 end.

Definition span_end (e : extracted) : Z :=
  match e with KeywordSpan _ _ b => b | Keyword _ => 0 end.



(** Two processors with the patterns ["ab"] and ["ac e"], registered in the
    two possible orders. *)
Definition ab_ace_processor : KeywordProcessor :=
  add_pairs ascii_lower_at (init false)
    [(of_string "ab", of_string "short"); (of_string "ac e", of_string "long")].

Definition ace_ab_processor : KeywordProcessor :=
  add_pairs ascii_lower_at (init false)
    [(of_string "ac e", of_string "long"); (of_string "ab", of_string "short")].


(** ** Induction on tries *)

Section TrieInd.
Variable P : trie -> Prop.
Hypothesis HDict :
  forall l, (forall c t, In (Child c t) l -> P t) -> P (Dict l).

Fixpoint trie_ind (d : trie) : P d :=
  match d with
  | Dict l =>
      HDict l
        ((fix go (l : list (item trie)) : forall c t, In (Child c t) l -> P t :=
            match l with
            | [] => fun c t (H : In (Child c t) []) => match H with end
            | it :: l' => fun c t (H : In (Child c t) (it :: l')) =>
                match H with
                | or_introl E =>
                    match it as i return i = Child c t -> P t with
                    | Child c0 t0 => fun E0 =>
                        eq_ind t0 P (trie_ind t0) t
                          (f_equal (fun i => match i with
                                             | Child _ x => x
                                             | Term _ => t0
                                             end) E0)
                    | Term v => fun E0 =>
                        False_ind _
                          (eq_ind (Term v)
                             (fun i => match i with
                                       | Term _ => True
                                       | Child _ _ => False
                                       end) I (Child c t) E0)
                    end E
                | or_intror H' => go l' c t H'
                end
            end) l)
  end.
End TrieInd.

(** * Properties *)

(** ** Dictionaries *)

Lemma char_eqb_eq (a b : char) : char_eqb a b = true <-> a = b.
Proof. apply N.eqb_eq. Qed.

Lemma char_eqb_neq (a b : char) : char_eqb a b = false <-> a <> b.
Proof. apply N.eqb_neq. Qed.

Lemma char_eqb_refl (a : char) : char_eqb a a = true.
Proof. apply N.eqb_refl. Qed.

Lemma str_eqb_eq (a b : str) : str_eqb a b = true <-> a = b.
Proof.
  revert b; induction a as [|x a IH]; intros [|y b]; simpl; split;
    try congruence; try reflexivity.
  - rewrite andb_true_iff, char_eqb_eq, IH. intros [-> ->]; reflexivity.
  - intros E; injection E as -> ->. rewrite char_eqb_refl. apply IH; reflexivity.
Qed.

Lemma len_nonneg {A} (l : list A) : 0 <= len l.
Proof. unfold len; lia. Qed.

Lemma len_cons {A} (a : A) (l : list A) : len (a :: l) = len l + 1.
Proof. unfold len; simpl length; lia. Qed.

Lemma len_app {A} (l1 l2 : list A) : len (l1 ++ l2) = len l1 + len l2.
Proof. unfold len; rewrite length_app; lia. Qed.

Ltac case_char c1 c2 :=
  let E := fresh "E" in
  destruct (char_eqb c1 c2) eqn:E;
  [apply char_eqb_eq in E | apply char_eqb_neq in E].

Lemma get_child_set_child_same c t l : get_child c (set_child c t l) = Some t.
Proof.
  induction l as [|[c' t'|v] l IH]; simpl.
  - now rewrite char_eqb_refl.
  - case_char c' c; simpl.
    + now rewrite char_eqb_refl.
    + apply char_eqb_neq in E; now rewrite E.
  - exact IH.
Qed.

Lemma get_child_set_child_other c c' t l :
  c' <> c -> get_child c' (set_child c t l) = get_child c' l.
Proof.
  intros N; induction l as [|[c0 t0|v] l IH]; simpl.
  - case_char c c'; congruence.
  - case_char c0 c; simpl.
    + subst c0. case_char c c'; congruence.
    + now rewrite IH.
  - exact IH.
Qed.

Lemma get_term_set_child c t l : get_term (set_child c t l) = get_term l.
Proof.
  induction l as [|[c0 t0|v] l IH]; simpl; auto.
  case_char c0 c; simpl; auto.
Qed.

Lemma get_term_set_term v l : get_term (set_term v l) = Some v.
Proof. induction l as [|[c0 t0|v0] l IH]; simpl; auto. Qed.

Lemma get_child_set_term c v l : get_child c (set_term v l) = get_child c l.
Proof.
  induction l as [|[c0 t0|v0] l IH]; simpl; auto.
  now rewrite IH.
Qed.

Lemma get_child_In c l t : get_child c l = Some t -> In (Child c t) l.
Proof.
  induction l as [|[c0 t0|v0] l IH]; simpl; try discriminate.
  - case_char c0 c.
    + intros [= ->]; subst; now left.
    + intros H; right; auto.
  - intros H; right; auto.
Qed.

Lemma get_child_None c l : get_child c l = None <-> ~ In c (child_keys l).
Proof.
  induction l as [|[c0 t0|v0] l IH]; simpl.
  - split; auto.
  - case_char c0 c.
    + split; [discriminate | intros H; exfalso; apply H; now left].
    + rewrite IH. split; [intros H [?|?]; congruence | tauto].
  - exact IH.
Qed.

Lemma get_term_None l : get_term l = None <-> term_count l = O.
Proof.
  induction l as [|[c0 t0|v0] l IH]; simpl; try tauto.
  split; discriminate.
Qed.

Lemma get_term_In l v : get_term l = Some v -> In (Term v) l.
Proof.
  induction l as [|[c0 t0|v0] l IH]; simpl; try discriminate.
  - intros H; right; auto.
  - intros [= ->]; now left.
Qed.

Lemma count_terms_Dict l : count_terms (Dict l) = list_sum (map item_terms l).
Proof.
  induction l as [|[c t|v] l IH]; simpl in *; auto.
Qed.

Lemma child_keys_set_child c t l :
  child_keys (set_child c t l)
  = if isSome (get_child c l) then child_keys l else child_keys l ++ [c].
Proof.
  induction l as [|[c0 t0|v0] l IH]; simpl; auto.
  case_char c0 c; simpl.
  - now subst.
  - rewrite IH. now destruct (get_child c l).
Qed.

Lemma NoDup_set_child c t l :
  NoDup (child_keys l) -> NoDup (child_keys (set_child c t l)).
Proof.
  intros H. rewrite child_keys_set_child.
  destruct (get_child c l) eqn:E; simpl; auto.
  apply get_child_None in E.
  apply NoDup_app; auto.
  - constructor; [intros [] | constructor].
  - intros x Hx [<-|[]]; auto.
Qed.

Lemma term_count_set_child c t l : term_count (set_child c t l) = term_count l.
Proof.
  induction l as [|[c0 t0|v0] l IH]; simpl; auto.
  case_char c0 c; simpl; auto.
Qed.

Lemma child_keys_set_term v l : child_keys (set_term v l) = child_keys l.
Proof. induction l as [|[c0 t0|v0] l IH]; simpl; congruence. Qed.

Lemma term_count_set_term v l :
  (term_count l <= 1 -> term_count (set_term v l) <= 1)%nat.
Proof. induction l as [|[c0 t0|v0] l IH]; simpl; auto. Qed.

Lemma In_set_child it c t l :
  In it (set_child c t l) -> it = Child c t \/ In it l.
Proof.
  induction l as [|[c0 t0|v0] l IH]; simpl.
  - intros [<-|[]]; auto.
  - case_char c0 c; simpl; intros [<-|H]; auto.
    destruct (IH H); auto.
  - intros [<-|H]; auto. destruct (IH H); auto.
Qed.

Lemma In_set_term it v l :
  In it (set_term v l) -> it = Term v \/ In it l.
Proof.
  induction l as [|[c0 t0|v0] l IH]; simpl.
  - intros [<-|[]]; auto.
  - intros [<-|H]; auto. destruct (IH H); auto.
  - intros [<-|H]; auto.
Qed.

Lemma In_pop_child it c l : In it (pop_child c l) -> In it l.
Proof.
  induction l as [|[c0 t0|v0] l IH]; simpl; auto.
  - case_char c0 c; simpl; intros; auto. destruct H; auto.
  - intros [<-|H]; auto.
Qed.

Lemma In_pop_term it l : In it (pop_term l) -> In it l.
Proof.
  induction l as [|[c0 t0|v0] l IH]; simpl; auto.
  intros [<-|H]; auto.
Qed.

Lemma In_child_keys_pop_child x c l :
  In x (child_keys (pop_child c l)) -> In x (child_keys l).
Proof.
  induction l as [|[c0 t0|v0] l IH]; simpl; auto.
  case_char c0 c; simpl; intros; auto. destruct H; auto.
Qed.

Lemma NoDup_pop_child c l :
  NoDup (child_keys l) -> NoDup (child_keys (pop_child c l)).
Proof.
  induction l as [|[c0 t0|v0] l IH]; simpl; auto.
  intros H; inversion H; subst.
  case_char c0 c; simpl; auto.
  constructor; auto. intros Hin; apply In_child_keys_pop_child in Hin; auto.
Qed.

Lemma term_count_pop_child c l : term_count (pop_child c l) = term_count l.
Proof.
  induction l as [|[c0 t0|v0] l IH]; simpl; auto.
  case_char c0 c; simpl; auto.
Qed.

Lemma child_keys_pop_term l : child_keys (pop_term l) = child_keys l.
Proof. induction l as [|[c0 t0|v0] l IH]; simpl; congruence. Qed.

Lemma term_count_pop_term l : term_count (pop_term l) = pred (term_count l).
Proof.
  induction l as [|[c0 t0|v0] l IH]; simpl; auto.
Qed.

Lemma get_child_pop_child_same c l :
  NoDup (child_keys l) -> get_child c (pop_child c l) = None.
Proof.
  induction l as [|[c0 t0|v0] l IH]; simpl; auto.
  intros H; inversion H; subst.
  case_char c0 c; simpl.
  - subst. now apply get_child_None.
  - apply char_eqb_neq in E; rewrite E; auto.
Qed.

Lemma get_child_pop_child_other c c' l :
  c' <> c -> get_child c' (pop_child c l) = get_child c' l.
Proof.
  intros N; induction l as [|[c0 t0|v0] l IH]; simpl; auto.
  case_char c0 c; simpl.
  - subst. case_char c c'; congruence.
  - now rewrite IH.
Qed.

Lemma get_term_pop_child c l : get_term (pop_child c l) = get_term l.
Proof.
  induction l as [|[c0 t0|v0] l IH]; simpl; auto.
  case_char c0 c; simpl; auto.
Qed.

Lemma get_child_pop_term c l : get_child c (pop_term l) = get_child c l.
Proof.
  induction l as [|[c0 t0|v0] l IH]; simpl; auto. now rewrite IH.
Qed.

Lemma get_term_pop_term l :
  (term_count l <= 1)%nat -> get_term (pop_term l) = None.
Proof.
  induction l as [|[c0 t0|v0] l IH]; simpl; auto.
  intros H. apply get_term_None. lia.
Qed.

Lemma sum_set_child_some c t t0 l :
  get_child c l = Some t0 ->
  (list_sum (map item_terms (set_child c t l)) + count_terms t0
   = list_sum (map item_terms l) + count_terms t)%nat.
Proof.
  induction l as [|[c0 t1|v0] l IH]; simpl; try discriminate.
  - case_char c0 c; simpl.
    + intros [= ->]. lia.
    + intros H; specialize (IH H). lia.
  - intros H; specialize (IH H). lia.
Qed.

Lemma sum_set_child_none c t l :
  get_child c l = None ->
  list_sum (map item_terms (set_child c t l))
  = (list_sum (map item_terms l) + count_terms t)%nat.
Proof.
  induction l as [|[c0 t1|v0] l IH]; simpl.
  - intros _; lia.
  - case_char c0 c; simpl; [discriminate|].
    intros H; rewrite (IH H). lia.
  - intros H; rewrite (IH H). lia.
Qed.

Lemma sum_set_term v l :
  list_sum (map item_terms (set_term v l))
  = (list_sum (map item_terms l) + if isSome (get_term l) then 0 else 1)%nat.
Proof.
  induction l as [|[c0 t1|v0] l IH]; simpl; try rewrite IH; lia.
Qed.

Lemma sum_pop_child c t0 l :
  get_child c l = Some t0 ->
  (list_sum (map item_terms (pop_child c l)) + count_terms t0
   = list_sum (map item_terms l))%nat.
Proof.
  induction l as [|[c0 t1|v0] l IH]; simpl; try discriminate.
  - case_char c0 c; simpl.
    + intros [= ->]. lia.
    + intros H; specialize (IH H). lia.
  - intros H; specialize (IH H). lia.
Qed.

Lemma sum_pop_term v l :
  get_term l = Some v ->
  S (list_sum (map item_terms (pop_term l))) = list_sum (map item_terms l).
Proof.
  induction l as [|[c0 t1|v0] l IH]; simpl; try discriminate.
  - intros H; specialize (IH H). lia.
  - intros _; lia.
Qed.

(** ** Lookup *)

Lemma lookup_node_at word d :
  lookup word d
  = match node_at word d with Some n => get_term (items n) | None => None end.
Proof.
  revert d; induction word as [|c rest IH]; intros d; simpl; auto.
  destruct (get_child c (items d)); auto.
Qed.

Lemma walk_spec word d :
  match node_at word d with
  | Some n => walk word d = (n, len word)
  | None => 0 <= snd (walk word d) < len word
  end.
Proof.
  revert d; induction word as [|c rest IH]; intros d; simpl; auto.
  destruct (get_child c (items d)) as [sub|] eqn:E.
  - specialize (IH sub). destruct (node_at rest sub).
    + rewrite IH. now rewrite len_cons.
    + destruct (walk rest sub) as [n k]; simpl in *. rewrite len_cons. lia.
  - simpl. rewrite len_cons. pose proof (len_nonneg rest). lia.
Qed.

Lemma getitem_lookup lower_at self word :
  __getitem__ lower_at self word
  = lookup (fold_case lower_at self word) (keyword_trie_dict self).
Proof.
  unfold __getitem__. rewrite lookup_node_at.
  pose proof (walk_spec (fold_case lower_at self word) (keyword_trie_dict self)) as H.
  destruct (node_at _ _) as [n|].
  - rewrite H, Z.eqb_refl, andb_true_r. unfold has_keyword.
    destruct (get_term (items n)); reflexivity.
  - destruct (walk _ _) as [n k]; simpl in H.
    replace (k =? _) with false by (symmetry; apply Z.eqb_neq; lia).
    now rewrite andb_false_r.
Qed.

Lemma contains_lookup lower_at self word :
  __contains__ lower_at self word
  = isSome (lookup (fold_case lower_at self word) (keyword_trie_dict self)).
Proof.
  unfold __contains__. rewrite lookup_node_at.
  pose proof (walk_spec (fold_case lower_at self word) (keyword_trie_dict self)) as H.
  destruct (node_at _ _) as [n|].
  - rewrite H, Z.eqb_refl, andb_true_r. reflexivity.
  - destruct (walk _ _) as [n k]; simpl in H.
    replace (k =? _) with false by (symmetry; apply Z.eqb_neq; lia).
    now rewrite andb_false_r.
Qed.

Lemma lookup_empty q : lookup q empty_dict = None.
Proof. destruct q; reflexivity. Qed.

(** ** Insertion *)

Lemma trie_insert_lookup_same k v d : lookup k (fst (trie_insert k v d)) = Some v.
Proof.
  revert d; induction k as [|c rest IH]; intros d; simpl.
  - apply get_term_set_term.
  - destruct (trie_insert rest v _) as [sub' st] eqn:E; simpl.
    rewrite get_child_set_child_same.
    specialize (IH (match get_child c (items d) with Some s => s | None => empty_dict end)).
    now rewrite E in IH.
Qed.

Lemma trie_insert_lookup_other k v d q :
  q <> k -> lookup q (fst (trie_insert k v d)) = lookup q d.
Proof.
  revert d q; induction k as [|c rest IH]; intros d q N; simpl.
  - destruct q as [|c' q']; [congruence|]. simpl.
    now rewrite get_child_set_term.
  - destruct (trie_insert rest v _) as [sub' st] eqn:E; simpl.
    destruct q as [|c' q']; simpl.
    + apply get_term_set_child.
    + case_char c c'.
      * subst c'. rewrite get_child_set_child_same.
        assert (N' : q' <> rest) by congruence.
        specialize (IH (match get_child c (items d) with Some s => s | None => empty_dict end) q' N').
        rewrite E in IH; simpl in IH. rewrite IH.
        destruct (get_child c (items d)); auto using lookup_empty.
      * rewrite get_child_set_child_other by congruence. reflexivity.
Qed.

Lemma trie_insert_status k v d :
  snd (trie_insert k v d) = negb (isSome (lookup k d)).
Proof.
  revert d; induction k as [|c rest IH]; intros d; simpl; auto.
  destruct (trie_insert rest v _) as [sub' st] eqn:E; simpl.
  specialize (IH (match get_child c (items d) with Some s => s | None => empty_dict end)).
  rewrite E in IH; simpl in IH. rewrite IH.
  destruct (get_child c (items d)); auto. now rewrite lookup_empty.
Qed.

Lemma trie_insert_count k v d :
  count_terms (fst (trie_insert k v d))
  = (count_terms d + if snd (trie_insert k v d) then 1 else 0)%nat.
Proof.
  revert d; induction k as [|c rest IH]; intros [l]; cbn [trie_insert items].
  - cbn [fst snd]. rewrite !count_terms_Dict, sum_set_term.
    unfold has_keyword; cbn [items].
    destruct (get_term l); reflexivity.
  - specialize (IH (match get_child c l with Some s => s | None => empty_dict end)).
    destruct (trie_insert rest v _) as [sub' st] eqn:E; cbn [fst snd] in *.
    rewrite !count_terms_Dict.
    destruct (get_child c l) as [s|] eqn:G.
    + pose proof (sum_set_child_some c sub' _ l G). lia.
    + rewrite (sum_set_child_none c sub' l G).
      change (count_terms empty_dict) with O in IH. lia.
Qed.

Lemma wf_empty : wf empty_dict.
Proof.
  constructor; simpl; auto; try constructor; intros; contradiction.
Qed.

Lemma wf_child c l t : wf (Dict l) -> get_child c l = Some t -> wf t.
Proof.
  intros H G; inversion H; subst. eauto using get_child_In.
Qed.

Lemma trie_insert_wf k v d :
  truthy v = true -> wf d -> wf (fst (trie_insert k v d)).
Proof.
  intros Tv; revert d; induction k as [|c rest IH]; intros [l] H; simpl items;
    inversion H as [l0 Hk Ht Hv Hc]; subst.
  - simpl. constructor.
    + now rewrite child_keys_set_term.
    + now apply term_count_set_term.
    + intros v0 Hin. apply In_set_term in Hin as [[= ->]|Hin]; auto.
    + intros c t Hin. apply In_set_term in Hin as [[=]|Hin]; eauto.
  - simpl. destruct (trie_insert rest v _) as [sub' st] eqn:E; simpl.
    assert (Hs : wf sub').
    { specialize (IH (match get_child c l with Some s => s | None => empty_dict end)).
      rewrite E in IH; apply IH.
      destruct (get_child c l) eqn:G; eauto using wf_child, wf_empty. }
    constructor.
    + now apply NoDup_set_child.
    + now rewrite term_count_set_child.
    + intros v0 Hin. apply In_set_child in Hin as [[=]|Hin]; auto.
    + intros c0 t Hin. apply In_set_child in Hin as [[= -> ->]|Hin]; eauto.
Qed.

Lemma trie_insert_root_term c rest v d :
  get_term (items (fst (trie_insert (c :: rest) v d))) = get_term (items d).
Proof.
  simpl. destruct (trie_insert rest v _) as [sub' st]; simpl.
  apply get_term_set_child.
Qed.

(** ** Removal *)

Lemma single_term l v : len l = 1 -> get_term l = Some v -> l = [Term v].
Proof.
  destruct l as [|[c t|v0] [|it l]]; unfold len; simpl; try discriminate; try lia.
  now intros _ [= ->].
Qed.

Lemma single_child l c t : len l = 1 -> get_child c l = Some t -> l = [Child c t].
Proof.
  destruct l as [|[c0 t0|v0] [|it l]]; unfold len; simpl; try discriminate; try lia.
  case_char c0 c; try discriminate. now intros _ [= ->]; subst.
Qed.

Lemma trie_remove_None k d : trie_remove k d = None <-> lookup k d = None.
Proof.
  revert d; induction k as [|c rest IH]; intros d; simpl.
  - unfold has_keyword. destruct (get_term (items d)); simpl; split; congruence.
  - destruct (get_child c (items d)) as [sub|]; [|tauto].
    rewrite <- IH. destruct (trie_remove rest sub) as [[sub' [|]]|];
      split; congruence.
Qed.

Lemma trie_remove_spec k : forall d d' flag,
  wf d -> trie_remove k d = Some (d', flag) ->
  wf d'
  /\ lookup k d' = None
  /\ (forall q, q <> k -> lookup q d' = lookup q d)
  /\ count_terms d = S (count_terms d')
  /\ (flag = true -> d' = Dict [] /\ forall q, q <> k -> lookup q d = None).
Proof.
  induction k as [|c rest IH]; intros [l] d' flag H R; cbn [trie_remove items] in R;
    inversion H as [l0 Hk Ht Hv Hc]; subst.
  - unfold has_keyword in R; cbn [items] in R.
    destruct (get_term l) as [v|] eqn:G; simpl in R; [|discriminate].
    injection R as <- <-.
    refine (conj _ (conj _ (conj _ (conj _ _)))); [| | | |intros H0; split].
    + constructor.
      * now rewrite child_keys_pop_term.
      * rewrite term_count_pop_term. lia.
      * intros v0 Hin; apply In_pop_term in Hin; auto.
      * intros c t Hin; apply In_pop_term in Hin; eauto.
    + simpl. now apply get_term_pop_term.
    + intros [|c q'] N; [congruence|]. simpl. now rewrite get_child_pop_term.
    + rewrite !count_terms_Dict. symmetry. eapply sum_pop_term; eauto.
    + apply Z.eqb_eq in H0. now rewrite (single_term l v H0 G).
    + apply Z.eqb_eq in H0. rewrite (single_term l v H0 G).
      intros [|c q'] N; [congruence|reflexivity].
  - destruct (get_child c l) as [sub|] eqn:G; [|discriminate].
    destruct (trie_remove rest sub) as [[sub' f]|] eqn:E; [|discriminate].
    destruct (IH sub sub' f (wf_child c l sub H G) E) as (W & L1 & L2 & C & F).
    destruct f; injection R as <- <-.
    + destruct (F eq_refl) as [-> F2].
      refine (conj _ (conj _ (conj _ (conj _ _)))); [| | | |intros H0; split].
      * constructor.
        -- now apply NoDup_pop_child.
        -- now rewrite term_count_pop_child.
        -- intros v0 Hin; apply In_pop_child in Hin; auto.
        -- intros c0 t Hin; apply In_pop_child in Hin; eauto.
      * simpl. now rewrite get_child_pop_child_same.
      * intros [|c' q'] N; simpl.
        -- apply get_term_pop_child.
        -- case_char c c'.
           ++ subst c'. rewrite get_child_pop_child_same, G by assumption.
              symmetry; apply F2; congruence.
           ++ rewrite get_child_pop_child_other by congruence. reflexivity.
      * rewrite !count_terms_Dict. pose proof (sum_pop_child c _ l G).
        change (count_terms (Dict [])) with O in C. lia.
      * apply Z.eqb_eq in H0. rewrite (single_child l c sub H0 G); simpl; now rewrite char_eqb_refl.
      * apply Z.eqb_eq in H0. rewrite (single_child l c sub H0 G).
        intros [|c' q'] N; simpl; auto.
        case_char c c'; auto. subst c'. apply F2; congruence.
    + refine (conj _ (conj _ (conj _ (conj _ _)))); [| | | |discriminate].
      * constructor.
        -- now apply NoDup_set_child.
        -- now rewrite term_count_set_child.
        -- intros v0 Hin. apply In_set_child in Hin as [[=]|Hin]; auto.
        -- intros c0 t Hin. apply In_set_child in Hin as [[= -> ->]|Hin]; eauto.
      * simpl. now rewrite get_child_set_child_same.
      * intros [|c' q'] N; simpl.
        -- apply get_term_set_child.
        -- case_char c c'.
           ++ subst c'. rewrite get_child_set_child_same, G.
              apply L2; congruence.
           ++ rewrite get_child_set_child_other by congruence. reflexivity.
      * rewrite !count_terms_Dict. pose proof (sum_set_child_some c sub' _ l G). lia.
Qed.

Lemma trie_remove_root_term c rest d d' flag :
  trie_remove (c :: rest) d = Some (d', flag) ->
  get_term (items d') = get_term (items d).
Proof.
  simpl. destruct (get_child c (items d)) as [sub|]; [|discriminate].
  destruct (trie_remove rest sub) as [[sub' [|]]|]; intros [= <- <-]; simpl.
  - apply get_term_pop_child.
  - apply get_term_set_child.
Qed.

(** ** The processor under [add_keyword] and [remove_keyword] *)

Section ProcessorFacts.
Variable lower_at : str -> nat -> char.

Lemma lower_truthy s : truthy s = true -> truthy (lower lower_at s) = true.
Proof.
  destruct s as [|c s]; [discriminate|]. intros _.
  unfold lower; simpl. unfold lower_piece.
  destruct (char_eqb c _); reflexivity.
Qed.

Lemma fold_case_truthy self s : truthy s = true -> truthy (fold_case lower_at self s) = true.
Proof.
  unfold fold_case. destruct (case_sensitive self); auto using lower_truthy.
Qed.

Lemma fold_case_with_trie self d n s :
  fold_case lower_at (with_trie self d n) s = fold_case lower_at self s.
Proof. reflexivity. Qed.

(** What a call of [add_keyword] that passes the guard does. *)
Lemma add_keyword_some self keyword cn :
  truthy keyword = true -> truthy cn = true ->
  add_keyword lower_at self keyword (Some cn)
  = (with_trie self
       (fst (trie_insert (fold_case lower_at self keyword) cn (keyword_trie_dict self)))
       (_terms_in_trie self
        + if snd (trie_insert (fold_case lower_at self keyword) cn (keyword_trie_dict self))
          then 1 else 0),
     snd (trie_insert (fold_case lower_at self keyword) cn (keyword_trie_dict self))).
Proof.
  intros Hk Hc. unfold add_keyword, __setitem__.
  rewrite Hk, Hc; simpl.
  destruct (trie_insert _ _ _) as [d [|]]; simpl; f_equal; f_equal; lia.
Qed.

Lemma add_keyword_none self keyword :
  add_keyword lower_at self keyword None
  = if truthy keyword then add_keyword lower_at self keyword (Some keyword) else (self, false).
Proof.
  unfold add_keyword, __setitem__. destruct keyword; reflexivity.
Qed.

Lemma add_keyword_noop self keyword cn :
  truthy keyword && truthy cn = false ->
  add_keyword lower_at self keyword (Some cn) = (self, false).
Proof.
  intros H. unfold add_keyword, __setitem__. now rewrite H.
Qed.

Lemma add_keyword_invariant self keyword clean_name :
  invariant self -> invariant (fst (add_keyword lower_at self keyword clean_name)).
Proof.
  intros (W & R & C).
  assert (Hsome : forall cn, invariant (fst (add_keyword lower_at self keyword (Some cn)))).
  { intros cn. destruct (truthy keyword && truthy cn) eqn:T.
    - apply andb_true_iff in T as [Tk Tc].
      rewrite add_keyword_some by assumption. simpl.
      pose proof (fold_case_truthy self keyword Tk) as Tf.
      destruct (fold_case lower_at self keyword) as [|c rest] eqn:F; [discriminate|].
      repeat split; cbn [keyword_trie_dict with_trie _terms_in_trie].
      + now apply trie_insert_wf.
      + now rewrite trie_insert_root_term.
      + rewrite trie_insert_count, C.
        destruct (snd (trie_insert _ _ _)); lia.
    - rewrite add_keyword_noop by assumption. repeat split; assumption. }
  destruct clean_name as [cn|]; auto.
  rewrite add_keyword_none. destruct (truthy keyword); auto.
  repeat split; assumption.
Qed.

Lemma remove_keyword_invariant self keyword :
  invariant self -> invariant (fst (remove_keyword lower_at self keyword)).
Proof.
  intros (W & R & C). unfold remove_keyword, __delitem__.
  destruct (truthy keyword) eqn:Tk; [|repeat split; assumption].
  pose proof (fold_case_truthy self keyword Tk) as Tf.
  destruct (fold_case lower_at self keyword) as [|c rest] eqn:F; [discriminate|].
  destruct (trie_remove _ _) as [[d flag]|] eqn:E; [|repeat split; assumption].
  destruct (trie_remove_spec _ _ _ _ W E) as (W' & _ & _ & Cn & _).
  repeat split; cbn [fst keyword_trie_dict with_trie _terms_in_trie].
  - assumption.
  - now rewrite (trie_remove_root_term _ _ _ _ _ E).
  - lia.
Qed.

Lemma init_invariant cs : invariant (init cs).
Proof. split; [apply wf_empty | split; reflexivity]. Qed.

Lemma set_non_word_boundaries_invariant self nwb :
  invariant self -> invariant (set_non_word_boundaries self nwb).
Proof. intros I; exact I. Qed.

Lemma reachable_invariant self : reachable lower_at self -> invariant self.
Proof.
  induction 1; auto using init_invariant, add_keyword_invariant,
    remove_keyword_invariant.
Qed.

(** The lookups after a call of [add_keyword] that passes the guard. *)
Lemma add_keyword_get_same self keyword cn :
  truthy keyword = true -> truthy cn = true ->
  get_keyword lower_at (fst (add_keyword lower_at self keyword (Some cn))) keyword = Some cn.
Proof.
  intros Tk Tc. unfold get_keyword. rewrite getitem_lookup.
  rewrite add_keyword_some by assumption. simpl fst.
  rewrite fold_case_with_trie. apply trie_insert_lookup_same.
Qed.

Lemma add_keyword_status self keyword cn :
  truthy keyword = true -> truthy cn = true ->
  snd (add_keyword lower_at self keyword (Some cn)) = negb (__contains__ lower_at self keyword).
Proof.
  intros Tk Tc. rewrite add_keyword_some by assumption. simpl snd.
  rewrite trie_insert_status. now rewrite contains_lookup.
Qed.
End ProcessorFacts.

(** ** Guards of [add_keyword] *)

(** C5 (as amended): [add_keyword] with an empty pattern, whatever the value,
    or with an empty (falsy) value, registers nothing, leaves the processor
    as it was and returns [False]. *)
Theorem add_keyword_guard_noop :
  forall lower_at self keyword clean_name,
    add_keyword lower_at self [] clean_name = (self, false)
    /\ add_keyword lower_at self keyword (Some []) = (self, false).
Proof.
  intros. split.
  - destruct clean_name; reflexivity.
  - apply add_keyword_noop. apply andb_false_r.
Qed.

(** C5 as stated fails: with the value omitted ([None]) and a pattern that is
    not empty, the call is not a no-op; it registers the pattern and returns
    [True]. *)
Lemma add_keyword_none_not_noop :
  let self := init false in
  let r := add_keyword ascii_lower_at self (of_string "NY") None in
  snd r = true
  /\ get_keyword ascii_lower_at (fst r) (of_string "NY") = Some (of_string "NY")
  /\ __len__ (fst r) = __len__ self + 1
  /\ fst r <> self.
Proof. vm_compute. repeat split; discriminate. Qed.

(** C10 (as amended): for a pattern [p] that is not empty, [add_keyword(p)]
    with the value omitted registers [p] with [p] itself, not case folded, as
    its clean name: [get_keyword(p)] then returns [p]; and the call returns
    [True] exactly when [p] was not registered before. *)
Theorem add_keyword_default_clean_name :
  forall lower_at self c rest,
    let p := c :: rest in
    get_keyword lower_at (fst (add_keyword lower_at self p None)) p = Some p
    /\ snd (add_keyword lower_at self p None) = negb (__contains__ lower_at self p).
Proof.
  intros. subst p. rewrite add_keyword_none. cbn [truthy]. split.
  - now apply add_keyword_get_same.
  - now apply add_keyword_status.
Qed.

(** C10 as stated fails: in a case-insensitive processor the clean name of
    ["NY"] registered without a value is ["NY"], not its case-folded form. *)
Lemma add_keyword_default_not_folded :
  let self := init false in
  let p := of_string "NY" in
  get_keyword ascii_lower_at (fst (add_keyword ascii_lower_at self p None)) p
  <> Some (fold_case ascii_lower_at self p).
Proof. vm_compute. discriminate. Qed.

(** ** Bulk loading *)

Lemma add_keywords_from_dict_app lower_at entries rest : forall self,
  add_keywords_from_dict lower_at self (list_entries entries ++ rest)
  = add_keywords_from_dict lower_at (add_entries lower_at self entries) rest.
Proof.
  induction entries as [|[cn ks] entries IH]; intros self; simpl; auto.
Qed.

(** C6 (as amended): [add_keywords_from_dict] stops at the first entry, in
    iteration order, whose value is not a list and raises [AttributeError]
    there; the keywords of the entries before it stay registered, those of
    the entries after it are not looked at.  When every value is a list the
    call returns normally after registering all of them. *)
Theorem add_keywords_from_dict_stops_at_first_non_list :
  forall lower_at self before clean_name after,
    add_keywords_from_dict lower_at self
      (list_entries before ++ (clean_name, VOther) :: after)
    = (add_entries lower_at self before, Raise AttributeError)
    /\ add_keywords_from_dict lower_at self (list_entries before)
       = (add_entries lower_at self before, Ok tt).
Proof.
  intros. split.
  - now rewrite add_keywords_from_dict_app.
  - rewrite <- (app_nil_r (list_entries before)).
    now rewrite add_keywords_from_dict_app.
Qed.

(** C6 as stated fails: the call below raises, and the keyword of the entry
    that came before the malformed one is registered all the same. *)
Lemma add_keywords_from_dict_partial :
  let keyword_dict :=
    [(of_string "java", VList [of_string "j2ee"]); (of_string "python", VOther)] in
  let r := add_keywords_from_dict ascii_lower_at (init false) keyword_dict in
  snd r = Raise AttributeError
  /\ get_keyword ascii_lower_at (fst r) (of_string "j2ee") = Some (of_string "java")
  /\ fst r <> init false.
Proof. vm_compute. repeat split; discriminate. Qed.


(** ** Enumeration *)

Lemma enumerate_Dict p l : enumerate p (Dict l) = flat_map (enum_item p) l.
Proof.
  induction l as [|[c t|v] l IH]; simpl in *; try rewrite IH; reflexivity.
Qed.

Lemma enumerate_length d : forall p, length (enumerate p d) = count_terms d.
Proof.
  induction d as [l IH] using trie_ind. intros p.
  rewrite enumerate_Dict, count_terms_Dict.
  induction l as [|[c t|v] l IHl]; simpl; auto.
  - rewrite length_app, (IH c t) by now left.
    rewrite IHl; auto. intros; eapply IH; right; eauto.
  - rewrite IHl; auto. intros; eapply IH; right; eauto.
Qed.

Lemma In_term_get_term l v :
  (term_count l <= 1)%nat -> In (Term v) l -> get_term l = Some v.
Proof.
  induction l as [|[c t|v0] l IH]; simpl; try tauto.
  - intros H [E|Hin]; [discriminate|auto].
  - intros H [[= ->]|Hin]; auto.
    assert (Z : term_count l = O) by lia. apply get_term_None in Z.
    apply In_split in Hin as (l1 & l2 & ->). exfalso.
    clear -Z. induction l1 as [|[c t|v1] l1 IH]; simpl in Z; try discriminate; auto.
Qed.

Lemma In_child_get_child l c t :
  NoDup (child_keys l) -> In (Child c t) l -> get_child c l = Some t.
Proof.
  induction l as [|[c0 t0|v0] l IH]; simpl; try tauto.
  - intros H [[= -> ->]|Hin].
    + now rewrite char_eqb_refl.
    + inversion H; subst. case_char c0 c; auto. subst c0. exfalso.
      apply H2. clear -Hin. induction l as [|[c1 t1|v1] l IH]; simpl in *; try tauto.
      * destruct Hin as [[= -> ->]|Hin]; auto.
      * destruct Hin as [[=]|Hin]; auto.
  - intros H [[=]|Hin]; auto.
Qed.

Lemma wf_In c t l : wf (Dict l) -> In (Child c t) l -> wf t.
Proof. intros H Hin; inversion H; subst; eauto. Qed.

Lemma wf_tail it l : wf (Dict (it :: l)) -> wf (Dict l).
Proof.
  intros H; inversion H as [l0 Hk Ht Hv Hc]; subst.
  constructor.
  - destruct it; simpl in Hk; auto. now inversion Hk.
  - destruct it; simpl in Ht; lia.
  - intros v Hin; apply Hv; now right.
  - intros c t Hin; eapply Hc; right; eauto.
Qed.

Lemma enumerate_In d : forall p k v,
  wf d ->
  (In (k, v) (enumerate p d) <-> exists q, k = p ++ q /\ lookup q d = Some v).
Proof.
  induction d as [l IH] using trie_ind. intros p k v W.
  inversion W as [l0 Hk Ht Hv Hc]; subst.
  rewrite enumerate_Dict, in_flat_map. split.
  - intros ([c t|v0] & Hin & Hit); simpl in Hit.
    + apply (IH c t Hin) in Hit as (q & -> & L); eauto.
      exists (c :: q). split; [now rewrite <- app_assoc|].
      simpl. now rewrite (In_child_get_child l c t Hk Hin).
    + destruct Hit as [[= <- <-]|[]]. exists []. split; [now rewrite app_nil_r|].
      simpl. now apply In_term_get_term.
  - intros ([|c q] & -> & L); simpl in L.
    + exists (Term v). split; [now apply get_term_In|]. simpl. rewrite app_nil_r; auto.
    + destruct (get_child c l) as [t|] eqn:G; [|discriminate].
      apply get_child_In in G. exists (Child c t). split; auto. simpl.
      apply (IH c t G); eauto. exists q. split; auto. now rewrite <- app_assoc.
Qed.

Lemma enumerate_NoDup d : forall p, wf d -> NoDup (map fst (enumerate p d)).
Proof.
  induction d as [l IH] using trie_ind. intros p W.
  rewrite enumerate_Dict.
  induction l as [|it l IHl]; simpl; [constructor|].
  pose proof (wf_tail _ _ W) as Wl.
  inversion W as [l0 Hk Ht Hv Hc]; subst.
  rewrite map_app. apply NoDup_app.
  - destruct it as [c t|v]; simpl.
    + apply (IH c t); [now left | eapply Hc; now left].
    + constructor; [intros []|constructor].
  - apply IHl; auto. intros c t Hin; eapply IH; right; eauto.
  - intros k H1 H2.
    apply in_map_iff in H1 as ([k1 v1] & E1 & H1); simpl in E1; subst k1.
    apply in_map_iff in H2 as ([k2 v2] & E2 & H2); simpl in E2; subst k2.
    rewrite <- enumerate_Dict in H2.
    apply (enumerate_In _ p k v2 Wl) in H2 as (q2 & -> & L2).
    destruct it as [c t|v]; simpl in H1.
    + apply enumerate_In in H1 as (q1 & E & L1); [|eapply Hc; now left].
      rewrite <- app_assoc in E. apply app_inv_head in E. subst q2.
      simpl in L2, Hk. apply NoDup_cons_iff in Hk as [Hnotin _].
      destruct (get_child c l) eqn:G; [|discriminate].
      apply get_child_In in G. apply Hnotin.
      clear -G. induction l as [|[c1 t1|v1] l IH]; simpl in *; try tauto.
      * destruct G as [[= -> ->]|G]; auto.
      * destruct G as [[=]|G]; auto.
    + destruct H1 as [[= E _]|[]].
      rewrite <- (app_nil_r p) in E at 1. apply app_inv_head in E. subst q2.
      simpl in L2, Ht. apply get_term_In in L2.
      assert (Z : term_count l = O) by lia. apply get_term_None in Z.
      rewrite (In_term_get_term l v2) in Z; [discriminate| lia | auto].
Qed.

Lemma dict_set_fresh k v d : ~ In k (map fst d) -> dict_set k v d = d ++ [(k, v)].
Proof.
  induction d as [|[k' v'] d IH]; simpl; auto.
  intros N. destruct (str_eqb k' k) eqn:E.
  - apply str_eqb_eq in E. tauto.
  - rewrite IH; tauto.
Qed.

Lemma dict_update_fresh sub : forall d,
  NoDup (map fst (d ++ sub)) -> dict_update d sub = d ++ sub.
Proof.
  unfold dict_update.
  induction sub as [|[k v] sub IH]; intros d N; simpl.
  - now rewrite app_nil_r.
  - assert (E : d ++ (k, v) :: sub = (d ++ [(k, v)]) ++ sub)
      by now rewrite <- app_assoc.
    rewrite E in N |- *.
    rewrite dict_set_fresh; [now apply IH|].
    rewrite !map_app in N. apply NoDup_app_remove_r in N.
    simpl in N. apply NoDup_remove_2 in N. now rewrite app_nil_r in N.
Qed.

Lemma get_all_keywords_rec_Dict p l :
  get_all_keywords_rec p (Dict l) = get_all_keywords_loop p l [].
Proof.
  unfold get_all_keywords_loop. simpl. generalize (@nil (str * str)) as acc.
  induction l as [|[c t|v] l IH]; intros acc; simpl; auto.
Qed.

Lemma get_all_keywords_rec_enumerate d : forall p,
  wf d -> get_all_keywords_rec p d = enumerate p d.
Proof.
  induction d as [l IH] using trie_ind. intros p W.
  rewrite get_all_keywords_rec_Dict.
  pose proof (enumerate_NoDup _ p W) as N. rewrite enumerate_Dict in N |- *.
  change (flat_map (enum_item p) l) with ([] ++ flat_map (enum_item p) l) in N |- *.
  revert N. generalize (@nil (str * str)) as acc.
  induction l as [|it l IHl]; intros acc N; simpl.
  - now rewrite app_nil_r.
  - pose proof (wf_tail _ _ W) as Wl.
    assert (IH' : forall c t, In (Child c t) l ->
                  forall p, wf t -> get_all_keywords_rec p t = enumerate p t)
      by (intros c t Hin; eapply IH; right; eauto).
    simpl in N. rewrite app_assoc in N |- *.
    unfold get_all_keywords_loop in *. simpl.
    destruct it as [c t|v]; simpl in *.
    + rewrite (IH c t (or_introl eq_refl) _ (wf_In c t _ W (or_introl eq_refl))).
      rewrite dict_update_fresh.
      * now apply IHl.
      * rewrite map_app in N. now apply NoDup_app_remove_r in N.
    + rewrite dict_set_fresh.
      * now apply IHl.
      * rewrite !map_app in N. apply NoDup_app_remove_r in N.
        simpl in N. apply NoDup_remove_2 in N. now rewrite app_nil_r in N.
Qed.

(** [get_all_keywords] lists every registered pattern once, with its clean
    name, and nothing else. *)
Lemma get_all_keywords_spec self :
  wf (keyword_trie_dict self) ->
  NoDup (map fst (get_all_keywords self))
  /\ (forall s v, In (s, v) (get_all_keywords self)
                  <-> lookup s (keyword_trie_dict self) = Some v)
  /\ len (get_all_keywords self) = Z.of_nat (count_terms (keyword_trie_dict self)).
Proof.
  intros W. unfold get_all_keywords.
  rewrite get_all_keywords_rec_enumerate by assumption. split; [|split].
  - now apply enumerate_NoDup.
  - intros s v. rewrite enumerate_In by assumption. simpl. split.
    + now intros (q & -> & L).
    + intros L; eauto.
  - unfold len. now rewrite enumerate_length.
Qed.


(** ** The count of terms *)

Section Count.
Variable lower_at : str -> nat -> char.

Lemma add_keyword_cases self keyword clean_name :
  add_keyword lower_at self keyword clean_name = (self, false)
  \/ exists k cn,
       add_keyword lower_at self keyword clean_name
       = (with_trie self (fst (trie_insert k cn (keyword_trie_dict self)))
            (_terms_in_trie self
             + if snd (trie_insert k cn (keyword_trie_dict self)) then 1 else 0),
          snd (trie_insert k cn (keyword_trie_dict self))).
Proof.
  assert (S : forall cn,
    add_keyword lower_at self keyword (Some cn) = (self, false)
    \/ exists k cn',
         add_keyword lower_at self keyword (Some cn)
         = (with_trie self (fst (trie_insert k cn' (keyword_trie_dict self)))
              (_terms_in_trie self
               + if snd (trie_insert k cn' (keyword_trie_dict self)) then 1 else 0),
            snd (trie_insert k cn' (keyword_trie_dict self)))).
  { intros cn. destruct (truthy keyword && truthy cn) eqn:T.
    - apply andb_true_iff in T as [Tk Tc]. right.
      rewrite add_keyword_some by assumption. eauto.
    - left. now apply add_keyword_noop. }
  destruct clean_name as [cn|]; auto.
  rewrite add_keyword_none. destruct (truthy keyword); auto.
Qed.

Lemma add_keyword_case_sensitive self keyword clean_name :
  case_sensitive (fst (add_keyword lower_at self keyword clean_name))
  = case_sensitive self.
Proof.
  destruct (add_keyword_cases self keyword clean_name) as [->|(k & cn & ->)];
    reflexivity.
Qed.

Lemma remove_keyword_case_sensitive self keyword :
  case_sensitive (fst (remove_keyword lower_at self keyword)) = case_sensitive self.
Proof.
  unfold remove_keyword, __delitem__.
  destruct (truthy keyword); [|reflexivity].
  destruct (trie_remove _ _) as [[d f]|]; reflexivity.
Qed.

Lemma fold_case_ext self self' w :
  case_sensitive self' = case_sensitive self ->
  fold_case lower_at self' w = fold_case lower_at self w.
Proof. unfold fold_case. now intros ->. Qed.

Lemma add_keyword_get_other self keyword cn q :
  truthy keyword = true -> truthy cn = true ->
  fold_case lower_at self q <> fold_case lower_at self keyword ->
  get_keyword lower_at (fst (add_keyword lower_at self keyword (Some cn))) q
  = get_keyword lower_at self q.
Proof.
  intros Tk Tc N. unfold get_keyword. rewrite !getitem_lookup.
  rewrite add_keyword_some by assumption. simpl fst.
  rewrite fold_case_with_trie. now apply trie_insert_lookup_other.
Qed.

Lemma contains_get self w :
  __contains__ lower_at self w = isSome (get_keyword lower_at self w).
Proof. unfold get_keyword. now rewrite contains_lookup, getitem_lookup. Qed.

Lemma add_keyword_len self keyword clean_name :
  __len__ (fst (add_keyword lower_at self keyword clean_name))
  = __len__ self + if snd (add_keyword lower_at self keyword clean_name) then 1 else 0.
Proof.
  destruct (add_keyword_cases self keyword clean_name) as [->|(k & cn & ->)];
    unfold __len__; simpl; lia.
Qed.

Lemma add_keyword_snd_contains self keyword clean_name :
  __contains__ lower_at self keyword = true ->
  snd (add_keyword lower_at self keyword clean_name) = false.
Proof.
  intros C.
  assert (S : forall cn, snd (add_keyword lower_at self keyword (Some cn)) = false).
  { intros cn. destruct (truthy keyword && truthy cn) eqn:T.
    - apply andb_true_iff in T as [Tk Tc].
      now rewrite add_keyword_status, C by assumption.
    - now rewrite add_keyword_noop. }
  destruct clean_name; auto. rewrite add_keyword_none.
  destruct (truthy keyword); auto.
Qed.

Lemma remove_keyword_len self keyword :
  __len__ (fst (remove_keyword lower_at self keyword))
  = __len__ self - if snd (remove_keyword lower_at self keyword) then 1 else 0.
Proof.
  unfold __len__, remove_keyword, __delitem__.
  destruct (truthy keyword); [|simpl; lia].
  destruct (trie_remove _ _) as [[d f]|]; simpl; lia.
Qed.

Lemma add_pairs_len pairs : forall self,
  (forall kv, In kv pairs ->
     truthy (fst kv) = true /\ truthy (snd kv) = true
     /\ __contains__ lower_at self (fst kv) = false) ->
  NoDup (map (fun kv => fold_case lower_at self (fst kv)) pairs) ->
  __len__ (add_pairs lower_at self pairs) = __len__ self + len pairs.
Proof.
  induction pairs as [|[k v] pairs IH]; intros self H N.
  - unfold len; simpl; lia.
  - destruct (H (k, v) (or_introl eq_refl)) as (Tk & Tv & C). simpl in Tk, Tv, C.
    inversion N as [|x xs Nin N']; subst.
    unfold add_pairs in *. cbn [fold_left fst snd].
    set (self' := fst (add_keyword lower_at self k (Some v))).
    assert (F : forall w, fold_case lower_at self' w = fold_case lower_at self w)
      by (intros w; apply fold_case_ext, add_keyword_case_sensitive).
    rewrite IH.
    + unfold self'. rewrite add_keyword_len, add_keyword_status, C by assumption.
      rewrite len_cons. simpl. lia.
    + intros kv Hin. destruct (H kv (or_intror Hin)) as (Tk' & Tv' & C').
      repeat split; auto. unfold self'.
      rewrite contains_get, add_keyword_get_other, <- contains_get; auto.
      intros E. apply Nin. apply in_map_iff. exists kv. split; auto.
    + erewrite map_ext; [exact N'|]. intros kv; apply F.
Qed.

(** C3: for a processor built by [add_keyword] and [remove_keyword] calls,
    [len()] is the number of distinct registered (case-folded) patterns, the
    patterns that [get_all_keywords] lists once each and that lookup finds;
    registering an existing pattern again leaves it unchanged, a call that
    registers a new pattern adds one, [N] new distinct patterns add [N], and
    every successful removal takes one off. *)
Theorem terms_in_trie_counts_registered_patterns :
  forall self, reachable lower_at self ->
    (NoDup (map fst (get_all_keywords self))
     /\ (forall s v, In (s, v) (get_all_keywords self)
                     <-> lookup s (keyword_trie_dict self) = Some v)
     /\ __len__ self = len (get_all_keywords self))
    /\ (forall keyword clean_name,
          __contains__ lower_at self keyword = true ->
          __len__ (fst (add_keyword lower_at self keyword clean_name)) = __len__ self)
    /\ (forall keyword clean_name,
          snd (add_keyword lower_at self keyword clean_name) = true ->
          __len__ (fst (add_keyword lower_at self keyword clean_name))
          = __len__ self + 1)
    /\ (forall pairs,
          (forall kv, In kv pairs ->
             truthy (fst kv) = true /\ truthy (snd kv) = true
             /\ __contains__ lower_at self (fst kv) = false) ->
          NoDup (map (fun kv => fold_case lower_at self (fst kv)) pairs) ->
          __len__ (add_pairs lower_at self pairs) = __len__ self + len pairs)
    /\ (forall keyword,
          snd (remove_keyword lower_at self keyword) = true ->
          __len__ (fst (remove_keyword lower_at self keyword)) = __len__ self - 1).
Proof.
  intros self R. destruct (reachable_invariant lower_at self R) as (W & _ & C).
  destruct (get_all_keywords_spec self W) as (N & I & L).
  split; [|split; [|split; [|split]]].
  - repeat split; auto; try apply I. unfold __len__. congruence.
  - intros keyword clean_name Hc.
    rewrite add_keyword_len, add_keyword_snd_contains by assumption. lia.
  - intros keyword clean_name Hs. rewrite add_keyword_len, Hs. lia.
  - intros pairs. apply add_pairs_len.
  - intros keyword Hs. rewrite remove_keyword_len, Hs. lia.
Qed.
End Count.

(** The count on the processor of the class docstring: three keywords, then
    one of them again, then one removed. *)
Lemma terms_in_trie_counts_registered_patterns_witness :
  let self :=
    add_pairs ascii_lower_at (init false)
      [(of_string "NY", of_string "new york");
       (of_string "new-york", of_string "new york");
       (of_string "SF", of_string "san francisco")] in
  __len__ self = len (get_all_keywords self)
  /\ __len__ (fst (add_keyword ascii_lower_at self (of_string "ny") None)) = __len__ self
  /\ __len__ (fst (remove_keyword ascii_lower_at self (of_string "sf"))) = __len__ self - 1.
Proof.
  intros self.
  assert (R : reachable ascii_lower_at self) by (repeat apply reach_add; apply reach_init).
  destruct (terms_in_trie_counts_registered_patterns ascii_lower_at self R)
    as ((_ & _ & L) & A & _ & _ & D).
  split; [exact L|split].
  - apply A. reflexivity.
  - apply D. reflexivity.
Defined.

(** ** Indexing, words and heights *)

Lemma py_index_ok {A} (l : list A) (i : Z) :
  0 <= i < len l ->
  exists a, py_index l i = Ok a /\ nth_error l (Z.to_nat i) = Some a.
Proof.
  intros H. unfold py_index.
  replace (i <? 0) with false by (symmetry; apply Z.ltb_ge; lia).
  replace ((0 <=? i) && (i <? len l)) with true
    by (symmetry; apply andb_true_iff; split; [apply Z.leb_le|apply Z.ltb_lt]; lia).
  destruct (nth_error l (Z.to_nat i)) as [a|] eqn:E; eauto.
  apply nth_error_None in E. unfold len in H. lia.
Qed.

Lemma py_index_last_ok {A} (l : list A) (i : Z) :
  -1 <= i < len l -> 0 < len l -> exists a, py_index l i = Ok a.
Proof.
  intros H Hl. destruct (Z.eq_dec i (-1)) as [->|N].
  - unfold py_index. change (-1 <? 0) with true. cbv iota.
    destruct ((0 <=? -1 + len l) && (-1 + len l <? len l)) eqn:C.
    + destruct (nth_error l (Z.to_nat (-1 + len l))) as [a|] eqn:E; eauto.
      apply nth_error_None in E. unfold len in *. lia.
    + apply andb_false_iff in C as [C|C];
        [apply Z.leb_gt in C|apply Z.ltb_ge in C]; lia.
  - destruct (py_index_ok l i) as (a & E & _); [lia|eauto].
Qed.

Lemma get_next_word_len self s : len (get_next_word self s) <= len s.
Proof.
  induction s as [|c s IH]; simpl; [lia|].
  destruct (negb _); rewrite ?len_cons; unfold len in *; simpl; lia.
Qed.

Lemma get_next_word_head self c s :
  mem c (non_word_boundaries self) = true ->
  1 <= len (get_next_word self (c :: s)).
Proof.
  intros H. simpl. rewrite H. simpl. rewrite len_cons.
  pose proof (len_nonneg (get_next_word self s)). lia.
Qed.

Lemma len_slice_from {A} (l : list A) (i : Z) :
  0 <= i <= len l -> len (slice_from l i) = len l - i.
Proof.
  intros H. unfold slice_from, len in *. rewrite length_skipn. lia.
Qed.

Lemma slice_from_cons {A} (l : list A) (i : Z) (a : A) :
  0 <= i -> nth_error l (Z.to_nat i) = Some a ->
  slice_from l i = a :: slice_from l (i + 1).
Proof.
  intros Hi E. unfold slice_from.
  replace (Z.to_nat (i + 1)) with (S (Z.to_nat i)) by lia.
  generalize dependent (Z.to_nat i). clear Hi. intros n; revert l.
  induction n as [|n IH]; intros [|x l] E; simpl in *; try discriminate.
  - now injection E as ->.
  - now apply IH.
Qed.

Lemma skip_word_bounds self rest : forall i,
  i <= skip_word self rest i <= i + len rest.
Proof.
  induction rest as [|c rest IH]; intros i; simpl.
  - unfold len; simpl; lia.
  - rewrite len_cons. pose proof (len_nonneg rest).
    destruct (is_boundary self c); [lia|]. specialize (IH (i + 1)). lia.
Qed.

Lemma height_Dict l :
  height (Dict l)
  = fold_right (fun it acc => match it with
                              | Child _ t => Nat.max (S (height t)) acc
                              | Term _ => acc
                              end) O l.
Proof. induction l as [|[c t|v] l IH]; simpl in *; auto. Qed.

Lemma height_In c t l : In (Child c t) l -> (S (height t) <= height (Dict l))%nat.
Proof.
  rewrite height_Dict.
  induction l as [|[c0 t0|v0] l IH]; cbn [fold_right In]; try tauto.
  - intros [[= -> ->]|Hin]; [lia|]. specialize (IH Hin). lia.
  - intros [[=]|Hin]; auto.
Qed.

Lemma height_child c d t :
  get_child c (items d) = Some t -> (S (height t) <= height d)%nat.
Proof.
  destruct d as [l]; simpl. intros G. apply get_child_In in G.
  eapply height_In; eauto.
Qed.

Lemma levenshtein_rec_height self node : forall char word rows max_cost depth n c d,
  In (n, c, d) (_levenshtein_rec self char node word rows max_cost depth) ->
  (height n <= height node)%nat.
Proof.
  induction node as [l IH] using trie_ind.
  intros char word rows max_cost depth n c d. cbn [_levenshtein_rec].
  destruct (_ && _).
  - intros [[= <- _ _]|[]]. lia.
  - destruct (_ <=? _); [|intros []].
    assert (G : forall l', (forall c t, In (Child c t) l' -> In (Child c t) l) ->
      forall rows' depth',
      In (n, c, d)
        ((fix children (l : list (item trie)) : list (trie * Z * Z) :=
            match l with
            | [] => []
            | Child new_char new_node :: l' =>
                _levenshtein_rec self new_char new_node word rows' max_cost depth'
                  ++ children l'
            | Term _ :: l' => children l'
            end) l') ->
      (height n <= height (Dict l))%nat).
    { induction l' as [|[c0 t0|v0] l' IHl]; intros Sub rows' depth' Hin.
      - destruct Hin.
      - apply in_app_or in Hin as [Hin|Hin].
        + assert (I0 : In (Child c0 t0) l) by (apply Sub; now left).
          pose proof (IH c0 t0 I0 _ _ _ _ _ _ _ _ Hin).
          pose proof (height_In c0 t0 l I0). lia.
        + eapply IHl; eauto. intros; apply Sub; now right.
      - eapply IHl; eauto. intros; apply Sub; now right. }
    apply G. auto.
Qed.

Lemma levensthein_height self word max_cost start n c d :
  In (n, c, d) (levensthein self word max_cost start) ->
  (S (height n)
   <= height match start with
             | Some s => if truthy (items s) then s else keyword_trie_dict self
             | None => keyword_trie_dict self
             end)%nat.
Proof.
  unfold levensthein. intros Hin.
  apply in_flat_map in Hin as ([c0 t0|v0] & Hit & Hin); [|destruct Hin].
  apply levenshtein_rec_height in Hin.
  destruct (match start with
            | Some s => if truthy (items s) then s else keyword_trie_dict self
            | None => keyword_trie_dict self
            end) as [l]. simpl in Hit.
  pose proof (height_In c0 t0 l Hit). lia.
Qed.

Lemma next_cases {A} (l : list A) (d : A) : next l d = d \/ In (next l d) l.
Proof. destruct l; simpl; auto. Qed.

Lemma node_weight_le H d : (height d <= H -> node_weight H d <= S H)%nat.
Proof. unfold node_weight. destruct (truthy _); lia. Qed.

(** ** The scan never raises and stays within its budget *)

Section Safety.
Variable self : KeywordProcessor.
Variable index_mapping : option (list Z).
Variable sentence : str.
Variable max_cost : Z.
Hypothesis mapping_len : forall m, index_mapping = Some m -> len m = len sentence.

Let root := keyword_trie_dict self.
Let H := height root.

Lemma span_indices_ok a b :
  0 <= a < len sentence -> a <= b <= len sentence ->
  exists sp, _get_span_indices a b index_mapping = Ok sp.
Proof.
  intros Ha Hb. unfold _get_span_indices.
  destruct index_mapping as [m|] eqn:E; eauto.
  pose proof (mapping_len m eq_refl) as L.
  destruct (py_index_ok m a) as (x & -> & _); [lia|].
  destruct (py_index_last_ok m (b - 1)) as (y & ->); [lia|lia|].
  simpl. eauto.
Qed.

Lemma append_match_ok ext v a b :
  0 <= a < len sentence -> a <= b <= len sentence ->
  (get_term (items root) = None -> a < b) ->
  Forall (emitted_ok root index_mapping (len sentence)) ext ->
  exists ext', append_match index_mapping ext v a b = Ok ext'
               /\ Forall (emitted_ok root index_mapping (len sentence)) ext'.
Proof.
  intros Ha Hb Hab F. unfold append_match.
  destruct (span_indices_ok a b Ha Hb) as ([a' b'] & E). rewrite E. simpl.
  eexists; split; [reflexivity|].
  apply Forall_app; split; auto. constructor; [|constructor].
  exists a, b. simpl. repeat split; auto; lia.
Qed.

Lemma lookahead_step_ok lo longest0 st :
  0 <= lo <= idy st -> idy st < len sentence ->
  (height (current_dict_continued st) <= H)%nat ->
  lookahead_inv sentence lo longest0 st ->
  exists ctl st',
    lookahead_step self sentence st = Ok (ctl, st')
    /\ lookahead_inv sentence lo longest0 st'
    /\ (ctl = Continue ->
        idy st <= idy st' <= len sentence
        /\ (height (current_dict_continued st') <= H)%nat
        /\ (lookahead_measure (len sentence) H st'
            < lookahead_measure (len sentence) H st)%nat).
Proof.
  intros Hlo Hlen Hh J. unfold lookahead_step.
  destruct (py_index_ok sentence (idy st)) as (ch & -> & Enth); [lia|]. simpl bind.
  set (st1 := if is_boundary self ch && has_keyword (current_dict_continued st)
              then found_longer st else st).
  assert (E1 : idy st1 = idy st /\ current_dict_continued st1 = current_dict_continued st
               /\ la_curr_cost st1 = la_curr_cost st)
    by (unfold st1; destruct (_ && _); repeat split; reflexivity).
  destruct E1 as (Ei & Ec & Ek).
  assert (J1 : lookahead_inv sentence lo longest0 st1).
  { unfold st1; destruct (_ && _); auto.
    split; simpl; [intros _; lia|discriminate]. }
  clearbody st1. rewrite Ei, Ec, Ek.
  pose proof (node_weight_le H _ Hh) as Wc.
  assert (K : (1 <= Z.to_nat (len sentence - idy st))%nat) by lia.
  destruct (get_child ch (items (current_dict_continued st))) as [sub|] eqn:G.
  - exists Continue, (move_to st1 sub (la_curr_cost st) (idy st + 1)).
    split; [reflexivity|]. split; [exact J1|]. intros _.
    pose proof (height_child _ _ _ G) as Hs. simpl.
    split; [lia|]. split; [lia|].
    unfold lookahead_measure; simpl.
    pose proof (node_weight_le H sub ltac:(lia)) as Ws.
    replace (Z.to_nat (len sentence - (idy st + 1)))
      with (Z.to_nat (len sentence - idy st) - 1)%nat by lia.
    nia.
  - destruct (la_curr_cost st >? 0).
    + set (nw := get_next_word self (slice_from sentence (idy st))).
      pose proof (get_next_word_len self (slice_from sentence (idy st))) as Ln.
      fold nw in Ln. rewrite len_slice_from in Ln by lia.
      pose proof (len_nonneg nw) as Ln0.
      set (found := next (levensthein self nw (la_curr_cost st)
                            (Some (current_dict_continued st))) (empty_dict, 0, 0)).
      destruct (truthy (items (fst (fst found)))) eqn:T; simpl negb; cbv iota.
      * eexists Continue, _. split; [reflexivity|]. split; [exact J1|]. intros _.
        simpl.
        assert (Hn : (S (height (fst (fst found)))
                      <= height (if truthy (items (current_dict_continued st))
                                 then current_dict_continued st else root))%nat).
        { destruct (next_cases (levensthein self nw (la_curr_cost st)
                       (Some (current_dict_continued st))) (empty_dict, 0, 0)) as [E|E];
            fold found in E.
          - rewrite E in T. discriminate.
          - destruct found as [[n c] d]. now apply levensthein_height in E. }
        split; [lia|].
        assert (Hn' : (height (fst (fst found)) <= H)%nat)
          by (destruct (truthy (items (current_dict_continued st))); unfold H in *; lia).
        split; [exact Hn'|].
        unfold lookahead_measure, node_weight; simpl. rewrite T.
        fold (node_weight H (current_dict_continued st)).
        destruct (Z.eq_dec (len nw) 0) as [Z0|Z0].
        -- replace (idy st + (len nw - 1) + 1) with (idy st) by lia.
           unfold node_weight.
           destruct (truthy (items (current_dict_continued st))); unfold H in *; lia.
        -- assert (Z.to_nat (len sentence - (idy st + (len nw - 1) + 1))
                   <= Z.to_nat (len sentence - idy st) - 1)%nat by lia.
           nia.
      * eexists Break, _. split; [reflexivity|]. split; [exact J1|discriminate].
    + exists Break, st1. split; [reflexivity|]. split; [exact J1|discriminate].
Qed.

Lemma lookahead_ok lo longest0 : forall fuel st,
  (lookahead_measure (len sentence) H st < fuel)%nat ->
  0 <= lo <= idy st -> idy st <= len sentence ->
  (height (current_dict_continued st) <= H)%nat ->
  lookahead_inv sentence lo longest0 st ->
  exists st', lookahead self sentence fuel st = Ok st' /\ lookahead_inv sentence lo longest0 st'.
Proof.
  induction fuel as [|fuel IH]; intros st Hm Hlo Hlen Hh J; [lia|].
  cbn [lookahead]. destruct (idy st <? len sentence) eqn:C.
  - apply Z.ltb_lt in C.
    destruct (lookahead_step_ok lo longest0 st Hlo C Hh J) as (ctl & st' & -> & J' & K).
    simpl. destruct ctl; [|eauto].
    destruct (K eq_refl) as (Hi & Hh' & Hm'). apply IH; auto; lia.
  - apply Z.ltb_ge in C. eexists; split; [reflexivity|].
    destruct (has_keyword _); auto. split; simpl; [intros _; lia|discriminate].
Qed.
Variable inner_fuel : nat.
Hypothesis inner_fuel_enough : (Z.to_nat (len sentence) * (H + 2) <= inner_fuel)%nat.

Lemma at_boundary_ok ch st :
  scan_inv self index_mapping sentence st -> idx st < len sentence ->
  exists st',
    at_boundary self index_mapping sentence max_cost inner_fuel ch st = Ok (st', true)
    /\ idx st <= idx st' <= len sentence
    /\ current_dict st' = root
    /\ sequence_start_pos st' = sequence_start_pos st
    /\ Forall (emitted_ok root index_mapping (len sentence)) (keywords_extracted st').
Proof.
  intros (Hs & Hh & Hk & Hf) Hlen.
  fold root in Hh, Hk, Hf. fold H in Hh. unfold at_boundary.
  destruct (has_keyword (current_dict st) || has_child ch (current_dict st));
    [|eexists; split; [reflexivity|]; simpl; repeat split; auto; lia].
  set (longest0 := if has_keyword (current_dict st)
                   then get_term (items (current_dict st)) else None).
  set (end0 := if has_keyword (current_dict st) then idx st else sequence_end_pos st).
  assert (L : exists la,
    match get_child ch (items (current_dict st)) with
    | Some sub =>
        lookahead self sentence inner_fuel
          {| idy := idx st + 1; current_dict_continued := sub;
             la_curr_cost := curr_cost st; longest_sequence_found := longest0;
             la_sequence_end_pos := end0; is_longer_seq_found := false |}
    | None =>
        Ok {| idy := idx st; current_dict_continued := current_dict st;
              la_curr_cost := curr_cost st; longest_sequence_found := longest0;
              la_sequence_end_pos := end0; is_longer_seq_found := false |}
    end = Ok la /\ lookahead_inv sentence (idx st + 1) longest0 la).
  { destruct (get_child ch (items (current_dict st))) as [sub|] eqn:G.
    - pose proof (height_child _ _ _ G) as Hsub.
      apply lookahead_ok; simpl; try lia.
      + unfold lookahead_measure; simpl.
        pose proof (node_weight_le H sub ltac:(lia)).
        assert (Z.to_nat (len sentence - (idx st + 1))
                <= Z.to_nat (len sentence) - 1)%nat by lia.
        assert (1 <= Z.to_nat (len sentence))%nat by lia.
        nia.
      + split; simpl; [discriminate|reflexivity].
    - eexists; split; [reflexivity|]. split; simpl; [discriminate|reflexivity]. }
  destruct L as (la & -> & (J1 & J2)). simpl bind.
  set (idx' := if is_longer_seq_found la then la_sequence_end_pos la else idx st).
  assert (Hi : idx st <= idx' <= len sentence).
  { unfold idx'. destruct (is_longer_seq_found la); [specialize (J1 eq_refl)|]; lia. }
  assert (D : forall c, exists st',
    Ok (update st idx' (keyword_trie_dict self) (la_sequence_end_pos la) c
          (keywords_extracted st), true) = Ok (st', true)
    /\ idx st <= idx st' <= len sentence
    /\ current_dict st' = root
    /\ sequence_start_pos st' = sequence_start_pos st
    /\ Forall (emitted_ok root index_mapping (len sentence)) (keywords_extracted st')).
  { intros c. eexists; split; [reflexivity|]. simpl. repeat split; auto; lia. }
  destruct (longest_sequence_found la) as [v|] eqn:Lf; [|apply D].
  destruct (truthy v); [|apply D].
  destruct (append_match_ok (keywords_extracted st) v (sequence_start_pos st) idx')
    as (ext' & -> & F'); auto; try lia.
  { intros R. unfold idx'. destruct (is_longer_seq_found la) eqn:IL.
    - specialize (J1 eq_refl). lia.
    - specialize (J2 eq_refl). unfold longest0 in J2.
      destruct (has_keyword (current_dict st)) eqn:K; [auto|discriminate]. }
  simpl. eexists; split; [reflexivity|]. simpl. repeat split; auto; lia.
Qed.

Lemma at_word_char_ok ch st :
  scan_inv self index_mapping sentence st -> idx st < len sentence ->
  nth_error sentence (Z.to_nat (idx st)) = Some ch ->
  is_boundary self ch = false ->
  let r := at_word_char self sentence ch st in
  idx st <= idx (fst r) <= len sentence
  /\ (snd r = false -> idx (fst r) < len sentence)
  /\ (snd r = true -> current_dict (fst r) = root)
  /\ (height (current_dict (fst r)) <= H)%nat
  /\ sequence_start_pos (fst r) = sequence_start_pos st
  /\ keywords_extracted (fst r) = keywords_extracted st.
Proof.
  intros (Hs & Hh & Hk & Hf) Hlen Enth Hb.
  fold root in Hh, Hk, Hf. fold H in Hh. unfold at_word_char.
  destruct (get_child ch (items (current_dict st))) as [sub|] eqn:G.
  - pose proof (height_child _ _ _ G). simpl. repeat split; auto; try lia; try discriminate.
  - destruct (curr_cost st >? 0).
    + set (nw := get_next_word self (slice_from sentence (idx st))).
      assert (Ln : 1 <= len nw <= len sentence - idx st).
      { pose proof (get_next_word_len self (slice_from sentence (idx st))) as L1.
        fold nw in L1. rewrite len_slice_from in L1 by lia. split; [|lia].
        unfold nw. rewrite (slice_from_cons sentence (idx st) ch) by (auto; lia).
        apply get_next_word_head. unfold is_boundary in Hb.
        now apply negb_false_iff in Hb. }
      set (found := next (levensthein self nw (curr_cost st) (Some (current_dict st)))
                      (keyword_trie_dict self, 0, 0)).
      simpl. repeat split; try lia; try discriminate.
      destruct (next_cases (levensthein self nw (curr_cost st) (Some (current_dict st)))
                  (keyword_trie_dict self, 0, 0)) as [E|E]; fold found in E.
      * rewrite E. simpl. unfold H, root. lia.
      * destruct found as [[n c] d]. apply levensthein_height in E. simpl.
        destruct (truthy (items (current_dict st))); unfold H, root in *; lia.
    + pose proof (skip_word_bounds self (slice_from sentence (idx st + 1)) (idx st + 1)) as B.
      rewrite len_slice_from in B by lia.
      simpl. repeat split; auto; try lia; try discriminate.
Qed.

Lemma scan_step_ok st :
  scan_inv self index_mapping sentence st -> idx st < len sentence ->
  exists st',
    scan_step self index_mapping sentence max_cost inner_fuel st = Ok st'
    /\ scan_inv self index_mapping sentence st' /\ idx st < idx st' <= len sentence + 1.
Proof.
  intros I Hlen. pose proof I as (Hs & Hh & Hk & Hf).
  fold root in Hh, Hk, Hf. fold H in Hh. unfold scan_step.
  destruct (py_index_ok sentence (idx st)) as (ch & -> & Enth); [lia|]. simpl bind.
  assert (B : exists st1 reset,
    (if is_boundary self ch
     then at_boundary self index_mapping sentence max_cost inner_fuel ch st
     else Ok (at_word_char self sentence ch st)) = Ok (st1, reset)
    /\ idx st <= idx st1 <= len sentence
    /\ (reset = false -> idx st1 < len sentence)
    /\ (reset = true -> current_dict st1 = root)
    /\ (height (current_dict st1) <= H)%nat
    /\ sequence_start_pos st1 = sequence_start_pos st
    /\ Forall (emitted_ok root index_mapping (len sentence)) (keywords_extracted st1)).
  { destruct (is_boundary self ch) eqn:Hb.
    - destruct (at_boundary_ok ch st I Hlen) as (st1 & -> & Hi & Hc & Hp & He).
      exists st1, true. repeat split; auto; try lia; try discriminate.
      rewrite Hc. unfold H. lia.
    - pose proof (at_word_char_ok ch st I Hlen Enth Hb) as (Hi & Hr & Hc & Hh' & Hp & He).
      destruct (at_word_char self sentence ch st) as [st1 reset]. simpl in *.
      exists st1, reset. repeat split; auto; try lia. now rewrite He. }
  destruct B as (st1 & reset & -> & Hi & Hr & Hc & Hh1 & Hp & He). simpl bind.
  cbn [fst snd].
  assert (X : exists ext,
    (if idx st1 + 1 >=? len sentence
     then match get_term (items (current_dict st1)) with
          | Some sequence_found =>
              append_match index_mapping (keywords_extracted st1) sequence_found
                (sequence_start_pos st1) (len sentence)
          | None => Ok (keywords_extracted st1)
          end
     else Ok (keywords_extracted st1)) = Ok ext
    /\ Forall (emitted_ok root index_mapping (len sentence)) ext).
  { destruct (idx st1 + 1 >=? len sentence); [|eauto].
    destruct (get_term (items (current_dict st1))); [|eauto].
    apply append_match_ok; auto; lia. }
  destruct X as (ext & -> & Fe). simpl bind.
  eexists; split; [reflexivity|]. split; [|simpl; lia].
  unfold scan_inv; simpl. fold root. fold H. split; [|split; [exact Hh1|split; [|exact Fe]]].
  - destruct reset; lia.
  - intros R K. destruct reset; [|lia].
    rewrite (Hc eq_refl) in K. unfold has_keyword in K. fold root in R.
    rewrite R in K. discriminate.
Qed.

Lemma scan_loop_ok : forall fuel st,
  scan_inv self index_mapping sentence st -> idx st <= len sentence + 1 ->
  (Z.to_nat (len sentence + 1 - idx st) < fuel)%nat ->
  exists st',
    scan_loop self index_mapping sentence max_cost inner_fuel fuel st = Ok st'
    /\ scan_inv self index_mapping sentence st'.
Proof.
  induction fuel as [|fuel IH]; intros st I Hi Hf; [lia|].
  cbn [scan_loop]. destruct (idx st <? len sentence) eqn:C.
  - apply Z.ltb_lt in C.
    destruct (scan_step_ok st I C) as (st' & -> & I' & Hi').
    simpl. apply IH; auto; lia.
  - eauto.
Qed.
End Safety.

(** ** The index mapping has the length of the lowered sentence *)

Lemma offsets_from_length lower_at s rest : forall i idx,
  length (offsets_from idx rest) = length (lower_from lower_at s i rest).
Proof.
  induction rest as [|c rest IH]; intros i idx; simpl; auto.
  unfold lower_piece.
  destruct (char_eqb c LATIN_CAPITAL_LETTER_I_WITH_DOT_ABOVE); simpl;
    now rewrite (IH (S i) (idx + 1)).
Qed.

Lemma get_index_mapping_len lower_at self sentence m :
  get_index_mapping sentence (case_sensitive self) = Some m ->
  len m = len (fold_case lower_at self sentence).
Proof.
  unfold get_index_mapping, fold_case.
  destruct (case_sensitive self); simpl; [discriminate|].
  destruct (negb _); [discriminate|]. intros [= <-].
  unfold len, lower. now rewrite (offsets_from_length lower_at sentence sentence 0%nat 0).
Qed.

(** ** Totality of extraction *)

Section Totality.
Variable lower_at : str -> nat -> char.

Lemma initial_state_inv self index_mapping sentence max_cost :
  scan_inv self index_mapping sentence (initial_state self max_cost).
Proof.
  unfold scan_inv, initial_state; simpl. repeat split; try lia.
  - intros R K. unfold has_keyword in K. rewrite R in K. discriminate.
  - constructor.
Qed.

Lemma enough_fuel_inner self sentence :
  (Z.to_nat (len (fold_case lower_at self sentence))
   * (height (keyword_trie_dict self) + 2)
   <= enough_fuel lower_at self sentence)%nat.
Proof. unfold enough_fuel, len. rewrite Nat2Z.id. nia. Qed.

Lemma enough_fuel_outer self sentence :
  (Z.to_nat (len (fold_case lower_at self sentence) + 1 - 0)
   < enough_fuel lower_at self sentence)%nat.
Proof. unfold enough_fuel, len. nia. Qed.

(** The scan of [extract_keywords] ends normally within the budget. *)
Lemma scan_total self sentence max_cost fuel :
  (enough_fuel lower_at self sentence <= fuel)%nat ->
  exists st,
    scan_loop self (get_index_mapping sentence (case_sensitive self))
      (fold_case lower_at self sentence) max_cost fuel fuel
      (initial_state self max_cost) = Ok st
    /\ scan_inv self (get_index_mapping sentence (case_sensitive self))
         (fold_case lower_at self sentence) st.
Proof.
  intros Hf.
  pose proof (enough_fuel_inner self sentence).
  pose proof (enough_fuel_outer self sentence).
  apply scan_loop_ok.
  - intros m. apply get_index_mapping_len.
  - lia.
  - apply initial_state_inv.
  - simpl. pose proof (len_nonneg (fold_case lower_at self sentence)). lia.
  - simpl in *. lia.
Qed.

Lemma extract_keywords_fuel_total self sentence span_info max_cost fuel :
  (enough_fuel lower_at self sentence <= fuel)%nat ->
  exists r, extract_keywords_fuel lower_at fuel self sentence span_info max_cost = Ok r.
Proof.
  intros Hf. unfold extract_keywords_fuel.
  destruct (negb (truthy sentence)); [eauto|].
  destruct (scan_total self sentence max_cost fuel Hf) as (st & -> & _). simpl.
  destruct span_info; eauto.
Qed.
End Totality.

(** ** A larger budget changes nothing *)

Lemma lookahead_mono self sentence : forall f st r,
  lookahead self sentence f st = Ok r ->
  forall f', (f <= f')%nat -> lookahead self sentence f' st = Ok r.
Proof.
  induction f as [|f IH]; intros st r E f' Hf; [discriminate|].
  destruct f' as [|f']; [lia|]. cbn [lookahead] in *.
  destruct (idy st <? len sentence); [|exact E].
  destruct (lookahead_step self sentence st) as [[ctl st']|e|]; simpl in *;
    try discriminate.
  destruct ctl; [|exact E]. apply (IH _ _ E). lia.
Qed.

Lemma at_boundary_mono self index_mapping sentence max_cost f f' ch st r :
  at_boundary self index_mapping sentence max_cost f ch st = Ok r ->
  (f <= f')%nat ->
  at_boundary self index_mapping sentence max_cost f' ch st = Ok r.
Proof.
  unfold at_boundary. intros E Hf.
  destruct (_ || _); [|exact E].
  destruct (get_child ch (items (current_dict st))) as [sub|]; [|exact E].
  match type of E with
  | context [lookahead self sentence f ?s] =>
      destruct (lookahead self sentence f s) as [la|e|] eqn:L; simpl in E;
        try discriminate;
      rewrite (lookahead_mono self sentence f s la L f' Hf)
  end.
  exact E.
Qed.

Lemma scan_step_mono self index_mapping sentence max_cost f f' st r :
  scan_step self index_mapping sentence max_cost f st = Ok r ->
  (f <= f')%nat ->
  scan_step self index_mapping sentence max_cost f' st = Ok r.
Proof.
  unfold scan_step. intros E Hf.
  destruct (py_index sentence (idx st)) as [ch|e|]; simpl in *; try discriminate.
  destruct (is_boundary self ch); [|exact E].
  destruct (at_boundary self index_mapping sentence max_cost f ch st)
    as [x|e|] eqn:B; simpl in E; try discriminate.
  rewrite (at_boundary_mono _ _ _ _ _ _ _ _ _ B Hf). exact E.
Qed.

Lemma scan_loop_mono self index_mapping sentence max_cost f f' : forall n st r,
  scan_loop self index_mapping sentence max_cost f n st = Ok r ->
  (f <= f')%nat ->
  forall n', (n <= n')%nat ->
  scan_loop self index_mapping sentence max_cost f' n' st = Ok r.
Proof.
  induction n as [|n IH]; intros st r E Hf n' Hn; [discriminate|].
  destruct n' as [|n']; [lia|]. cbn [scan_loop] in *.
  destruct (idx st <? len sentence); [|exact E].
  destruct (scan_step self index_mapping sentence max_cost f st) as [st'|e|] eqn:S;
    simpl in E; try discriminate.
  rewrite (scan_step_mono _ _ _ _ _ _ _ _ S Hf). simpl.
  apply (IH _ _ E Hf). lia.
Qed.

Lemma extract_keywords_fuel_stable lower_at self sentence span_info max_cost fuel :
  (enough_fuel lower_at self sentence <= fuel)%nat ->
  extract_keywords_fuel lower_at fuel self sentence span_info max_cost
  = extract_keywords lower_at self sentence span_info max_cost.
Proof.
  intros Hf. unfold extract_keywords, extract_keywords_fuel.
  destruct (negb (truthy sentence)); [reflexivity|].
  destruct (scan_total lower_at self sentence max_cost
              (enough_fuel lower_at self sentence) (Nat.le_refl _)) as (st & E & _).
  rewrite E.
  now rewrite (scan_loop_mono _ _ _ _ _ fuel _ _ _ E Hf fuel Hf).
Qed.

(** Every match that [extract_keywords] reports with [span_info] is the
    translation of a span of the scanned sentence. *)
Lemma extract_keywords_spans_emitted lower_at self sentence max_cost r :
  extract_keywords lower_at self sentence true max_cost = Ok r ->
  Forall (fun e => match e with
                   | KeywordSpan v a b =>
                       emitted_ok (keyword_trie_dict self)
                         (get_index_mapping sentence (case_sensitive self))
                         (len (fold_case lower_at self sentence)) (v, a, b)
                   | Keyword _ => False
                   end) r.
Proof.
  unfold extract_keywords, extract_keywords_fuel.
  destruct (negb (truthy sentence)); [intros [= <-]; constructor|].
  destruct (scan_total lower_at self sentence max_cost
              (enough_fuel lower_at self sentence) (Nat.le_refl _))
    as (st & -> & (_ & _ & _ & F)).
  simpl. intros [= <-]. apply Forall_map.
  eapply Forall_impl; [|exact F]. intros [[v a] b] E. exact E.
Qed.

(** C9: [extract_keywords] returns normally, whatever the processor, the
    sentence and [max_cost]: every index into the sentence and into the index
    mapping is in bounds (an index out of bounds would make the embedding
    raise [IndexError]) and the loops stay within their budget; every span
    reported comes from a span inside the scanned sentence; on an empty
    sentence the result is the empty list. *)
Theorem extract_keywords_never_raises :
  forall lower_at self sentence span_info max_cost,
    (exists r, extract_keywords lower_at self sentence span_info max_cost = Ok r)
    /\ (forall r, extract_keywords lower_at self sentence true max_cost = Ok r ->
          Forall (fun e => match e with
                           | KeywordSpan v a b =>
                               emitted_ok (keyword_trie_dict self)
                                 (get_index_mapping sentence (case_sensitive self))
                                 (len (fold_case lower_at self sentence)) (v, a, b)
                           | Keyword _ => False
                           end) r)
    /\ extract_keywords lower_at self [] span_info max_cost = Ok [].
Proof.
  intros. split; [|split].
  - apply extract_keywords_fuel_total. apply Nat.le_refl.
  - apply extract_keywords_spans_emitted.
  - reflexivity.
Qed.

(** On the docstring sentence extraction returns, and with [span_info] every
    element is a span inside the sentence. *)
Lemma extract_keywords_never_raises_witness :
  exists r,
    extract_keywords ascii_lower_at docstring_processor docstring_sentence true 0 = Ok r
    /\ Forall (fun e => match e with
                        | KeywordSpan v a b => 0 <= a <= b /\ b <= len docstring_sentence
                        | Keyword _ => False
                        end) r.
Proof.
  destruct (extract_keywords_never_raises ascii_lower_at docstring_processor
              docstring_sentence true 0) as ((r & E) & F & _).
  exists r. split; [exact E|].
  specialize (F r E). revert F. apply Forall_impl. intros [v|v a b]; [auto|].
  intros (a0 & b0 & Ha & Hb & Hlen & _ & _ & Hsp).
  change (get_index_mapping docstring_sentence (case_sensitive docstring_processor))
    with (@None (list Z)) in Hsp.
  simpl in Hsp. injection Hsp as <- <-.
  change (len (fold_case ascii_lower_at docstring_processor docstring_sentence))
    with (len docstring_sentence) in Hlen.
  lia.
Defined.

(** C2 (as amended): [extract_keywords] terminates, within a number of
    iterations bounded by the length of the sentence times the height of the
    trie: the scan index [idx] moves forward by at least one in every
    iteration of the outer loop; in the lookahead loop the index [idy] never
    moves backwards while the loop goes on, and an iteration that leaves it
    where it was moves the lookahead node strictly down the trie, so that
    the measure [lookahead_measure] decreases in every iteration. *)
Theorem extract_keywords_terminates :
  forall lower_at self sentence span_info max_cost,
    let s := fold_case lower_at self sentence in
    let m := get_index_mapping sentence (case_sensitive self) in
    let fuel := enough_fuel lower_at self sentence in
    extract_keywords lower_at self sentence span_info max_cost <> OutOfFuel
    /\ (forall fuel', (fuel <= fuel')%nat ->
          extract_keywords_fuel lower_at fuel' self sentence span_info max_cost
          = extract_keywords lower_at self sentence span_info max_cost)
    /\ scan_inv self m s (initial_state self max_cost)
    /\ (forall st,
          scan_inv self m s st -> idx st < len s ->
          exists st',
            scan_step self m s max_cost fuel st = Ok st'
            /\ scan_inv self m s st' /\ idx st < idx st')
    /\ (forall lo longest0 st,
          0 <= lo <= idy st -> idy st < len s ->
          (height (current_dict_continued st) <= height (keyword_trie_dict self))%nat ->
          lookahead_inv s lo longest0 st ->
          exists ctl st',
            lookahead_step self s st = Ok (ctl, st')
            /\ (ctl = Continue ->
                idy st <= idy st' <= len s
                /\ (lookahead_measure (len s) (height (keyword_trie_dict self)) st'
                    < lookahead_measure (len s) (height (keyword_trie_dict self)) st)%nat
                /\ (height (current_dict_continued st')
                    <= height (keyword_trie_dict self))%nat
                /\ lookahead_inv s lo longest0 st')).
Proof.
  intros. split; [|split; [|split; [|split]]].
  - destruct (extract_keywords_fuel_total lower_at self sentence span_info max_cost
                fuel (Nat.le_refl _)) as (r & E).
    unfold extract_keywords. fold fuel. rewrite E. discriminate.
  - intros fuel' Hf. now apply extract_keywords_fuel_stable.
  - apply initial_state_inv.
  - intros st I Hlen.
    destruct (scan_step_ok self m s max_cost
                (fun m' => get_index_mapping_len lower_at self sentence m')
                fuel (enough_fuel_inner lower_at self sentence) st I Hlen)
      as (st' & E & I' & Hi).
    exists st'. split; [exact E|split; [exact I'|lia]].
  - intros lo longest0 st Hlo Hlen Hh J.
    destruct (lookahead_step_ok self s lo longest0 st Hlo Hlen Hh J)
      as (ctl & st' & E & J' & K).
    exists ctl, st'. split; auto. intros C. destruct (K C) as (A & B & D). auto.
Qed.

(** C2 as stated fails for the lookahead index: scanning ["a-."] for the
    keyword ["a-bc"] with [max_cost = 2], the first iteration of the scan
    moves to the node of ["a"]; at the boundary character ["-"] the lookahead
    starts at [idy = 2] with the node of ["a-"]; the character there is ["."],
    the next word is empty, the fuzzy search still yields a node, and the
    iteration ends with [idy] where it was. *)
Lemma lookahead_fuzzy_step_can_stall :
  let self := dash_processor in
  let sentence := of_string "a-." in
  exists st1 sub st',
    scan_step self None sentence 2 (enough_fuel ascii_lower_at self sentence)
      (initial_state self 2) = Ok st1
    /\ idx st1 = 1 /\ curr_cost st1 = 2 /\ sequence_end_pos st1 = 0
    /\ has_keyword (current_dict st1) = false
    /\ get_child 45%N (items (current_dict st1)) = Some sub
    /\ lookahead_step self sentence
         {| idy := idx st1 + 1; current_dict_continued := sub;
            la_curr_cost := curr_cost st1;
            longest_sequence_found := None;
            la_sequence_end_pos := sequence_end_pos st1;
            is_longer_seq_found := false |}
       = Ok (Continue, st')
    /\ idy st' = idx st1 + 1
    /\ extract_keywords ascii_lower_at self sentence true 2
       = Ok [KeywordSpan (of_string "a-bc") 0 2].
Proof.
  intros self sentence. eexists _, _, _.
  split; [vm_compute; reflexivity|].
  split; [reflexivity|]. split; [reflexivity|]. split; [reflexivity|].
  split; [reflexivity|]. split; [reflexivity|].
  split; [vm_compute; reflexivity|].
  split; reflexivity.
Qed.

(** The first iteration of the scan of the docstring sentence, and a first
    step of a lookahead in it. *)
Lemma extract_keywords_terminates_witness :
  let self := docstring_processor in
  let s := fold_case ascii_lower_at self docstring_sentence in
  let m := get_index_mapping docstring_sentence (case_sensitive self) in
  (exists st',
     scan_step self m s 0 (enough_fuel ascii_lower_at self docstring_sentence)
       (initial_state self 0) = Ok st'
     /\ idx (initial_state self 0) < idx st')
  /\ (exists ctl st',
        lookahead_step self s
          {| idy := 1; current_dict_continued := keyword_trie_dict self;
             la_curr_cost := 0; longest_sequence_found := None;
             la_sequence_end_pos := 0; is_longer_seq_found := false |}
        = Ok (ctl, st')).
Proof.
  intros self s m.
  destruct (extract_keywords_terminates ascii_lower_at self docstring_sentence false 0)
    as (_ & _ & I0 & S & L).
  split.
  - destruct (S (initial_state self 0) I0) as (st' & E & _ & Hi).
    + vm_compute. reflexivity.
    + exists st'. split; assumption.
  - destruct (L 1 None
                {| idy := 1; current_dict_continued := keyword_trie_dict self;
                   la_curr_cost := 0; longest_sequence_found := None;
                   la_sequence_end_pos := 0; is_longer_seq_found := false |})
      as (ctl & st' & E & _).
    + simpl; lia.
    + vm_compute. reflexivity.
    + apply Nat.le_refl.
    + split; simpl; [discriminate|reflexivity].
    + exists ctl, st'. exact E.
Defined.

(** ** The index mapping points at the character each position comes from *)

Lemma firstn_plus {A} (l : list A) : forall k d,
  firstn (k + d) l = firstn k l ++ firstn d (skipn k l).
Proof.
  induction l as [|x l IH]; intros k d.
  - now rewrite skipn_nil, !firstn_nil.
  - destruct k as [|k]; simpl; [reflexivity|]. now rewrite IH.
Qed.

Section Mapping.
Variable lower_at : str -> nat -> char.
Variable s : str.








Lemma start_of_all : start_of lower_at s (length s) = length (lower lower_at s).
Proof. unfold start_of, lower. now rewrite firstn_all. Qed.

End Mapping.

Lemma py_index_nth {A} (l : list A) (i : Z) (d : A) :
  0 <= i < len l -> py_index l i = Ok (nth (Z.to_nat i) l d).
Proof.
  intros H. destruct (py_index_ok l i H) as (a & -> & E).
  f_equal. symmetry. now apply nth_error_nth.
Qed.




(** ** The rows of the fuzzy search are rows of the Levenshtein table *)

Lemma lev_S a b i j :
  lev a b (S i) (S j)
  = min3 (lev a b (S i) j + 1) (lev a b i (S j) + 1)
         (lev a b i j + (if char_eqb (nth j b 0%N) (nth i a 0%N) then 0 else 1)).
Proof. reflexivity. Qed.

Lemma lev_S_O a b i : lev a b (S i) O = Z.of_nat (S i).
Proof. reflexivity. Qed.

Lemma lev_O_r a b i : lev a b i O = Z.of_nat i.
Proof. destruct i; reflexivity. Qed.

Lemma lev_prefix a x b : forall i j,
  (i <= length a)%nat -> lev (a ++ x) b i j = lev a b i j.
Proof.
  induction i as [|i IH]; intros j Hi; [reflexivity|].
  induction j as [|j IHj]; [reflexivity|].
  rewrite !lev_S, IHj, !IH by lia.
  now rewrite app_nth1 by lia.
Qed.

Lemma range_rows_for word : range (len word + 1) = rows_for [] word.
Proof.
  unfold range, rows_for, len.
  replace (Z.to_nat (Z.of_nat (length word) + 1)) with (S (length word)) by lia.
  reflexivity.
Qed.

Lemma nth_rows_for path word j :
  (j <= length word)%nat -> nth j (rows_for path word) 0 = lev path word (length path) j.
Proof.
  intros Hj. unfold rows_for.
  rewrite (nth_indep _ 0 (lev path word (length path) 0))
    by (rewrite length_map, length_seq; lia).
  rewrite map_nth, seq_nth by lia. reflexivity.
Qed.

(** The loop of [_levenshtein_rec] after the columns [1..m]. *)
Lemma levenshtein_row_upto char word path m :
  (m <= length word)%nat ->
  fold_left
    (fun (acc : list Z * Z) (col : nat) =>
       let new_rows := fst acc in
       let insert_cost := nth (col - 1) new_rows 0 + 1 in
       let delete_cost := nth col (rows_for path word) 0 + 1 in
       let replace_cost :=
         nth (col - 1) (rows_for path word) 0
         + (if char_eqb (nth (col - 1) word 0%N) char then 0 else 1) in
       let cost := min3 insert_cost delete_cost replace_cost in
       (new_rows ++ [cost], cost))
    (seq 1 m)
    ([nth 0 (rows_for path word) 0 + 1], 0)
  = (map (lev (path ++ [char]) word (S (length path))) (seq 0 (S m)),
     match m with
     | O => 0
     | S _ => lev (path ++ [char]) word (S (length path)) m
     end).
Proof.
  induction m as [|m IH]; intros Hm.
  - cbn [seq fold_left map]. rewrite nth_rows_for by lia.
    rewrite lev_S_O, lev_O_r. repeat f_equal. lia.
  - rewrite seq_S, fold_left_app, IH by lia. cbn [fold_left fst snd].
    replace (1 + m - 1)%nat with m by lia. replace (1 + m)%nat with (S m) by lia.
    set (L := lev (path ++ [char]) word (S (length path))).
    assert (E : min3 (nth m (map L (seq 0 (S m))) 0 + 1)
                  (nth (S m) (rows_for path word) 0 + 1)
                  (nth m (rows_for path word) 0
                   + (if char_eqb (nth m word 0%N) char then 0 else 1))
                = L (S m)).
    { unfold L. rewrite lev_S.
      rewrite (nth_indep _ 0 (lev (path ++ [char]) word (S (length path)) 0))
        by (rewrite length_map, length_seq; lia).
      rewrite map_nth, seq_nth by lia.
      rewrite !nth_rows_for by lia.
      rewrite (lev_prefix path [char] word (length path) (S m)),
        (lev_prefix path [char] word (length path) m) by lia.
      rewrite nth_middle. reflexivity. }
    rewrite E. f_equal.
    rewrite (seq_S (S m) 0), map_app. reflexivity.
Qed.

Lemma levenshtein_row_spec char word path :
  levenshtein_row char word (rows_for path word)
  = (rows_for (path ++ [char]) word, yielded_cost word (path ++ [char])).
Proof.
  unfold levenshtein_row. rewrite levenshtein_row_upto by lia.
  unfold rows_for, yielded_cost, edit_distance.
  rewrite length_app, Nat.add_1_r. simpl length.
  destruct word; reflexivity.
Qed.

Lemma last_rows_for path word : last (rows_for path word) 0 = edit_distance path word.
Proof.
  unfold rows_for, edit_distance.
  rewrite seq_S, map_app. simpl. apply last_last.
Qed.

(** ** The fuzzy search is a depth-first search in iteration order *)

Lemma preorder_Dict l :
  preorder (Dict l)
  = flat_map (fun it => match it with
                        | Child c t => [(c, t)] :: map (cons (c, t)) (preorder t)
                        | Term _ => []
                        end) l.
Proof.
  induction l as [|[c t|v] l IH]; simpl in *; try rewrite IH; reflexivity.
Qed.

Lemma preorder_nonempty d : forall tr, In tr (preorder d) -> tr <> [].
Proof.
  induction d as [l IH] using trie_ind. intros tr. rewrite preorder_Dict.
  rewrite in_flat_map. intros ([c t|v] & Hin & Htr); [|destruct Htr].
  destruct Htr as [<-|Htr]; [discriminate|].
  apply in_map_iff in Htr as (tr' & <- & _). discriminate.
Qed.

Lemma levenshtein_rec_eq self char node word rows max_cost depth :
  _levenshtein_rec self char node word rows max_cost depth
  = if (last (fst (levenshtein_row char word rows)) 0 <=? max_cost)
       && stop_crit self node
    then [(node, snd (levenshtein_row char word rows), depth)]
    else if list_min (fst (levenshtein_row char word rows)) <=? max_cost
         then levenshtein_children self word (fst (levenshtein_row char word rows))
                max_cost (depth + 1) (items node)
         else [].
Proof.
  destruct node as [l]. cbn [_levenshtein_rec items].
  destruct (_ && _); [reflexivity|]. destruct (_ <=? _); [|reflexivity].
  unfold levenshtein_children.
  induction l as [|[c t|v] l IH]; simpl; try rewrite IH; reflexivity.
Qed.

Lemma result_of_cons word base c n tr :
  tr <> [] ->
  result_of word base ((c, n) :: tr) = result_of word (base ++ [c]) tr.
Proof.
  intros N. unfold result_of. destruct tr as [|x tr]; [congruence|].
  cbn [map fst last]. rewrite <- app_assoc. cbn [app].
  rewrite len_app, !len_cons. f_equal. unfold len; simpl. lia.
Qed.

Lemma yielded_from_cons self word k base c n x tr :
  yielded_from self word k base ((c, n) :: x :: tr)
  = expanded self word k (base ++ [c]) n
    && yielded_from self word k (base ++ [c]) (x :: tr).
Proof. reflexivity. Qed.

Lemma filter_yielded_cons self word k base c n L :
  (forall tr, In tr L -> tr <> []) ->
  filter (yielded_from self word k base) (map (cons (c, n)) L)
  = if expanded self word k (base ++ [c]) n
    then map (cons (c, n)) (filter (yielded_from self word k (base ++ [c])) L)
    else [].
Proof.
  induction L as [|tr L IH]; intros N.
  - simpl. now destruct (expanded _ _ _ _ _).
  - cbn [map filter]. rewrite IH by (intros; apply N; now right).
    assert (Ntr : tr <> []) by (apply N; now left).
    destruct tr as [|x tr]; [congruence|].
    rewrite yielded_from_cons.
    destruct (expanded self word k (base ++ [c]) n); cbn [andb]; [|reflexivity].
    destruct (yielded_from self word k (base ++ [c]) (x :: tr)); reflexivity.
Qed.

Section Search.
Variable self : KeywordProcessor.
Variable word : str.
Variable k : Z.

Lemma children_spec l :
  (forall c t, In (Child c t) l -> rec_spec self word k t) ->
  forall base,
    levenshtein_children self word (rows_for base word) k (len base + 1) l
    = map (result_of word base)
        (filter (yielded_from self word k base) (preorder (Dict l))).
Proof.
  intros IH base. rewrite preorder_Dict. unfold levenshtein_children.
  induction l as [|[c t|v] l IHl]; [reflexivity| |].
  - cbn [flat_map]. rewrite filter_app, map_app.
    rewrite <- IHl by (intros; eapply IH; right; eauto).
    f_equal. apply (IH c t). now left.
  - cbn [flat_map]. apply IHl. intros; eapply IH; right; eauto.
Qed.

Lemma levenshtein_rec_spec node : rec_spec self word k node.
Proof.
  induction node as [l IH] using trie_ind. intros c base.
  rewrite levenshtein_rec_eq, levenshtein_row_spec. cbn [fst snd items].
  rewrite last_rows_for. fold (row_min (base ++ [c]) word).
  fold (accepted self word k (base ++ [c]) (Dict l)).
  cbn [filter yielded_from].
  rewrite filter_yielded_cons by apply preorder_nonempty.
  unfold expanded.
  destruct (accepted self word k (base ++ [c]) (Dict l)) eqn:A; cbn [negb andb].
  - cbn [map]. unfold result_of. cbn [last snd map fst].
    rewrite !len_cons. unfold len at 2. simpl. repeat f_equal.
  - destruct (row_min (base ++ [c]) word <=? k); [|reflexivity].
    replace (len base + 1 + 1) with (len (base ++ [c]) + 1)
      by (rewrite len_app; unfold len; simpl; lia).
    rewrite (children_spec l IH (base ++ [c])).
    rewrite map_map. rewrite <- (map_map (cons (c, Dict l)) (result_of word base)).
    rewrite !map_map. apply map_ext_in. intros tr Htr.
    symmetry. apply result_of_cons.
    apply filter_In in Htr as [Htr _]. eapply preorder_nonempty; eauto.
Qed.

(** [levensthein] yields, in the order of a depth-first walk, the ends of
    the trails along which it went on below every node before the last and
    accepted the last. *)
Lemma levensthein_spec start_node :
  levensthein self word k start_node
  = map (result_of word [])
      (filter (yielded_from self word k []) (preorder (start_node_of self start_node))).
Proof.
  unfold levensthein. fold (start_node_of self start_node).
  rewrite range_rows_for.
  destruct (start_node_of self start_node) as [l]. cbn [items].
  apply (children_spec l (fun c t _ => levenshtein_rec_spec t) []).
Qed.
End Search.

Example edit_distance_marie_maria :
  edit_distance (of_string "Marie") (of_string "Maria") = 1.
Proof. reflexivity. Qed.

Example edit_distance_kitten_sitting :
  edit_distance (of_string "kitten") (of_string "sitting") = 3.
Proof. reflexivity. Qed.

(** C8: the fuzzy search yields exactly the ends of the trails along which
    every node before the last was neither accepted nor pruned and whose last
    node is accepted, that is, is terminal or goes on with a boundary
    character, at an edit distance from the word within the budget; it yields
    them in depth-first order, each dictionary in its iteration order, so the
    node taken by [next] is the first of them in that order.  It is not the
    one of least cost: with the keywords "ab" then "ac", the word "ac" and
    budget 1, the node of "ab" (cost 1) is taken although the node of "ac"
    (cost 0) is yielded after it; with the keywords added in the other order
    the node of "ac" is taken. *)
Theorem levensthein_first_in_iteration_order :
  (forall self word k start_node,
      let candidates :=
        filter (yielded_from self word k [])
          (preorder (start_node_of self start_node)) in
      levensthein self word k start_node = map (result_of word []) candidates
      /\ (forall n c d,
            In (n, c, d) (levensthein self word k start_node)
            <-> exists tr,
                  In tr (preorder (start_node_of self start_node))
                  /\ yielded_from self word k [] tr = true
                  /\ result_of word [] tr = (n, c, d))
      /\ (forall default,
            next (levensthein self word k start_node) default
            = match candidates with
              | [] => default
              | tr :: _ => result_of word [] tr
              end))
  /\ (exists n_ab n_ac,
        node_at (of_string "ab") (keyword_trie_dict ab_ac_processor) = Some n_ab
        /\ node_at (of_string "ac") (keyword_trie_dict ab_ac_processor) = Some n_ac
        /\ levensthein ab_ac_processor (of_string "ac") 1 None
           = [(n_ab, 1, 2); (n_ac, 0, 2)]
        /\ next (levensthein ab_ac_processor (of_string "ac") 1 None)
             (keyword_trie_dict ab_ac_processor, 0, 0) = (n_ab, 1, 2)
        /\ next (levensthein ac_ab_processor (of_string "ac") 1 None)
             (keyword_trie_dict ac_ab_processor, 0, 0) = (n_ac, 0, 2)).
Proof.
  split.
  - intros self word k start_node candidates.
    pose proof (levensthein_spec self word k start_node) as E.
    fold candidates in E. split; [exact E|]. split.
    + intros n c d. rewrite E, in_map_iff. unfold candidates. split.
      * intros (tr & R & Hin). apply filter_In in Hin as [Hin Y]. eauto.
      * intros (tr & Hin & Y & R). exists tr. split; auto.
        apply filter_In. auto.
    + intros default. rewrite E. destruct candidates; reflexivity.
  - eexists _, _. repeat split; vm_compute; reflexivity.
Qed.

(** ** Substrings and paths *)

Lemma firstn_S_nth_error {A} (l : list A) : forall n c,
  nth_error l n = Some c -> firstn (S n) l = firstn n l ++ [c].
Proof.
  induction l as [|x l IH]; intros [|n] c E; simpl in *; try discriminate.
  - now injection E as ->.
  - now rewrite (IH n c E).
Qed.

Lemma nth_error_skipn_add {A} (l : list A) : forall a i,
  nth_error (skipn a l) i = nth_error l (a + i).
Proof.
  induction l as [|x l IH]; intros [|a] i; simpl; auto.
  now destruct i.
Qed.

Lemma substring_empty {A} (l : list A) a : substring l a a = [].
Proof. unfold substring. now rewrite Z.sub_diag. Qed.

Lemma substring_snoc {A} (l : list A) a e c :
  0 <= a <= e -> nth_error l (Z.to_nat e) = Some c ->
  substring l a (e + 1) = substring l a e ++ [c].
Proof.
  intros H E. unfold substring.
  replace (Z.to_nat (e + 1 - a)) with (S (Z.to_nat (e - a))) by lia.
  apply firstn_S_nth_error. rewrite nth_error_skipn_add.
  now replace (Z.to_nat a + Z.to_nat (e - a))%nat with (Z.to_nat e) by lia.
Qed.

Lemma substring_split {A} (l : list A) a e e' :
  0 <= a <= e -> e <= e' ->
  substring l a e' = substring l a e ++ substring l e e'.
Proof.
  intros H H'. unfold substring.
  replace (Z.to_nat (e' - a)) with (Z.to_nat (e - a) + Z.to_nat (e' - e))%nat by lia.
  rewrite firstn_plus. f_equal. rewrite skipn_skipn. do 2 f_equal. lia.
Qed.

Lemma substring_cons {A} (l : list A) e e' c :
  0 <= e < e' -> nth_error l (Z.to_nat e) = Some c ->
  substring l e e' = c :: substring l (e + 1) e'.
Proof.
  intros H E. unfold substring.
  replace (Z.to_nat (e' - e)) with (S (Z.to_nat (e' - (e + 1)))) by lia.
  replace (Z.to_nat (e + 1)) with (S (Z.to_nat e)) by lia.
  generalize dependent (Z.to_nat e). intros n. revert l.
  induction n as [|n IH]; intros [|x l] E; simpl in *; try discriminate.
  - now injection E as ->.
  - now apply IH.
Qed.

Lemma substring_all {A} (l : list A) : substring l 0 (len l) = l.
Proof.
  unfold substring, len. rewrite Z.sub_0_r, Nat2Z.id. simpl. apply firstn_all.
Qed.

Lemma node_at_app p : forall q d,
  node_at (p ++ q) d
  = match node_at p d with Some n => node_at q n | None => None end.
Proof.
  induction p as [|c p IH]; intros q d; simpl; auto.
  destruct (get_child c (items d)); auto.
Qed.

Lemma node_at_snoc p c d n sub :
  node_at p d = Some n -> get_child c (items n) = Some sub ->
  node_at (p ++ [c]) d = Some sub.
Proof. intros E G. rewrite node_at_app, E. simpl. now rewrite G. Qed.

Lemma node_at_broken p c q d n :
  node_at p d = Some n -> get_child c (items n) = None ->
  node_at (p ++ c :: q) d = None.
Proof. intros E G. rewrite node_at_app, E. simpl. now rewrite G. Qed.

Lemma lookup_at p d n : node_at p d = Some n -> lookup p d = get_term (items n).
Proof. intros E. now rewrite lookup_node_at, E. Qed.

(** ** The lookahead without fuzzy budget finds the longest match *)

Section ExactLookahead.
Variable self : KeywordProcessor.
Variable s : str.
Variable a lo : Z.
Variable longest0 : option str.

Lemma has_keyword_lookup st :
  node_at (substring s a (idy st)) (keyword_trie_dict self)
  = Some (current_dict_continued st) ->
  lookup (substring s a (idy st)) (keyword_trie_dict self)
  = get_term (items (current_dict_continued st)).
Proof. apply lookup_at. Qed.

Lemma lookahead_step_exact st :
  la_exact_inv self s a lo longest0 st -> idy st < len s ->
  exists ctl st',
    lookahead_step self s st = Ok (ctl, st')
    /\ match ctl with
       | Continue => la_exact_inv self s a lo longest0 st' /\ idy st' = idy st + 1
       | Break => la_exact_post self s a lo longest0 st'
       end.
Proof.
  intros (I1 & I2 & I3 & I4 & I5 & I6) Hlen. unfold lookahead_step.
  destruct (py_index_ok s (idy st)) as (ch & -> & Enth); [lia|]. simpl bind.
  pose proof (has_keyword_lookup st I3) as Lk.
  set (st1 := if is_boundary self ch && has_keyword (current_dict_continued st)
              then found_longer st else st).
  assert (E1 : idy st1 = idy st /\ current_dict_continued st1 = current_dict_continued st
               /\ la_curr_cost st1 = la_curr_cost st)
    by (unfold st1; destruct (_ && _); repeat split; reflexivity).
  destruct E1 as (Ei & Ec & Ek).
  assert (J4 : is_longer_seq_found st1 = true ->
      lo <= la_sequence_end_pos st1 <= idy st
      /\ boundary_at self s (la_sequence_end_pos st1)
      /\ longest_sequence_found st1
         = lookup (substring s a (la_sequence_end_pos st1)) (keyword_trie_dict self)
      /\ longest_sequence_found st1 <> None).
  { unfold st1. destruct (is_boundary self ch && has_keyword _) eqn:C; [|exact I4].
    apply andb_true_iff in C as [Cb Ck]. intros _. simpl.
    split; [lia|]. split; [right; split; [lia|eauto]|].
    split; [now rewrite Lk|].
    unfold has_keyword in Ck. destruct (get_term _); [discriminate|discriminate]. }
  assert (J5 : is_longer_seq_found st1 = false -> longest_sequence_found st1 = longest0).
  { unfold st1. destruct (_ && _); [discriminate|exact I5]. }
  assert (J6 : forall e, lo <= e <= idy st -> match_end self s a e ->
      is_longer_seq_found st1 = true /\ e <= la_sequence_end_pos st1).
  { intros e He M. unfold st1.
    destruct (is_boundary self ch && has_keyword _) eqn:C.
    - simpl. split; [reflexivity|lia].
    - destruct (Z.eq_dec e (idy st)) as [->|Ne]; [|apply I6; auto; lia].
      exfalso. destruct M as (_ & B & L).
      rewrite Lk in L.
      assert (Hk : has_keyword (current_dict_continued st) = true)
        by (unfold has_keyword; destruct (get_term _); [reflexivity|congruence]).
      destruct B as [B|(_ & c & Ec' & Bc)]; [lia|].
      rewrite Enth in Ec'. injection Ec' as <-.
      rewrite Bc, Hk in C. discriminate. }
  clearbody st1. rewrite Ei, Ec, Ek.
  destruct (get_child ch (items (current_dict_continued st))) as [sub|] eqn:G.
  - exists Continue, (move_to st1 sub (la_curr_cost st) (idy st + 1)).
    split; [reflexivity|]. split; [|reflexivity].
    unfold la_exact_inv; simpl.
    split; [lia|]. split; [lia|]. split; [|split; [|split]].
    + rewrite (substring_snoc s a (idy st) ch) by (auto; lia).
      eapply node_at_snoc; eauto.
    + intros IL. destruct (J4 IL) as (A & B). split; [lia|exact B].
    + exact J5.
    + intros e He. apply J6. lia.
  - replace (la_curr_cost st >? 0) with false by (symmetry; rewrite Z.gtb_ltb; apply Z.ltb_ge; lia).
    exists Break, st1. split; [reflexivity|].
    unfold la_exact_post. split; [lia|]. split; [|split; [exact J5|]].
    + intros IL. destruct (J4 IL) as (A & B). split; [lia|exact B].
    + intros e He M. destruct (Z_le_gt_dec e (idy st)) as [Le|Gt]; [apply J6; auto; lia|].
      exfalso. destruct M as (_ & _ & L). apply L.
      rewrite lookup_node_at.
      rewrite (substring_split s a (idy st) e) by lia.
      rewrite (substring_cons s (idy st) e ch) by (auto; lia).
      now rewrite (node_at_broken _ ch _ _ _ I3 G).
Qed.

Lemma lookahead_exact : forall fuel st,
  la_exact_inv self s a lo longest0 st ->
  (Z.to_nat (len s - idy st) < fuel)%nat ->
  exists st', lookahead self s fuel st = Ok st' /\ la_exact_post self s a lo longest0 st'.
Proof.
  induction fuel as [|fuel IH]; intros st I Hf; [lia|].
  cbn [lookahead]. destruct (idy st <? len s) eqn:C.
  - apply Z.ltb_lt in C.
    destruct (lookahead_step_exact st I C) as (ctl & st' & -> & K). simpl.
    destruct ctl; [|eauto]. destruct K as (I' & Ei). apply IH; auto. lia.
  - apply Z.ltb_ge in C. destruct I as (I1 & I2 & I3 & I4 & I5 & I6).
    assert (Ey : idy st = len s) by lia.
    pose proof (has_keyword_lookup st I3) as Lk.
    eexists; split; [reflexivity|].
    unfold has_keyword. destruct (get_term (items (current_dict_continued st))) as [v|] eqn:T;
      simpl isSome; cbv iota.
    + unfold la_exact_post; simpl. split; [lia|].
      split; [|split; [discriminate|intros; split; [reflexivity|lia]]].
      intros _. split; [lia|]. split; [left; lia|].
      rewrite Lk, T. split; [reflexivity|discriminate].
    + unfold la_exact_post. split; [lia|]. split; [|split; [exact I5|]].
      * intros IL. destruct (I4 IL) as (A & B). split; [lia|exact B].
      * intros e He M. destruct (Z.eq_dec e (len s)) as [->|Ne]; [|apply I6; auto; lia].
        exfalso. destruct M as (_ & _ & L). rewrite <- Ey, Lk in L. now apply L.
Qed.
End ExactLookahead.

(** ** The scan without fuzzy budget reports longest matches *)

Lemma StronglySorted_snoc {A} (R : A -> A -> Prop) l x :
  StronglySorted R l -> (forall y, In y l -> R y x) -> StronglySorted R (l ++ [x]).
Proof.
  induction 1 as [|y l S IH F]; intros H; simpl.
  - constructor; constructor.
  - constructor.
    + apply IH. intros z Hz; apply H; now right.
    + apply Forall_app; split; [exact F|]. constructor; [|constructor].
      apply H; now left.
Qed.

Lemma reports_longest_snoc self index_mapping s fs ext v a b a' b' :
  reports_longest self index_mapping s fs ext ->
  _get_span_indices a b index_mapping = Ok (a', b') ->
  longest_match self s (v, a, b) ->
  (forall f, In f fs -> snd f < a) ->
  reports_longest self index_mapping s (fs ++ [(v, a, b)]) (ext ++ [(v, a', b')]).
Proof.
  intros (R & L & S) E M B. split; [|split].
  - apply Forall2_app; auto. constructor; [|constructor]. split; [reflexivity|exact E].
  - apply Forall_app; split; auto.
  - apply StronglySorted_snoc; auto.
Qed.

Section ExactScan.
Variable self : KeywordProcessor.
Variable index_mapping : option (list Z).
Variable s : str.
Variable max_cost : Z.
Variable inner_fuel : nat.
Hypothesis mapping_len : forall m, index_mapping = Some m -> len m = len s.
Hypothesis root_no_term : get_term (items (keyword_trie_dict self)) = None.
Hypothesis no_budget : max_cost <= 0.
Hypothesis inner_fuel_enough : (Z.to_nat (len s) < inner_fuel)%nat.

Lemma append_match_exact fs ext v a b :
  0 <= a < len s -> a <= b <= len s ->
  reports_longest self index_mapping s fs ext ->
  longest_match self s (v, a, b) ->
  (forall f, In f fs -> snd f < a) ->
  exists ext',
    append_match index_mapping ext v a b = Ok ext'
    /\ reports_longest self index_mapping s (fs ++ [(v, a, b)]) ext'.
Proof.
  intros Ha Hb R M B. unfold append_match.
  destruct (span_indices_ok self index_mapping s mapping_len a b Ha Hb) as ([a' b'] & E).
  rewrite E. simpl. eexists; split; [reflexivity|].
  now apply reports_longest_snoc.
Qed.

Lemma at_boundary_exact ch st :
  exact_inv self index_mapping s st -> idx st < len s ->
  nth_error s (Z.to_nat (idx st)) = Some ch -> is_boundary self ch = true ->
  exists r,
    at_boundary self index_mapping s max_cost inner_fuel ch st = Ok r
    /\ snd r = true /\ branch_post self index_mapping s st r.
Proof.
  intros (Hs & Hc & Hn & fs & R & Hf) Hlen Enth Hb.
  specialize (Hn Hlen).
  pose proof (lookup_at _ _ _ Hn) as Lk.
  unfold at_boundary.
  destruct (has_keyword (current_dict st) || has_child ch (current_dict st)).
  2:{ eexists; split; [reflexivity|]. split; [reflexivity|].
      unfold branch_post; simpl.
      split; [lia|]. split; [reflexivity|]. split; [lia|].
      split; [reflexivity|]. split; [discriminate|].
      exists fs. split; [exact R|]. intros f Hin.
      destruct (Hf f Hin) as (A & B). specialize (B Hlen).
      split; [lia|]. split; [lia|discriminate]. }
  set (longest0 := if has_keyword (current_dict st)
                   then get_term (items (current_dict st)) else None).
  assert (L0 : longest0 = get_term (items (current_dict st))).
  { unfold longest0, has_keyword. now destruct (get_term (items (current_dict st))). }
  set (end0 := if has_keyword (current_dict st) then idx st else sequence_end_pos st).
  assert (L : exists la,
    match get_child ch (items (current_dict st)) with
    | Some sub =>
        lookahead self s inner_fuel
          {| idy := idx st + 1; current_dict_continued := sub;
             la_curr_cost := curr_cost st; longest_sequence_found := longest0;
             la_sequence_end_pos := end0; is_longer_seq_found := false |}
    | None =>
        Ok {| idy := idx st; current_dict_continued := current_dict st;
              la_curr_cost := curr_cost st; longest_sequence_found := longest0;
              la_sequence_end_pos := end0; is_longer_seq_found := false |}
    end = Ok la
    /\ la_exact_post self s (sequence_start_pos st) (idx st + 1) longest0 la).
  { destruct (get_child ch (items (current_dict st))) as [sub|] eqn:G.
    - apply lookahead_exact; [|simpl; lia].
      unfold la_exact_inv; simpl.
      split; [lia|]. split; [lia|]. split; [|split; [discriminate|split; [reflexivity|]]].
      + rewrite (substring_snoc s _ (idx st) ch) by (auto; lia).
        eapply node_at_snoc; eauto.
      + intros e He. lia.
    - eexists; split; [reflexivity|].
      unfold la_exact_post; simpl.
      split; [lia|]. split; [discriminate|]. split; [reflexivity|].
      intros e He M. exfalso. destruct M as (_ & _ & Lm). apply Lm.
      rewrite lookup_node_at.
      rewrite (substring_split s _ (idx st) e) by lia.
      rewrite (substring_cons s (idx st) e ch) by (auto; lia).
      now rewrite (node_at_broken _ ch _ _ _ Hn G). }
  destruct L as (la & -> & (P1 & P2 & P3 & P4)). simpl bind.
  set (idx' := if is_longer_seq_found la then la_sequence_end_pos la else idx st).
  assert (Hi : idx st <= idx' <= len s).
  { unfold idx'. destruct (is_longer_seq_found la); [destruct (P2 eq_refl)|]; lia. }
  assert (D : forall c, c <= 0 -> exists r,
    Ok (update st idx' (keyword_trie_dict self) (la_sequence_end_pos la) c
          (keywords_extracted st), true) = Ok r
    /\ snd r = true /\ branch_post self index_mapping s st r).
  { intros c Hc0. eexists; split; [reflexivity|]. split; [reflexivity|].
    unfold branch_post; simpl.
    split; [lia|]. split; [reflexivity|]. split; [lia|].
    split; [reflexivity|]. split; [discriminate|].
    exists fs. split; [exact R|]. intros f Hin.
    destruct (Hf f Hin) as (A & B). specialize (B Hlen).
    split; [lia|]. split; [lia|discriminate]. }
  destruct (longest_sequence_found la) as [v|] eqn:Lf; [|now apply D].
  destruct (truthy v); [|now apply D].
  assert (M : longest_match self s (v, sequence_start_pos st, idx')).
  { unfold longest_match, idx'; simpl.
    destruct (is_longer_seq_found la) eqn:IL.
    - destruct (P2 eq_refl) as (A & B & C & _).
      split; [lia|]. split; [lia|]. split; [lia|]. split; [now rewrite <- C|].
      split; [exact B|]. intros e Me.
      destruct (Z_le_gt_dec e (idx st)) as [Le|Gt]; [lia|].
      destruct (P4 e) as (_ & Q); auto. destruct Me as (Q1 & _). lia.
    - specialize (P3 eq_refl). rewrite L0, <- Lk in P3.
      assert (Hlt : sequence_start_pos st < idx st).
      { destruct (Z.eq_dec (sequence_start_pos st) (idx st)) as [E|N]; [|lia].
        rewrite E, substring_empty in P3. simpl in P3. congruence. }
      split; [lia|]. split; [lia|]. split; [lia|]. split; [congruence|].
      split; [right; split; [lia|eauto]|]. intros e Me.
      destruct (Z_le_gt_dec e (idx st)) as [Le|Gt]; [lia|].
      destruct (P4 e) as (Q & _); auto; [|discriminate]. destruct Me as (Q1 & _). lia. }
  destruct (append_match_exact fs (keywords_extracted st) v (sequence_start_pos st) idx')
    as (ext' & -> & R'); auto; try lia.
  { intros f Hin. destruct (Hf f Hin) as (_ & B). now apply B. }
  simpl. eexists; split; [reflexivity|]. split; [reflexivity|].
  unfold branch_post; simpl.
  split; [lia|]. split; [reflexivity|]. split; [lia|].
  split; [reflexivity|]. split; [discriminate|].
  exists (fs ++ [(v, sequence_start_pos st, idx')]). split; [exact R'|].
  intros f Hin. apply in_app_or in Hin as [Hin|[<-|[]]].
  - destruct (Hf f Hin) as (A & B). specialize (B Hlen).
    split; [lia|]. split; [lia|discriminate].
  - simpl. split; [lia|]. split; [lia|discriminate].
Qed.
Lemma at_word_char_exact ch st :
  exact_inv self index_mapping s st -> idx st < len s ->
  nth_error s (Z.to_nat (idx st)) = Some ch ->
  branch_post self index_mapping s st (at_word_char self s ch st).
Proof.
  intros (Hs & Hc & Hn & fs & R & Hf) Hlen Enth.
  specialize (Hn Hlen). unfold at_word_char.
  destruct (get_child ch (items (current_dict st))) as [sub|] eqn:G.
  - unfold branch_post; simpl.
    split; [lia|]. split; [reflexivity|]. split; [lia|].
    split; [discriminate|]. split.
    + intros _. split; [reflexivity|]. split; [reflexivity|].
      rewrite (substring_snoc s _ (idx st) ch) by (auto; lia).
      eapply node_at_snoc; eauto.
    + exists fs. split; [exact R|]. intros f Hin.
      destruct (Hf f Hin) as (A & B). specialize (B Hlen).
      split; [lia|]. split; [discriminate|intros _; lia].
  - replace (curr_cost st >? 0) with false
      by (symmetry; rewrite Z.gtb_ltb; apply Z.ltb_ge; lia).
    pose proof (skip_word_bounds self (slice_from s (idx st + 1)) (idx st + 1)) as B.
    rewrite len_slice_from in B by lia.
    unfold branch_post; simpl.
    split; [lia|]. split; [reflexivity|]. split; [lia|].
    split; [reflexivity|]. split; [discriminate|].
    exists fs. split; [exact R|]. intros f Hin.
    destruct (Hf f Hin) as (A & C). specialize (C Hlen).
    split; [lia|]. split; [intros _; lia|discriminate].
Qed.

Lemma scan_step_exact st :
  exact_inv self index_mapping s st -> idx st < len s ->
  exists st',
    scan_step self index_mapping s max_cost inner_fuel st = Ok st'
    /\ exact_inv self index_mapping s st' /\ idx st < idx st' <= len s + 1.
Proof.
  intros I Hlen. pose proof I as (Hs & Hc & Hn & fs0 & R0 & Hf0).
  unfold scan_step.
  destruct (py_index_ok s (idx st)) as (ch & -> & Enth); [lia|]. simpl bind.
  assert (B : exists r,
    (if is_boundary self ch
     then at_boundary self index_mapping s max_cost inner_fuel ch st
     else Ok (at_word_char self s ch st)) = Ok r /\ branch_post self index_mapping s st r).
  { destruct (is_boundary self ch) eqn:Hb.
    - destruct (at_boundary_exact ch st I Hlen Enth Hb) as (r & E & _ & P); eauto.
    - eexists; split; [reflexivity|]. now apply at_word_char_exact. }
  destruct B as ([st1 reset] & -> & (Hi & Hp & Hc1 & Hr & Hnr & fs & R & Hf)).
  simpl bind. cbn [fst snd] in *.
  assert (X : exists ext fs',
    (if idx st1 + 1 >=? len s
     then match get_term (items (current_dict st1)) with
          | Some sequence_found =>
              append_match index_mapping (keywords_extracted st1) sequence_found
                (sequence_start_pos st1) (len s)
          | None => Ok (keywords_extracted st1)
          end
     else Ok (keywords_extracted st1)) = Ok ext
    /\ reports_longest self index_mapping s fs' ext
    /\ forall f, In f fs' ->
         snd f <= len s
         /\ (idx st1 + 1 < len s ->
             (reset = true -> snd f <= idx st1)
             /\ (reset = false -> snd f < sequence_start_pos st))).
  { assert (Keep : exists ext fs',
      Ok (keywords_extracted st1) = Ok ext
      /\ reports_longest self index_mapping s fs' ext
      /\ forall f, In f fs' ->
           snd f <= len s
           /\ (idx st1 + 1 < len s ->
               (reset = true -> snd f <= idx st1)
               /\ (reset = false -> snd f < sequence_start_pos st))).
    { exists (keywords_extracted st1), fs. split; [reflexivity|]. split; [exact R|].
      intros f Hin. destruct (Hf f Hin) as (A & B & C). auto. }
    destruct (idx st1 + 1 >=? len s) eqn:C; [|exact Keep].
    apply Z.geb_le in C.
    destruct (get_term (items (current_dict st1))) as [v|] eqn:T; [|exact Keep].
    destruct reset.
    - rewrite (Hr eq_refl), root_no_term in T. discriminate.
    - destruct (Hnr eq_refl) as (Ei & Ee & Nd).
      assert (El : idx st + 1 = len s) by lia.
      destruct (append_match_exact fs (keywords_extracted st1) v
                  (sequence_start_pos st1) (len s)) as (ext' & E & R');
        auto; try lia.
      + unfold longest_match; simpl. rewrite Hp.
        split; [lia|]. split; [lia|]. split; [lia|].
        split; [rewrite <- El; now rewrite (lookup_at _ _ _ Nd)|].
        split; [now left|]. intros e (Q & _). lia.
      + intros f Hin. destruct (Hf f Hin) as (_ & _ & B). rewrite Hp. now apply B.
      + exists ext', (fs ++ [(v, sequence_start_pos st1, len s)]).
        split; [exact E|]. split; [exact R'|].
        intros f Hin. apply in_app_or in Hin as [Hin|[<-|[]]].
        * destruct (Hf f Hin) as (A & _). split; [exact A|lia].
        * simpl. split; lia. }
  destruct X as (ext & fs' & -> & R' & Hf'). simpl bind.
  eexists; split; [reflexivity|]. split; [|simpl; lia].
  unfold exact_inv; simpl.
  split; [destruct reset; lia|]. split; [exact Hc1|]. split.
  - intros Hl. destruct reset.
    + rewrite substring_empty. simpl. now rewrite (Hr eq_refl).
    + destruct (Hnr eq_refl) as (Ei & _ & Nd). now rewrite Ei, Hp.
  - exists fs'. split; [exact R'|]. intros f Hin.
    destruct (Hf' f Hin) as (A & B). split; [exact A|].
    intros Hl. destruct (B Hl) as (B1 & B2).
    destruct reset; [specialize (B1 eq_refl); lia|specialize (B2 eq_refl); lia].
Qed.

Lemma scan_loop_exact : forall fuel st,
  exact_inv self index_mapping s st -> idx st <= len s + 1 ->
  (Z.to_nat (len s + 1 - idx st) < fuel)%nat ->
  exists st',
    scan_loop self index_mapping s max_cost inner_fuel fuel st = Ok st'
    /\ exact_inv self index_mapping s st'.
Proof.
  induction fuel as [|fuel IH]; intros st I Hi Hf; [lia|].
  cbn [scan_loop]. destruct (idx st <? len s) eqn:C.
  - apply Z.ltb_lt in C.
    destruct (scan_step_exact st I C) as (st' & -> & I' & Hi').
    simpl. apply IH; auto; lia.
  - eauto.
Qed.
End ExactScan.

(** ** Tries that differ in the order of their items *)

Lemma sim_refl d : sim d d.
Proof. intros p; reflexivity. Qed.

Lemma sim_trans d1 d2 d3 : sim d1 d2 -> sim d2 d3 -> sim d1 d3.
Proof. intros H1 H2 p. now rewrite H1. Qed.

Lemma sim_term d1 d2 : sim d1 d2 -> get_term (items d1) = get_term (items d2).
Proof. intros H. specialize (H []). unfold kw_at in H. simpl in H. congruence. Qed.

Lemma sim_has_keyword d1 d2 : sim d1 d2 -> has_keyword d1 = has_keyword d2.
Proof. intros H. unfold has_keyword. now rewrite (sim_term d1 d2 H). Qed.

Lemma sim_child c d1 d2 :
  sim d1 d2 ->
  match get_child c (items d1), get_child c (items d2) with
  | Some a, Some b => sim a b
  | None, None => True
  | _, _ => False
  end.
Proof.
  intros H. pose proof (H [c]) as H1. unfold kw_at in H1. simpl in H1.
  destruct (get_child c (items d1)) as [a|] eqn:G1,
           (get_child c (items d2)) as [b|] eqn:G2; simpl in H1; try discriminate; auto.
  intros p. specialize (H (c :: p)). unfold kw_at in *. simpl in H.
  now rewrite G1, G2 in H.
Qed.

Lemma sim_has_child c d1 d2 : sim d1 d2 -> has_child c d1 = has_child c d2.
Proof.
  intros H. pose proof (sim_child c d1 d2 H) as S. unfold has_child.
  destruct (get_child c (items d1)), (get_child c (items d2)); simpl; tauto.
Qed.

Section Simulation.
Variable self1 self2 : KeywordProcessor.
Variable index_mapping : option (list Z).
Variable s : str.
Variable max_cost : Z.
Variable inner_fuel : nat.
Hypothesis related : proc_sim self1 self2.
Hypothesis no_budget : max_cost <= 0.

Lemma is_boundary_sim c : is_boundary self1 c = is_boundary self2 c.
Proof. unfold is_boundary. destruct related as (-> & _). reflexivity. Qed.

Lemma lookahead_step_sim st1 st2 :
  la_rel st1 st2 ->
  res_rel (fun r1 r2 => fst r1 = fst r2 /\ la_rel (snd r1) (snd r2))
    (lookahead_step self1 s st1) (lookahead_step self2 s st2).
Proof.
  intros (Ei & Ec & Hc & El & Ee & Eb & S). unfold lookahead_step.
  rewrite <- Ei. destruct (py_index s (idy st1)) as [ch|e|]; simpl; auto.
  rewrite <- is_boundary_sim, <- (sim_has_keyword _ _ S).
  set (st1' := if is_boundary self1 ch && has_keyword (current_dict_continued st1)
               then found_longer st1 else st1).
  set (st2' := if is_boundary self1 ch && has_keyword (current_dict_continued st1)
               then found_longer st2 else st2).
  assert (R : la_rel st1' st2'
              /\ current_dict_continued st1' = current_dict_continued st1
              /\ current_dict_continued st2' = current_dict_continued st2
              /\ la_curr_cost st1' = la_curr_cost st1
              /\ la_curr_cost st2' = la_curr_cost st2
              /\ idy st1' = idy st1 /\ idy st2' = idy st2).
  { unfold st1', st2'. destruct (_ && _); repeat split; simpl; auto;
      try (now apply sim_term); try lia; try (now rewrite <- Ei). }
  destruct R as (R & C1 & C2 & K1 & K2 & I1 & I2). clearbody st1' st2'.
  rewrite C1, C2, K1, K2, I1, I2.
  pose proof (sim_child ch _ _ S) as Sc.
  destruct (get_child ch (items (current_dict_continued st1))) as [a|],
           (get_child ch (items (current_dict_continued st2))) as [b|]; try contradiction.
  - simpl. split; [reflexivity|].
    destruct R as (_ & _ & _ & R4 & R5 & R6 & _).
    repeat split; simpl; auto; lia.
  - replace (la_curr_cost st1 >? 0) with false
      by (symmetry; rewrite Z.gtb_ltb; apply Z.ltb_ge; lia).
    replace (la_curr_cost st2 >? 0) with false
      by (symmetry; rewrite Z.gtb_ltb; apply Z.ltb_ge; lia).
    simpl. split; [reflexivity|exact R].
Qed.

Lemma lookahead_sim : forall fuel st1 st2,
  la_rel st1 st2 ->
  res_rel la_rel (lookahead self1 s fuel st1) (lookahead self2 s fuel st2).
Proof.
  induction fuel as [|fuel IH]; intros st1 st2 R; [exact I|].
  cbn [lookahead]. pose proof R as (Ei & _ & _ & El & Ee & Eb & S).
  rewrite <- Ei. destruct (idy st1 <? len s).
  - pose proof (lookahead_step_sim st1 st2 R) as Rs.
    destruct (lookahead_step self1 s st1) as [[c1 a]|e1|],
             (lookahead_step self2 s st2) as [[c2 b]|e2|]; simpl in *; try contradiction; auto.
    destruct Rs as (<- & Rs). destruct c1; [now apply IH|exact Rs].
  - simpl. rewrite <- (sim_has_keyword _ _ S).
    destruct (has_keyword (current_dict_continued st1)); [|exact R].
    destruct R as (R1 & R2 & R3 & R4 & R5 & R6 & R7).
    repeat split; simpl; auto. now apply sim_term.
Qed.

Lemma root_sim : sim (keyword_trie_dict self1) (keyword_trie_dict self2).
Proof. now destruct related as (_ & _ & S). Qed.

Lemma at_boundary_sim ch st1 st2 :
  scan_rel st1 st2 ->
  res_rel (fun r1 r2 => snd r1 = snd r2 /\ scan_rel (fst r1) (fst r2))
    (at_boundary self1 index_mapping s max_cost inner_fuel ch st1)
    (at_boundary self2 index_mapping s max_cost inner_fuel ch st2).
Proof.
  intros (Ei & Es & Ee & Ec & Hc & Ex & S). unfold at_boundary.
  rewrite <- (sim_has_keyword _ _ S), <- (sim_has_child ch _ _ S).
  destruct (has_keyword (current_dict st1) || has_child ch (current_dict st1)).
  2:{ simpl. split; [reflexivity|]. repeat split; simpl; auto. apply root_sim. }
  rewrite <- (sim_term _ _ S), <- Ei, <- Ee, <- Ec.
  set (longest0 := if has_keyword (current_dict st1)
                   then get_term (items (current_dict st1)) else None).
  set (end0 := if has_keyword (current_dict st1) then idx st1 else sequence_end_pos st1).
  set (la1 := match get_child ch (items (current_dict st1)) with
              | Some sub => lookahead self1 s inner_fuel _
              | None => Ok _
              end).
  set (la2 := match get_child ch (items (current_dict st2)) with
              | Some sub => lookahead self2 s inner_fuel _
              | None => Ok _
              end).
  assert (L : res_rel la_rel la1 la2).
  { unfold la1, la2. pose proof (sim_child ch _ _ S) as Sc.
    destruct (get_child ch (items (current_dict st1))) as [a|],
             (get_child ch (items (current_dict st2))) as [b|]; try contradiction.
    - apply lookahead_sim. repeat split; simpl; auto.
    - simpl. repeat split; simpl; auto. }
  clearbody la1 la2.
  destruct la1 as [a|e1|], la2 as [b|e2|]; simpl in L |- *; try contradiction; auto.
  destruct L as (L1 & L2 & L3 & L4 & L5 & L6 & L7).
  rewrite <- L4, <- L5, <- L6, <- L2, <- Es, <- Ex.
  assert (D : forall c, c <= 0 ->
    res_rel (fun r1 r2 => snd r1 = snd r2 /\ scan_rel (fst r1) (fst r2))
      (Ok (update st1 (if is_longer_seq_found a then la_sequence_end_pos a else idx st1)
             (keyword_trie_dict self1) (la_sequence_end_pos a) c
             (keywords_extracted st1), true))
      (Ok (update st2 (if is_longer_seq_found a then la_sequence_end_pos a else idx st1)
             (keyword_trie_dict self2) (la_sequence_end_pos a) c
             (keywords_extracted st1), true))).
  { intros c Hc0. simpl. split; [reflexivity|].
    repeat split; simpl; auto. apply root_sim. }
  destruct (longest_sequence_found a) as [v|]; [|now apply D].
  destruct (truthy v); [|now apply D].
  destruct (append_match index_mapping (keywords_extracted st1) v
              (sequence_start_pos st1) _) as [ext|e|]; simpl; auto.
  split; [reflexivity|]. repeat split; simpl; auto. apply root_sim.
Qed.

Lemma at_word_char_sim ch st1 st2 :
  scan_rel st1 st2 ->
  snd (at_word_char self1 s ch st1) = snd (at_word_char self2 s ch st2)
  /\ scan_rel (fst (at_word_char self1 s ch st1)) (fst (at_word_char self2 s ch st2)).
Proof.
  intros (Ei & Es & Ee & Ec & Hc & Ex & S). unfold at_word_char.
  pose proof (sim_child ch _ _ S) as Sc.
  destruct (get_child ch (items (current_dict st1))) as [a|],
           (get_child ch (items (current_dict st2))) as [b|]; try contradiction.
  - simpl. split; [reflexivity|]. repeat split; simpl; auto.
  - rewrite <- Ec.
    replace (curr_cost st1 >? 0) with false
      by (symmetry; rewrite Z.gtb_ltb; apply Z.ltb_ge; lia).
    simpl. split; [reflexivity|]. rewrite <- Ei.
    assert (Ew : forall rest i, skip_word self1 rest i = skip_word self2 rest i).
    { induction rest as [|c rest IHr]; intros i; simpl; auto.
      rewrite is_boundary_sim. destruct (is_boundary self2 c); auto. }
    rewrite Ew. repeat split; simpl; auto. apply root_sim.
Qed.

Lemma scan_step_sim st1 st2 :
  scan_rel st1 st2 ->
  res_rel scan_rel
    (scan_step self1 index_mapping s max_cost inner_fuel st1)
    (scan_step self2 index_mapping s max_cost inner_fuel st2).
Proof.
  intros R. pose proof R as (Ei & _). unfold scan_step.
  rewrite <- Ei. destruct (py_index s (idx st1)) as [ch|e|]; simpl; auto.
  rewrite <- is_boundary_sim.
  set (b1 := if is_boundary self1 ch
             then at_boundary self1 index_mapping s max_cost inner_fuel ch st1
             else Ok (at_word_char self1 s ch st1)).
  set (b2 := if is_boundary self1 ch
             then at_boundary self2 index_mapping s max_cost inner_fuel ch st2
             else Ok (at_word_char self2 s ch st2)).
  assert (B : res_rel (fun r1 r2 => snd r1 = snd r2 /\ scan_rel (fst r1) (fst r2)) b1 b2).
  { unfold b1, b2. destruct (is_boundary self1 ch).
    - now apply at_boundary_sim.
    - simpl. now apply at_word_char_sim. }
  clearbody b1 b2.
  destruct b1 as [[a r1]|e1|], b2 as [[b r2]|e2|]; simpl in B |- *; try contradiction; auto.
  destruct B as (<- & (B1 & B2 & B3 & B4 & B5 & B6 & B7)).
  rewrite <- B1, <- B2, <- B6, <- (sim_term _ _ B7).
  destruct (if idx a + 1 >=? len s
            then match get_term (items (current_dict a)) with
                 | Some sequence_found =>
                     append_match index_mapping (keywords_extracted a) sequence_found
                       (sequence_start_pos a) (len s)
                 | None => Ok (keywords_extracted a)
                 end
            else Ok (keywords_extracted a)) as [ext|e|]; simpl; auto.
  repeat split; simpl; auto.
Qed.

Lemma scan_loop_sim : forall fuel st1 st2,
  scan_rel st1 st2 ->
  res_rel scan_rel
    (scan_loop self1 index_mapping s max_cost inner_fuel fuel st1)
    (scan_loop self2 index_mapping s max_cost inner_fuel fuel st2).
Proof.
  induction fuel as [|fuel IH]; intros st1 st2 R; [exact I|].
  cbn [scan_loop]. pose proof R as (Ei & _). rewrite <- Ei.
  destruct (idx st1 <? len s); [|exact R].
  pose proof (scan_step_sim st1 st2 R) as Rs.
  destruct (scan_step self1 index_mapping s max_cost inner_fuel st1) as [a|e1|],
           (scan_step self2 index_mapping s max_cost inner_fuel st2) as [b|e2|];
    simpl in *; try contradiction; auto.
Qed.
End Simulation.

(** ** Registering distinct patterns in another order *)

Lemma kw_at_empty p : kw_at p empty_dict = if is_prefix p [] then Some None else None.
Proof. destruct p; reflexivity. Qed.

Lemma str_eqb_refl a : str_eqb a a = true.
Proof. now apply str_eqb_eq. Qed.

Lemma kw_at_insert k v : forall d p,
  kw_at p (fst (trie_insert k v d)) = insert_view k v p (kw_at p d).
Proof.
  induction k as [|c rest IH]; intros d p; unfold insert_view.
  - destruct p as [|c' p]; unfold kw_at; simpl.
    + now rewrite get_term_set_term.
    + now rewrite get_child_set_term.
  - cbn [trie_insert].
    set (sub := match get_child c (items d) with Some s0 => s0 | None => empty_dict end).
    specialize (IH sub). destruct (trie_insert rest v sub) as [sub' st] eqn:E.
    cbn [fst] in *. destruct p as [|c' p].
    + unfold kw_at; simpl. now rewrite get_term_set_child.
    + cbn [str_eqb is_prefix]. case_char c' c.
      * subst c'. cbn [andb].
        assert (K : kw_at (c :: p) (Dict (set_child c sub' (items d))) = kw_at p sub')
          by (unfold kw_at; simpl; now rewrite get_child_set_child_same).
        rewrite K, IH. unfold insert_view.
        destruct (str_eqb p rest); [reflexivity|].
        assert (F : kw_at (c :: p) d
                    = match get_child c (items d) with
                      | Some s0 => kw_at p s0
                      | None => None
                      end)
          by (unfold kw_at; simpl; now destruct (get_child c (items d))).
        rewrite F. unfold sub.
        destruct (get_child c (items d)) as [s0|]; [reflexivity|].
        rewrite kw_at_empty.
        destruct (is_prefix p rest) eqn:P.
        -- now destruct (is_prefix p []).
        -- destruct p; [discriminate|reflexivity].
      * cbn [andb]. unfold kw_at; simpl.
        now rewrite get_child_set_child_other by congruence.
Qed.

Lemma insert_view_commute k1 v1 k2 v2 p x :
  k1 <> k2 ->
  insert_view k1 v1 p (insert_view k2 v2 p x)
  = insert_view k2 v2 p (insert_view k1 v1 p x).
Proof.
  intros N. unfold insert_view.
  destruct (str_eqb p k1) eqn:E1, (str_eqb p k2) eqn:E2;
    try (apply str_eqb_eq in E1); try (apply str_eqb_eq in E2).
  - congruence.
  - now destruct (is_prefix p k2).
  - now destruct (is_prefix p k1).
  - destruct (is_prefix p k1), (is_prefix p k2); try reflexivity; now destruct x.
Qed.

Lemma trie_insert_sim k v d1 d2 :
  sim d1 d2 -> sim (fst (trie_insert k v d1)) (fst (trie_insert k v d2)).
Proof. intros S p. now rewrite !kw_at_insert, S. Qed.

Lemma trie_insert_commute k1 v1 k2 v2 d :
  k1 <> k2 ->
  sim (fst (trie_insert k1 v1 (fst (trie_insert k2 v2 d))))
      (fst (trie_insert k2 v2 (fst (trie_insert k1 v1 d)))).
Proof. intros N p. rewrite !kw_at_insert. now apply insert_view_commute. Qed.

Section Order.
Variable lower_at : str -> nat -> char.

Lemma add_keyword_effect self keyword clean_name :
  keyword_trie_dict (fst (add_keyword lower_at self keyword clean_name))
  = match add_effect lower_at self keyword clean_name with
    | Some kv => fst (trie_insert (fst kv) (snd kv) (keyword_trie_dict self))
    | None => keyword_trie_dict self
    end
  /\ non_word_boundaries (fst (add_keyword lower_at self keyword clean_name))
     = non_word_boundaries self
  /\ case_sensitive (fst (add_keyword lower_at self keyword clean_name))
     = case_sensitive self.
Proof.
  unfold add_keyword, __setitem__, add_effect.
  destruct (match clean_name with
            | Some c => Some c
            | None => if truthy keyword then Some keyword else None
            end) as [cn|]; [|auto].
  destruct (truthy keyword && truthy cn); [|auto].
  destruct (trie_insert _ _ _) as [d st]; simpl. auto.
Qed.

Lemma add_effect_ext self1 self2 keyword clean_name :
  case_sensitive self1 = case_sensitive self2 ->
  add_effect lower_at self1 keyword clean_name
  = add_effect lower_at self2 keyword clean_name.
Proof. intros E. unfold add_effect, fold_case. now rewrite E. Qed.

Lemma add_keyword_sim self1 self2 keyword clean_name :
  proc_sim self1 self2 ->
  proc_sim (fst (add_keyword lower_at self1 keyword clean_name))
           (fst (add_keyword lower_at self2 keyword clean_name)).
Proof.
  intros (N & C & S).
  destruct (add_keyword_effect self1 keyword clean_name) as (T1 & N1 & C1).
  destruct (add_keyword_effect self2 keyword clean_name) as (T2 & N2 & C2).
  split; [congruence|]. split; [congruence|].
  rewrite T1, T2, (add_effect_ext self1 self2 keyword clean_name C).
  destruct (add_effect lower_at self2 keyword clean_name); auto.
  now apply trie_insert_sim.
Qed.

Lemma add_pairs_sim pairs : forall self1 self2,
  proc_sim self1 self2 ->
  proc_sim (add_pairs lower_at self1 pairs) (add_pairs lower_at self2 pairs).
Proof.
  induction pairs as [|kv pairs IH]; intros self1 self2 R; [exact R|].
  apply IH. now apply add_keyword_sim.
Qed.

Lemma proc_sim_refl self : proc_sim self self.
Proof. split; [reflexivity|split; [reflexivity|apply sim_refl]]. Qed.

Lemma proc_sim_trans s1 s2 s3 : proc_sim s1 s2 -> proc_sim s2 s3 -> proc_sim s1 s3.
Proof.
  intros (A1 & B1 & C1) (A2 & B2 & C2).
  split; [congruence|]. split; [congruence|]. eapply sim_trans; eauto.
Qed.

Lemma add_keyword_swap self k1 v1 k2 v2 :
  fold_case lower_at self k1 <> fold_case lower_at self k2 ->
  proc_sim
    (fst (add_keyword lower_at (fst (add_keyword lower_at self k1 v1)) k2 v2))
    (fst (add_keyword lower_at (fst (add_keyword lower_at self k2 v2)) k1 v1)).
Proof.
  intros N.
  destruct (add_keyword_effect self k1 v1) as (T1 & N1 & C1).
  destruct (add_keyword_effect self k2 v2) as (T2 & N2 & C2).
  destruct (add_keyword_effect (fst (add_keyword lower_at self k1 v1)) k2 v2)
    as (T12 & N12 & C12).
  destruct (add_keyword_effect (fst (add_keyword lower_at self k2 v2)) k1 v1)
    as (T21 & N21 & C21).
  split; [congruence|]. split; [congruence|].
  rewrite T12, T21, T1, T2.
  rewrite (add_effect_ext _ self k2 v2 C1), (add_effect_ext _ self k1 v1 C2).
  assert (F : forall k v kv, add_effect lower_at self k v = Some kv ->
                             fst kv = fold_case lower_at self k).
  { intros k v kv. unfold add_effect.
    destruct (match v with Some c => Some c | None => _ end) as [cn|]; [|discriminate].
    destruct (_ && _); [|discriminate]. now intros [= <-]. }
  destruct (add_effect lower_at self k1 v1) as [[k1' c1]|] eqn:E1,
           (add_effect lower_at self k2 v2) as [[k2' c2]|] eqn:E2;
    try apply sim_refl.
  apply F in E1, E2. simpl in *. subst.
  apply trie_insert_commute. congruence.
Qed.

(** Registering the same pairs, with distinct patterns, in another order
    gives a trie that the scan cannot tell from the first. *)
Lemma add_pairs_permutation pairs1 pairs2 :
  Permutation pairs1 pairs2 ->
  forall self,
    NoDup (map (fun kv => fold_case lower_at self (fst kv)) pairs1) ->
    proc_sim (add_pairs lower_at self pairs1) (add_pairs lower_at self pairs2).
Proof.
  induction 1 as [|x l1 l2 P IH|x y l|l1 l2 l3 P1 IH1 P2 IH2]; intros self N.
  - apply proc_sim_refl.
  - cbn [add_pairs fold_left]. apply IH.
    inversion N; subst.
    erewrite map_ext; [eassumption|].
    intros kv. apply fold_case_ext, add_keyword_case_sensitive.
  - cbn [add_pairs fold_left]. apply add_pairs_sim.
    apply add_keyword_swap.
    inversion N as [|? ? Nin _]; subst. intros E. apply Nin. left. now symmetry.
  - eapply proc_sim_trans; [now apply IH1|]. apply IH2.
    eapply Permutation_NoDup; [|exact N]. now apply Permutation_map.
Qed.
End Order.

(** ** Longest match, whatever the order of registration *)

Section Longest.
Variable lower_at : str -> nat -> char.

Lemma initial_state_exact self index_mapping s :
  exact_inv self index_mapping s (initial_state self 0).
Proof.
  unfold exact_inv, initial_state; simpl.
  split; [lia|]. split; [lia|]. split.
  - intros _. reflexivity.
  - exists []. split.
    + split; [constructor|]. split; constructor.
    + intros f [].
Qed.

Lemma scan_exact self sentence :
  get_term (items (keyword_trie_dict self)) = None ->
  exists st fs,
    scan_loop self (get_index_mapping sentence (case_sensitive self))
      (fold_case lower_at self sentence) 0
      (enough_fuel lower_at self sentence) (enough_fuel lower_at self sentence)
      (initial_state self 0) = Ok st
    /\ reports_longest self (get_index_mapping sentence (case_sensitive self))
         (fold_case lower_at self sentence) fs (keywords_extracted st).
Proof.
  intros R.
  pose proof (enough_fuel_outer lower_at self sentence) as Ho.
  assert (Hi : (Z.to_nat (len (fold_case lower_at self sentence))
                < enough_fuel lower_at self sentence)%nat)
    by (unfold enough_fuel, len; rewrite Nat2Z.id; nia).
  destruct (scan_loop_exact self (get_index_mapping sentence (case_sensitive self))
              (fold_case lower_at self sentence) 0 (enough_fuel lower_at self sentence)
              (fun m => get_index_mapping_len lower_at self sentence m)
              R (Z.le_refl 0) Hi
              (enough_fuel lower_at self sentence) (initial_state self 0)
              (initial_state_exact self _ _))
    as (st & E & (_ & _ & _ & fs & Rl & _)).
  - simpl. pose proof (len_nonneg (fold_case lower_at self sentence)). lia.
  - simpl in *. lia.
  - eauto.
Qed.

Lemma extract_keywords_sim self1 self2 sentence span_info :
  proc_sim self1 self2 ->
  extract_keywords lower_at self1 sentence span_info 0
  = extract_keywords lower_at self2 sentence span_info 0.
Proof.
  intros R. pose proof R as (Nw & Cs & S).
  set (F := Nat.max (enough_fuel lower_at self1 sentence)
                    (enough_fuel lower_at self2 sentence)).
  rewrite <- (extract_keywords_fuel_stable lower_at self1 sentence span_info 0 F)
    by (unfold F; lia).
  rewrite <- (extract_keywords_fuel_stable lower_at self2 sentence span_info 0 F)
    by (unfold F; lia).
  unfold extract_keywords_fuel. destruct (negb (truthy sentence)); [reflexivity|].
  assert (Ef : fold_case lower_at self1 sentence = fold_case lower_at self2 sentence)
    by (unfold fold_case; now rewrite Cs).
  rewrite <- Cs, <- Ef.
  assert (Ri : scan_rel (initial_state self1 0) (initial_state self2 0))
    by (unfold scan_rel, initial_state; simpl; repeat split; auto; lia).
  pose proof (scan_loop_sim self1 self2
                (get_index_mapping sentence (case_sensitive self1))
                (fold_case lower_at self1 sentence) 0 F R (Z.le_refl 0)
                F (initial_state self1 0) (initial_state self2 0) Ri) as L.
  destruct (scan_loop self1 _ _ 0 F F (initial_state self1 0)) as [a|e1|],
           (scan_loop self2 _ _ 0 F F (initial_state self2 0)) as [b|e2|];
    simpl in L |- *; try contradiction.
  - destruct L as (_ & _ & _ & _ & _ & Ex & _). now rewrite Ex.
  - now subst.
  - reflexivity.
Qed.
End Longest.

(** C1: with exact matching ([max_cost = 0]) every match [extract_keywords]
    reports is the report of a match [(v, a, b)] of the scanned sentence such
    that the pattern registered with [v] occurs from [a] up to the boundary
    [b] and no registered pattern that occurs from [a] ends at a boundary
    after [b]; the matches are in order and none starts before the one before
    it has ended, so no position starts two of them.  The result does not
    depend on the order in which distinct patterns were registered.  On the
    sentence of the class docstring the result is the three clean names the
    docstring gives. *)
Theorem longest_match_wins :
  (forall lower_at self sentence,
      reachable lower_at self ->
      exists fs r,
        extract_keywords lower_at self sentence true 0 = Ok r
        /\ Forall2
             (fun f e =>
                exists a' b',
                  e = KeywordSpan (fst (fst f)) a' b'
                  /\ _get_span_indices (snd (fst f)) (snd f)
                       (get_index_mapping sentence (case_sensitive self))
                     = Ok (a', b'))
             fs r
        /\ Forall (longest_match self (fold_case lower_at self sentence)) fs
        /\ StronglySorted ends_before fs)
  /\ (forall lower_at self pairs1 pairs2 sentence span_info,
        Permutation pairs1 pairs2 ->
        NoDup (map (fun kv => fold_case lower_at self (fst kv)) pairs1) ->
        extract_keywords lower_at (add_pairs lower_at self pairs1) sentence span_info 0
        = extract_keywords lower_at (add_pairs lower_at self pairs2) sentence span_info 0)
  /\ extract_keywords ascii_lower_at docstring_processor docstring_sentence false 0
     = Ok [Keyword (of_string "san francisco"); Keyword (of_string "new york");
           Keyword (of_string "new york")].
Proof.
  split; [|split].
  - intros lower_at self sentence R.
    destruct (reachable_invariant lower_at self R) as (_ & T & _).
    destruct (scan_exact lower_at self sentence T) as (st & fs & E & (F2 & L & S)).
    destruct (negb (truthy sentence)) eqn:Ts.
    + exists [], []. unfold extract_keywords, extract_keywords_fuel. rewrite Ts.
      repeat split; constructor.
    + exists fs. eexists. unfold extract_keywords, extract_keywords_fuel.
      rewrite Ts, E. simpl. split; [reflexivity|]. split; [|split; assumption].
      clear -F2. induction F2 as [|f e fs ext (Hv & Hs) F2 IH]; [constructor|].
      cbn [map]. constructor; [|exact IH].
      exists (snd (fst e)), (snd e). rewrite Hv. split; [reflexivity|exact Hs].
  - intros lower_at self pairs1 pairs2 sentence span_info P N.
    apply extract_keywords_sim. now apply add_pairs_permutation.
  - reflexivity.
Qed.

Lemma docstring_processor_reachable : reachable ascii_lower_at docstring_processor.
Proof. repeat apply reach_add. apply reach_init. Qed.

(** The docstring processor and sentence: its matches are longest matches,
    and registering "SF" before "NY" changes nothing. *)
Lemma longest_match_wins_witness :
  (exists fs r,
     extract_keywords ascii_lower_at docstring_processor docstring_sentence true 0 = Ok r
     /\ Forall (longest_match docstring_processor
                  (fold_case ascii_lower_at docstring_processor docstring_sentence)) fs
     /\ length fs = length r)
  /\ extract_keywords ascii_lower_at
       (add_pairs ascii_lower_at (init false)
          [(of_string "NY", of_string "new york"); (of_string "SF", of_string "san francisco")])
       docstring_sentence false 0
     = extract_keywords ascii_lower_at
         (add_pairs ascii_lower_at (init false)
            [(of_string "SF", of_string "san francisco"); (of_string "NY", of_string "new york")])
         docstring_sentence false 0.
Proof.
  destruct longest_match_wins as (A & B & _). split.
  - destruct (A ascii_lower_at docstring_processor docstring_sentence
                docstring_processor_reachable) as (fs & r & E & F2 & L & _).
    exists fs, r. split; [exact E|]. split; [exact L|].
    eapply Forall2_length; eauto.
  - apply B.
    + apply perm_swap.
    + vm_compute. repeat constructor; simpl; intuition discriminate.
Defined.

(** C1 as stated fails with a fuzzy budget: with [max_cost = 1] and the
    patterns ["ab"] and ["ac e"], the sentence ["ad e"] is within one edit of
    both from position 0.  The fuzzy step at ["d"] moves to the first child
    of the node of ["a"] in iteration order: registered first, ["ab"] is
    reported with the span [(0, 2)], although the match of ["ac e"] ends
    later; registered second, ["ac e"] is reported with the span [(0, 4)]. *)
Lemma fuzzy_match_depends_on_order :
  extract_keywords ascii_lower_at ab_ace_processor (of_string "ad e") true 1
  = Ok [KeywordSpan (of_string "short") 0 2]
  /\ extract_keywords ascii_lower_at ace_ab_processor (of_string "ad e") true 1
     = Ok [KeywordSpan (of_string "long") 0 4].
Proof. split; reflexivity. Qed.


(** ** A registered pattern is extracted from itself *)

Lemma lookup_truthy p : forall d v, wf d -> lookup p d = Some v -> truthy v = true.
Proof.
  induction p as [|c p IH]; intros [l] v W L; simpl in L.
  - inversion W; subst. apply get_term_In in L. auto.
  - destruct (get_child c l) as [sub|] eqn:G; [|discriminate].
    apply (IH sub v); [eapply wf_child; eauto|exact L].
Qed.

Section Registered.
Variable self : KeywordProcessor.
Variable index_mapping : option (list Z).
Variable s : str.
Variable inner_fuel : nat.
Variable v : str.
Variable sp : Z * Z.
Hypothesis root_no_term : get_term (items (keyword_trie_dict self)) = None.
Hypothesis inner_fuel_enough : (Z.to_nat (len s) < inner_fuel)%nat.
Hypothesis registered : lookup s (keyword_trie_dict self) = Some v.
Hypothesis v_truthy : truthy v = true.
Hypothesis whole_span : _get_span_indices 0 (len s) index_mapping = Ok sp.

Lemma registered_child i cd ch :
  0 <= i < len s ->
  node_at (substring s 0 i) (keyword_trie_dict self) = Some cd ->
  nth_error s (Z.to_nat i) = Some ch ->
  exists sub,
    get_child ch (items cd) = Some sub
    /\ node_at (substring s 0 (i + 1)) (keyword_trie_dict self) = Some sub.
Proof.
  intros Hi Hn Enth.
  destruct (get_child ch (items cd)) as [sub|] eqn:G.
  - exists sub. split; [reflexivity|].
    rewrite (substring_snoc s 0 i ch) by (auto; lia). eapply node_at_snoc; eauto.
  - exfalso. pose proof registered as L. rewrite lookup_node_at in L.
    rewrite <- (substring_all s) in L at 1.
    rewrite (substring_split s 0 i (len s)) in L by lia.
    rewrite (substring_cons s i (len s) ch) in L by (auto; lia).
    rewrite (node_at_broken _ ch _ _ _ Hn G) in L. discriminate.
Qed.

Lemma registered_match_end : 0 < len s -> match_end self s 0 (len s).
Proof.
  intros Hl. split; [lia|]. split; [now left|].
  rewrite substring_all, registered. discriminate.
Qed.

Lemma at_boundary_registered ch st :
  idx st < len s -> sequence_start_pos st = 0 -> 0 <= idx st ->
  curr_cost st <= 0 -> keywords_extracted st = [] ->
  node_at (substring s 0 (idx st)) (keyword_trie_dict self) = Some (current_dict st) ->
  nth_error s (Z.to_nat (idx st)) = Some ch ->
  exists st1,
    at_boundary self index_mapping s 0 inner_fuel ch st = Ok (st1, true)
    /\ idx st1 = len s
    /\ current_dict st1 = keyword_trie_dict self
    /\ keywords_extracted st1 = [(v, fst sp, snd sp)].
Proof.
  intros Hlen Hs Hi Hc He Hn Enth.
  destruct (registered_child (idx st) (current_dict st) ch ltac:(lia) Hn Enth)
    as (sub & G & Nsub).
  unfold at_boundary. unfold has_child at 1. rewrite G. simpl isSome.
  rewrite orb_true_r.
  set (longest0 := if has_keyword (current_dict st)
                   then get_term (items (current_dict st)) else None).
  set (end0 := if has_keyword (current_dict st) then idx st else sequence_end_pos st).
  destruct (lookahead_exact self s 0 (idx st + 1) longest0 inner_fuel
              {| idy := idx st + 1; current_dict_continued := sub;
                 la_curr_cost := curr_cost st; longest_sequence_found := longest0;
                 la_sequence_end_pos := end0; is_longer_seq_found := false |})
    as (la & -> & (P1 & P2 & P3 & P4)).
  { unfold la_exact_inv; simpl.
    split; [lia|]. split; [lia|]. split; [exact Nsub|].
    split; [discriminate|]. split; [reflexivity|]. intros e He'. lia. }
  { simpl. lia. }
  simpl bind.
  destruct (P4 (len s)) as (IL & Le); [lia|apply registered_match_end; lia|].
  destruct (P2 IL) as (Hb & _ & Lf & _).
  assert (Ee : la_sequence_end_pos la = len s) by lia.
  rewrite Ee, substring_all, registered in Lf.
  rewrite IL, Lf, v_truthy, Ee, Hs, He.
  unfold append_match. rewrite whole_span. simpl.
  eexists; split; [reflexivity|]. simpl. auto.
Qed.

Lemma scan_registered : forall fuel st,
  0 <= idx st < len s -> sequence_start_pos st = 0 ->
  curr_cost st <= 0 -> keywords_extracted st = [] ->
  node_at (substring s 0 (idx st)) (keyword_trie_dict self) = Some (current_dict st) ->
  (Z.to_nat (len s + 1 - idx st) < fuel)%nat ->
  exists st',
    scan_loop self index_mapping s 0 inner_fuel fuel st = Ok st'
    /\ keywords_extracted st' = [(v, fst sp, snd sp)].
Proof.
  induction fuel as [|fuel IH]; intros st Hi Hs Hc He Hn Hf; [lia|].
  cbn [scan_loop]. replace (idx st <? len s) with true by (symmetry; apply Z.ltb_lt; lia).
  unfold scan_step.
  destruct (py_index_ok s (idx st)) as (ch & -> & Enth); [lia|]. simpl bind.
  destruct (is_boundary self ch) eqn:Hb.
  - destruct (at_boundary_registered ch st) as (st1 & -> & Ei & Ec & Ex); auto; try lia.
    simpl bind. cbn [fst snd]. rewrite Ei, Ec, root_no_term, Ex.
    replace (len s + 1 >=? len s) with true by (symmetry; apply Z.geb_le; lia).
    simpl bind.
    destruct fuel as [|fuel]; [lia|]. cbn [scan_loop idx].
    replace (len s + 1 <? len s) with false by (symmetry; apply Z.ltb_ge; lia).
    eexists; split; [reflexivity|reflexivity].
  - destruct (registered_child (idx st) (current_dict st) ch ltac:(lia) Hn Enth)
      as (sub & G & Nsub).
    unfold at_word_char. rewrite G. simpl bind. cbn [fst snd update idx current_dict
      keywords_extracted sequence_start_pos].
    destruct (idx st + 1 >=? len s) eqn:C.
    + apply Z.geb_le in C. assert (El : idx st + 1 = len s) by lia.
      rewrite El, substring_all in Nsub.
      pose proof registered as L. rewrite (lookup_at _ _ _ Nsub) in L.
      rewrite L, Hs, He. unfold append_match. rewrite whole_span. simpl bind.
      destruct fuel as [|fuel]; [lia|]. cbn [scan_loop idx].
      replace (idx st + 1 <? len s) with false by (symmetry; apply Z.ltb_ge; lia).
      eexists; split; [reflexivity|reflexivity].
    + rewrite Z.geb_leb in C. apply Z.leb_gt in C. simpl bind.
      apply IH; simpl; auto; try lia.
Qed.
End Registered.

Lemma fold_case_nil lower_at self : fold_case lower_at self [] = [].
Proof. unfold fold_case. now destruct (case_sensitive self). Qed.

Lemma extract_registered lower_at self q v :
  wf (keyword_trie_dict self) ->
  get_term (items (keyword_trie_dict self)) = None ->
  get_keyword lower_at self q = Some v ->
  extract_keywords lower_at self q false 0 = Ok [Keyword v].
Proof.
  intros W R G. unfold get_keyword in G. rewrite getitem_lookup in G.
  pose proof (lookup_truthy _ _ _ W G) as Tv.
  assert (Tq : truthy q = true).
  { destruct q; [|reflexivity]. rewrite fold_case_nil in G. simpl in G. congruence. }
  pose proof (fold_case_truthy lower_at self q Tq) as Ts.
  assert (Hl : 0 < len (fold_case lower_at self q)).
  { destruct (fold_case lower_at self q) as [|c0 l0]; [discriminate|].
    rewrite len_cons. pose proof (len_nonneg l0). lia. }
  destruct (span_indices_ok self (get_index_mapping q (case_sensitive self))
              (fold_case lower_at self q)
              (fun m => get_index_mapping_len lower_at self q m)
              0 (len (fold_case lower_at self q))) as (sp & Esp); [lia|lia|].
  pose proof (enough_fuel_outer lower_at self q) as Ho.
  assert (Hi : (Z.to_nat (len (fold_case lower_at self q))
                < enough_fuel lower_at self q)%nat)
    by (unfold enough_fuel, len; rewrite Nat2Z.id; nia).
  destruct (scan_registered self (get_index_mapping q (case_sensitive self))
              (fold_case lower_at self q) (enough_fuel lower_at self q) v sp
              R Hi G Tv Esp
              (enough_fuel lower_at self q) (initial_state self 0))
    as (st & E & Ex); simpl; auto; try lia.
  unfold extract_keywords, extract_keywords_fuel.
  rewrite Tq, E. simpl. now rewrite Ex.
Qed.

(** ** Removal *)

(** C4: removing a registered pattern returns [True] and makes its lookup
    absent; every other registered pattern, whether or not it shares a prefix
    with the removed one, keeps its value and is still extracted (from a
    sentence that is the pattern itself); removing a pattern that is not
    registered returns [False] and leaves the processor as it was. *)
Theorem remove_keyword_correct :
  forall lower_at self p,
    reachable lower_at self ->
    (__contains__ lower_at self p = true ->
     snd (remove_keyword lower_at self p) = true
     /\ get_keyword lower_at (fst (remove_keyword lower_at self p)) p = None
     /\ forall q v,
          fold_case lower_at self q <> fold_case lower_at self p ->
          get_keyword lower_at self q = Some v ->
          get_keyword lower_at (fst (remove_keyword lower_at self p)) q = Some v
          /\ extract_keywords lower_at (fst (remove_keyword lower_at self p)) q false 0
             = Ok [Keyword v])
    /\ (__contains__ lower_at self p = false ->
        remove_keyword lower_at self p = (self, false)).
Proof.
  intros lower_at self p Re.
  pose proof (remove_keyword_invariant lower_at self p
                (reachable_invariant lower_at self Re)) as (W' & R' & _).
  destruct (reachable_invariant lower_at self Re) as (W & R & _).
  rewrite contains_lookup. unfold get_keyword. split.
  - intros C.
    assert (Tp : truthy p = true).
    { destruct p; [|reflexivity]. rewrite fold_case_nil in C. simpl in C.
      now rewrite R in C. }
    assert (Ek : exists d flag,
      trie_remove (fold_case lower_at self p) (keyword_trie_dict self) = Some (d, flag)).
    { destruct (trie_remove _ _) as [[d flag]|] eqn:E; eauto.
      apply trie_remove_None in E. now rewrite E in C. }
    destruct Ek as (d & flag & E).
    destruct (trie_remove_spec _ _ _ _ W E) as (_ & L1 & L2 & _).
    assert (Er : remove_keyword lower_at self p
                 = (with_trie self d (_terms_in_trie self - 1), true))
      by (unfold remove_keyword, __delitem__; now rewrite Tp, E).
    rewrite Er in *. cbn [fst snd] in *.
    split; [reflexivity|]. split.
    + rewrite getitem_lookup, fold_case_with_trie. exact L1.
    + intros q v N G.
      assert (G' : __getitem__ lower_at (with_trie self d (_terms_in_trie self - 1)) q
                   = Some v).
      { rewrite getitem_lookup in *. rewrite fold_case_with_trie. cbn [keyword_trie_dict with_trie].
        now rewrite L2. }
      split; [exact G'|]. now apply extract_registered.
  - intros C. unfold remove_keyword, __delitem__.
    destruct (truthy p); [|reflexivity].
    destruct (trie_remove _ _) as [[d flag]|] eqn:E; [|reflexivity].
    assert (N : lookup (fold_case lower_at self p) (keyword_trie_dict self) = None)
      by (destruct (lookup _ _); [discriminate|reflexivity]).
    apply trie_remove_None in N. congruence.
Qed.

(** On the docstring processor: "NY" is removed, "new-york", which shares
    its first letter, stays and is extracted; removing "LA" does nothing. *)
Lemma remove_keyword_correct_witness :
  let self := docstring_processor in
  let self' := fst (remove_keyword ascii_lower_at self (of_string "NY")) in
  snd (remove_keyword ascii_lower_at self (of_string "NY")) = true
  /\ get_keyword ascii_lower_at self' (of_string "NY") = None
  /\ get_keyword ascii_lower_at self' (of_string "new-york") = Some (of_string "new york")
  /\ extract_keywords ascii_lower_at self' (of_string "new-york") false 0
     = Ok [Keyword (of_string "new york")]
  /\ remove_keyword ascii_lower_at self (of_string "LA") = (self, false).
Proof.
  intros self self'.
  destruct (remove_keyword_correct ascii_lower_at self (of_string "NY")
              docstring_processor_reachable) as (A & _).
  destruct (remove_keyword_correct ascii_lower_at self (of_string "LA")
              docstring_processor_reachable) as (_ & B).
  destruct (A eq_refl) as (A1 & A2 & A3).
  destruct (A3 (of_string "new-york") (of_string "new york")) as (A4 & A5).
  - vm_compute. discriminate.
  - reflexivity.
  - repeat split; auto.
Defined.

(** ** The examples of the docstrings *)

Example extract_keywords_big_apple :
  extract_keywords ascii_lower_at big_apple_processor
    (of_string "I love Big Apple and Bay Area.") false 0
  = Ok [Keyword (of_string "New York"); Keyword (of_string "Bay Area")].
Proof. reflexivity. Qed.

Example extract_keywords_big_aple_fuzzy :
  extract_keywords ascii_lower_at big_apple_processor
    (of_string "I love Big Aple and Baay Area.") false 1
  = Ok [Keyword (of_string "New York"); Keyword (of_string "Bay Area")].
Proof. reflexivity. Qed.

Example extract_keywords_big_apple_spans :
  extract_keywords ascii_lower_at big_apple_processor
    (of_string "I love Big Apple and Bay Area.") true 0
  = Ok [KeywordSpan (of_string "New York") 7 16;
        KeywordSpan (of_string "Bay Area") 21 29].
Proof. reflexivity. Qed.

Example get_next_word_big_apple :
  get_next_word (init false) (of_string "Big Apple") = of_string "Big".
Proof. reflexivity. Qed.

Example levensthein_maria :
  next (levensthein marie_processor (of_string "Maria") 1 None) (empty_dict, 0, 0)
  = (Dict [Term (of_string "Mary")], 1, 5).
Proof. reflexivity. Qed.

Example levensthein_mari :
  exists node,
    node_at (of_string "Marie") (keyword_trie_dict marie_blanc_processor) = Some node
    /\ next (levensthein marie_blanc_processor (of_string "Mari") 1 None)
         (empty_dict, 0, 0)
       = (node, 1, 5).
Proof. eexists. split; reflexivity. Qed.

Example get_all_keywords_j2ee :
  get_all_keywords j2ee_processor
  = [(of_string "j2ee", of_string "Java"); (of_string "python", of_string "Python")].
Proof. reflexivity. Qed.

Example remove_keyword_twice :
  let r := remove_keyword ascii_lower_at big_apple_processor (of_string "Big Apple") in
  snd r = true
  /\ snd (remove_keyword ascii_lower_at (fst r) (of_string "Big Apple")) = false.
Proof. split; reflexivity. Qed.

(** ** The scan does not read the case-sensitivity flag *)




Section CaseFlag.
Variable self : KeywordProcessor.
Variable index_mapping : option (list Z).
Variable sentence : str.
Variable max_cost : Z.
Variable inner_fuel : nat.







End CaseFlag.

(** ** The index mapping changes the reported spans and nothing else *)

Section Translated.
Variable self : KeywordProcessor.
Variable m : option (list Z).
Variable sentence : str.
Variable max_cost : Z.
Variable inner_fuel : nat.





End Translated.





(** * Further properties *)

(** ** Registration and lookup *)

(** X1: after [add_keyword(keyword, clean_name)] with a keyword and a clean
    name that are not empty, every word with the case-folded form of the
    keyword is contained and looks up to the clean name, every other word
    looks up to what it did, and the call returns [True] exactly when the
    keyword was not registered before. *)
Theorem add_keyword_then_lookup :
  forall lower_at self keyword clean_name,
    truthy keyword = true -> truthy clean_name = true ->
    let r := add_keyword lower_at self keyword (Some clean_name) in
    (forall w,
       fold_case lower_at self w = fold_case lower_at self keyword ->
       get_keyword lower_at (fst r) w = Some clean_name
       /\ __contains__ lower_at (fst r) w = true)
    /\ (forall w,
          fold_case lower_at self w <> fold_case lower_at self keyword ->
          get_keyword lower_at (fst r) w = get_keyword lower_at self w
          /\ __contains__ lower_at (fst r) w = __contains__ lower_at self w)
    /\ snd r = negb (__contains__ lower_at self keyword).
Proof.
  intros lower_at self keyword cn Tk Tc r. subst r.
  assert (G : forall w,
    get_keyword lower_at (fst (add_keyword lower_at self keyword (Some cn))) w
    = if str_eqb (fold_case lower_at self w) (fold_case lower_at self keyword)
      then Some cn else get_keyword lower_at self w).
  { intros w. unfold get_keyword. rewrite !getitem_lookup.
    rewrite add_keyword_some by assumption. cbn [fst].
    rewrite fold_case_with_trie. cbn [keyword_trie_dict with_trie].
    destruct (str_eqb _ _) eqn:E.
    - apply str_eqb_eq in E. rewrite E. apply trie_insert_lookup_same.
    - apply trie_insert_lookup_other. intros F. rewrite F, str_eqb_refl in E.
      discriminate. }
  split; [|split].
  - intros w E. rewrite contains_get, G, E, str_eqb_refl. split; reflexivity.
  - intros w N. rewrite !contains_get, G.
    destruct (str_eqb _ _) eqn:E; [apply str_eqb_eq in E; contradiction|].
    split; reflexivity.
  - now apply add_keyword_status.
Qed.

(** The docstring of [__getitem__], looked up in another case. *)
Lemma add_keyword_then_lookup_witness :
  let self := fst (add_keyword ascii_lower_at (init false) (of_string "Big Apple")
                     (Some (of_string "New York"))) in
  get_keyword ascii_lower_at self (of_string "BIG apple") = Some (of_string "New York")
  /\ get_keyword ascii_lower_at self (of_string "Big") = None.
Proof.
  destruct (add_keyword_then_lookup ascii_lower_at (init false) (of_string "Big Apple")
              (of_string "New York") eq_refl eq_refl) as (A & B & _).
  cbv zeta. split.
  - apply A. reflexivity.
  - destruct (B (of_string "Big")) as (B1 & _).
    + vm_compute. discriminate.
    + exact (eq_trans B1 eq_refl).
Defined.

(** ** No dictionary of the trie is left empty *)

Lemma truthy_set_child c t l : truthy (set_child c t l) = true.
Proof.
  destruct l as [|[c' t'|v] l]; simpl; auto. now destruct (char_eqb c' c).
Qed.

Lemma truthy_set_term v l : truthy (set_term v l) = true.
Proof. destruct l as [|[c' t'|v'] l]; reflexivity. Qed.

Lemma trie_insert_truthy k v d : truthy (items (fst (trie_insert k v d))) = true.
Proof.
  destruct k as [|c rest]; simpl.
  - apply truthy_set_term.
  - destruct (trie_insert rest v _) as [sub' st]. simpl. apply truthy_set_child.
Qed.

Lemma pruned_empty : pruned empty_dict.
Proof. constructor; intros c t []. Qed.

Lemma pruned_child c l t :
  pruned (Dict l) -> get_child c l = Some t -> truthy (items t) = true /\ pruned t.
Proof.
  intros P G. apply get_child_In in G. inversion P; subst. split; eauto.
Qed.

Lemma trie_insert_pruned k v : forall d, pruned d -> pruned (fst (trie_insert k v d)).
Proof.
  induction k as [|c rest IH]; intros [l] P; cbn [trie_insert items].
  - cbn [fst]. inversion P as [l0 Pn Pp]; subst. constructor.
    + intros c t Hin. apply In_set_term in Hin as [[=]|Hin]. eauto.
    + intros c t Hin. apply In_set_term in Hin as [[=]|Hin]. eauto.
  - set (sub := match get_child c l with Some s => s | None => empty_dict end).
    assert (Ps : pruned sub).
    { unfold sub. destruct (get_child c l) as [s|] eqn:G.
      - now apply (pruned_child c l s P G).
      - apply pruned_empty. }
    pose proof (IH sub Ps) as Pi. pose proof (trie_insert_truthy rest v sub) as Ti.
    destruct (trie_insert rest v sub) as [sub' st]. cbn [fst] in *.
    inversion P as [l0 Pn Pp]; subst. constructor.
    + intros c0 t Hin. apply In_set_child in Hin as [[= -> ->]|Hin]; eauto.
    + intros c0 t Hin. apply In_set_child in Hin as [[= -> ->]|Hin]; eauto.
Qed.

Lemma truthy_len {A} (l : list A) : truthy l = negb (len l =? 0).
Proof. destruct l; [reflexivity|]. rewrite len_cons. pose proof (len_nonneg l).
  symmetry. apply negb_true_iff. apply Z.eqb_neq. lia. Qed.

Lemma len_pop_term l v : get_term l = Some v -> len (pop_term l) = len l - 1.
Proof.
  induction l as [|[c t|v0] l IH]; cbn [get_term pop_term]; try discriminate.
  - intros G. rewrite !len_cons, IH by assumption. lia.
  - intros _. rewrite len_cons. lia.
Qed.

Lemma len_pop_child c l t : get_child c l = Some t -> len (pop_child c l) = len l - 1.
Proof.
  induction l as [|[c0 t0|v0] l IH]; cbn [get_child pop_child]; try discriminate.
  - case_char c0 c.
    + intros _. rewrite len_cons. lia.
    + intros G. rewrite !len_cons, IH by assumption. lia.
  - intros G. rewrite !len_cons, IH by assumption. lia.
Qed.

(** Removal keeps the dictionaries below the root non-empty; the flag says
    that the dictionary it returns has been emptied. *)
Lemma trie_remove_pruned k : forall d d' flag,
  pruned d -> trie_remove k d = Some (d', flag) ->
  pruned d' /\ flag = negb (truthy (items d')).
Proof.
  induction k as [|c rest IH]; intros [l] d' flag P R; cbn [trie_remove items] in R;
    inversion P as [l0 Pn Pp]; subst.
  - unfold has_keyword in R; cbn [items] in R.
    destruct (get_term l) as [v|] eqn:G; simpl in R; [|discriminate].
    injection R as <- <-. split.
    + constructor; intros c t Hin; apply In_pop_term in Hin; eauto.
    + cbn [items]. rewrite truthy_len, negb_involutive, (len_pop_term l v G).
      destruct (Z.eqb_spec (len l) 1), (Z.eqb_spec (len l - 1) 0); auto; lia.
  - destruct (get_child c l) as [sub|] eqn:G; [|discriminate].
    destruct (trie_remove rest sub) as [[sub' f]|] eqn:E; [|discriminate].
    destruct (pruned_child c l sub P G) as (Ts & Ps).
    destruct (IH sub sub' f Ps E) as (P' & F).
    destruct f; injection R as <- <-.
    + split.
      * constructor; intros c0 t Hin; apply In_pop_child in Hin; eauto.
      * cbn [items]. rewrite truthy_len, negb_involutive, (len_pop_child c l sub G).
        destruct (Z.eqb_spec (len l) 1), (Z.eqb_spec (len l - 1) 0); auto; lia.
    + symmetry in F. apply negb_false_iff in F. split.
      * constructor; intros c0 t Hin;
          apply In_set_child in Hin as [[= -> ->]|Hin]; eauto.
      * cbn [items]. now rewrite truthy_set_child.
Qed.

Section Pruned.
Variable lower_at : str -> nat -> char.

Lemma add_keyword_pruned self keyword clean_name :
  pruned (keyword_trie_dict self) ->
  pruned (keyword_trie_dict (fst (add_keyword lower_at self keyword clean_name))).
Proof.
  intros P.
  destruct (add_keyword_cases lower_at self keyword clean_name) as [->|(k & cn & ->)];
    [exact P|].
  cbn [fst keyword_trie_dict with_trie]. now apply trie_insert_pruned.
Qed.

Lemma remove_keyword_pruned self keyword :
  pruned (keyword_trie_dict self) ->
  pruned (keyword_trie_dict (fst (remove_keyword lower_at self keyword))).
Proof.
  intros P. unfold remove_keyword, __delitem__.
  destruct (truthy keyword); [|exact P].
  destruct (trie_remove _ _) as [[d f]|] eqn:E; [|exact P].
  cbn [fst keyword_trie_dict with_trie].
  now destruct (trie_remove_pruned _ _ _ _ P E).
Qed.

Lemma reachable_pruned self : reachable lower_at self -> pruned (keyword_trie_dict self).
Proof.
  induction 1; auto using add_keyword_pruned, remove_keyword_pruned, pruned_empty.
Qed.
End Pruned.

Lemma lookup_below p : forall d n s,
  node_at p d = Some n -> lookup (p ++ s) d = lookup s n.
Proof.
  induction p as [|c p IH]; intros d n s N; simpl in *.
  - now injection N as ->.
  - destruct (get_child c (items d)) as [sub|]; [|discriminate]. now apply IH.
Qed.

Lemma node_at_pruned p : forall d n,
  pruned d -> node_at p d = Some n -> p <> [] -> truthy (items n) = true /\ pruned n.
Proof.
  induction p as [|c p IH]; intros [l] n P N Hp; [congruence|].
  simpl in N. destruct (get_child c l) as [sub|] eqn:G; [|discriminate].
  destruct (pruned_child c l sub P G) as (Ts & Ps).
  destruct p as [|c' p'].
  - simpl in N. injection N as <-. auto.
  - apply (IH sub n Ps N). discriminate.
Qed.

(** A dictionary that is not empty, in a trie without empty dictionaries
    below it, has a registered pattern below it. *)
Lemma truthy_has_pattern d :
  wf d -> pruned d -> truthy (items d) = true -> exists s v, lookup s d = Some v.
Proof.
  induction d as [l IH] using trie_ind. intros W P T.
  destruct (get_term l) as [v|] eqn:G; [exists [], v; exact G|].
  destruct l as [|[c t|v] l']; [discriminate| |simpl in G; discriminate].
  assert (Hin : In (Child c t) (Child c t :: l')) by (left; reflexivity).
  inversion W as [l0 Wk Wt Wv Wc]; subst. inversion P as [l0 Pn Pp]; subst.
  destruct (IH c t Hin (Wc c t Hin) (Pp c t Hin) (Pn c t Hin)) as (s & v & L).
  exists (c :: s), v. simpl. now rewrite char_eqb_refl.
Qed.

(** X2: in a processor built by [add_keyword] and [remove_keyword] calls no
    branch of the trie is dead: every path of the trie that is not empty is
    the beginning of a registered pattern, which [get_all_keywords] lists. *)
Theorem trie_has_no_dead_branch :
  forall lower_at self path node,
    reachable lower_at self ->
    node_at path (keyword_trie_dict self) = Some node -> path <> [] ->
    truthy (items node) = true
    /\ exists rest v,
         lookup (path ++ rest) (keyword_trie_dict self) = Some v
         /\ In (path ++ rest, v) (get_all_keywords self).
Proof.
  intros lower_at self path node R N Hp.
  destruct (reachable_invariant lower_at self R) as (W & _ & _).
  pose proof (reachable_pruned lower_at self R) as P.
  destruct (node_at_pruned path _ node P N Hp) as (Tn & Pn).
  split; [exact Tn|].
  assert (Wn : wf node).
  { clear -W N. revert N W. generalize (keyword_trie_dict self) as d.
    induction path as [|c p IH]; intros [l] N W; simpl in N.
    - now injection N as <-.
    - destruct (get_child c l) as [sub|] eqn:G; [|discriminate].
      apply (IH sub N). eapply wf_child; eauto. }
  destruct (truthy_has_pattern node Wn Pn Tn) as (s & v & L).
  exists s, v. rewrite (lookup_below path _ node s N). split; [exact L|].
  destruct (get_all_keywords_spec self W) as (_ & I & _). apply I.
  now rewrite (lookup_below path _ node s N).
Qed.

(** On the docstring processor: the path "new-" goes on to "new-york". *)
Lemma trie_has_no_dead_branch_witness :
  exists node rest v,
    node_at (of_string "new-") (keyword_trie_dict docstring_processor) = Some node
    /\ truthy (items node) = true
    /\ lookup (of_string "new-" ++ rest) (keyword_trie_dict docstring_processor) = Some v.
Proof.
  destruct (node_at (of_string "new-") (keyword_trie_dict docstring_processor))
    as [node|] eqn:N; [|vm_compute in N; discriminate].
  destruct (trie_has_no_dead_branch ascii_lower_at docstring_processor
              (of_string "new-") node docstring_processor_reachable N)
    as (T & rest & v & L & _); [discriminate|].
  exists node, rest, v. auto.
Defined.

(** ** Registering a pattern and removing it again *)

Lemma pop_term_set_term v l : get_term l = None -> pop_term (set_term v l) = l.
Proof.
  induction l as [|[c t|v0] l IH]; cbn [get_term set_term pop_term];
    try discriminate; auto.
  intros G. now rewrite IH.
Qed.

Lemma len_set_term_fresh v l : get_term l = None -> len (set_term v l) = len l + 1.
Proof.
  induction l as [|[c t|v0] l IH]; cbn [get_term set_term]; try discriminate; auto.
  intros G. rewrite !len_cons, IH by assumption. lia.
Qed.

Lemma set_child_same c t l : get_child c l = Some t -> set_child c t l = l.
Proof.
  induction l as [|[c0 t0|v0] l IH]; cbn [get_child set_child]; try discriminate.
  - case_char c0 c.
    + now intros [= ->]; subst.
    + intros G. now rewrite IH.
  - intros G. now rewrite IH.
Qed.

Lemma set_child_twice c t t' l : set_child c t (set_child c t' l) = set_child c t l.
Proof.
  induction l as [|[c0 t0|v0] l IH]; cbn [set_child].
  - now rewrite char_eqb_refl.
  - case_char c0 c; cbn [set_child].
    + subst. now rewrite char_eqb_refl.
    + apply char_eqb_neq in E. rewrite E. now rewrite IH.
  - now rewrite IH.
Qed.

Lemma pop_child_set_child_fresh c t l :
  get_child c l = None -> pop_child c (set_child c t l) = l.
Proof.
  induction l as [|[c0 t0|v0] l IH]; cbn [get_child set_child pop_child].
  - now rewrite char_eqb_refl.
  - case_char c0 c; [discriminate|]. intros G. cbn [pop_child].
    apply char_eqb_neq in E. rewrite E. now rewrite IH.
  - intros G. now rewrite IH.
Qed.

Lemma len_set_child_fresh c t l :
  get_child c l = None -> len (set_child c t l) = len l + 1.
Proof.
  induction l as [|[c0 t0|v0] l IH]; cbn [get_child set_child]; auto.
  - case_char c0 c; [discriminate|]. intros G. rewrite !len_cons, IH by assumption. lia.
  - intros G. rewrite !len_cons, IH by assumption. lia.
Qed.

Lemma len_one_nil {A} (l : list A) : (len l + 1 =? 1) = negb (truthy l).
Proof.
  rewrite truthy_len, negb_involutive.
  destruct (Z.eqb_spec (len l + 1) 1), (Z.eqb_spec (len l) 0); auto; lia.
Qed.

(** Removing a pattern that has just been inserted, and was not there
    before, gives the trie back item for item. *)
Lemma trie_insert_remove k v : forall d,
  pruned d -> lookup k d = None ->
  trie_remove k (fst (trie_insert k v d)) = Some (d, negb (truthy (items d))).
Proof.
  induction k as [|c rest IH]; intros [l] P L; cbn [trie_insert items lookup] in *.
  - cbn [fst trie_remove items]. unfold has_keyword. cbn [items].
    rewrite get_term_set_term. cbn [isSome].
    now rewrite pop_term_set_term, len_set_term_fresh, len_one_nil by assumption.
  - set (sub := match get_child c l with Some s => s | None => empty_dict end).
    assert (Hs : pruned sub /\ lookup rest sub = None).
    { unfold sub. destruct (get_child c l) as [s|] eqn:G.
      - split; [now apply (pruned_child c l s P G)|exact L].
      - split; [apply pruned_empty|apply lookup_empty]. }
    destruct Hs as (Ps & Ls). pose proof (IH sub Ps Ls) as R.
    destruct (trie_insert rest v sub) as [sub' st]. cbn [fst] in *.
    cbn [trie_remove items]. rewrite get_child_set_child_same, R.
    unfold sub in *. destruct (get_child c l) as [s|] eqn:G.
    + destruct (pruned_child c l s P G) as (Ts & _). rewrite Ts. cbn [negb].
      rewrite set_child_twice, (set_child_same c s l G).
      destruct l; [discriminate|reflexivity].
    + cbn [negb truthy items empty_dict].
      now rewrite pop_child_set_child_fresh, len_set_child_fresh, len_one_nil
        by assumption.
Qed.

(** X3: in a processor built by [add_keyword] and [remove_keyword] calls,
    registering a pattern that was not registered and removing it again
    gives back the processor as it was, trie and count, and the removal
    returns [True]. *)
Theorem add_then_remove_restores :
  forall lower_at self keyword clean_name,
    reachable lower_at self ->
    truthy keyword = true -> truthy clean_name = true ->
    __contains__ lower_at self keyword = false ->
    remove_keyword lower_at
      (fst (add_keyword lower_at self keyword (Some clean_name))) keyword
    = (self, true).
Proof.
  intros lower_at self keyword cn R Tk Tc C.
  pose proof (reachable_pruned lower_at self R) as P.
  rewrite contains_lookup in C.
  assert (L : lookup (fold_case lower_at self keyword) (keyword_trie_dict self) = None)
    by (destruct (lookup _ _); [discriminate|reflexivity]).
  rewrite add_keyword_some by assumption. cbn [fst].
  rewrite trie_insert_status, L. cbn [isSome negb].
  unfold remove_keyword, __delitem__. rewrite Tk, fold_case_with_trie.
  cbn [keyword_trie_dict with_trie].
  rewrite (trie_insert_remove _ cn _ P L).
  destruct self; unfold with_trie; cbn. do 2 f_equal. lia.
Qed.

(** "LA" is registered in the docstring processor and removed again. *)
Lemma add_then_remove_restores_witness :
  remove_keyword ascii_lower_at
    (fst (add_keyword ascii_lower_at docstring_processor (of_string "LA")
            (Some (of_string "los angeles")))) (of_string "LA")
  = (docstring_processor, true).
Proof.
  apply (add_then_remove_restores ascii_lower_at docstring_processor);
    [apply docstring_processor_reachable|reflexivity|reflexivity|reflexivity].
Defined.

(** ** Exact extraction depends on the registered pairs only *)

Lemma node_at_wf p : forall d n, wf d -> node_at p d = Some n -> wf n.
Proof.
  induction p as [|c p IH]; intros [l] n W N; simpl in N.
  - now injection N as <-.
  - destruct (get_child c l) as [sub|] eqn:G; [|discriminate].
    apply (IH sub n); [eapply wf_child; eauto|exact N].
Qed.

Lemma lookup_node_at_prefix p : forall d s v,
  lookup (p ++ s) d = Some v -> exists n, node_at p d = Some n.
Proof.
  induction p as [|c p IH]; intros d s v L; simpl in *; eauto.
  destruct (get_child c (items d)) as [sub|]; [eauto|discriminate].
Qed.

Lemma same_lookup_node p d1 d2 n1 :
  wf d1 -> pruned d1 ->
  (forall k, lookup k d1 = lookup k d2) ->
  node_at p d1 = Some n1 ->
  exists n2, node_at p d2 = Some n2 /\ get_term (items n1) = get_term (items n2).
Proof.
  intros W P E N.
  assert (X : exists n2, node_at p d2 = Some n2).
  { destruct p as [|c p']; [simpl; eauto|].
    destruct (node_at_pruned (c :: p') d1 n1 P N) as (Tn & Pn); [discriminate|].
    destruct (truthy_has_pattern n1 (node_at_wf _ _ _ W N) Pn Tn) as (s & v & L).
    rewrite <- (lookup_below (c :: p') d1 n1 s N), E in L.
    eapply lookup_node_at_prefix; eauto. }
  destruct X as (n2 & N2). exists n2. split; [exact N2|].
  now rewrite <- (lookup_at p d1 n1 N), <- (lookup_at p d2 n2 N2).
Qed.

(** Two tries without empty dictionaries that hold the same patterns with
    the same clean names differ in the order of their items only. *)
Lemma same_lookup_sim d1 d2 :
  wf d1 -> pruned d1 -> wf d2 -> pruned d2 ->
  (forall k, lookup k d1 = lookup k d2) -> sim d1 d2.
Proof.
  intros W1 P1 W2 P2 E p. unfold kw_at.
  destruct (node_at p d1) as [n1|] eqn:N1.
  - destruct (same_lookup_node p d1 d2 n1 W1 P1 E N1) as (n2 & -> & G).
    simpl. now rewrite G.
  - destruct (node_at p d2) as [n2|] eqn:N2; [|reflexivity].
    destruct (same_lookup_node p d2 d1 n2 W2 P2 (fun k => eq_sym (E k)) N2)
      as (n1 & N1' & _). congruence.
Qed.

(** X4: two processors built by [add_keyword] and [remove_keyword] calls
    that have the same word characters and case sensitivity and for which
    [get_all_keywords] lists the same pairs, in whatever order and however
    they were built, extract the same matches from every sentence when no
    fuzzy budget is given. *)
Theorem exact_extraction_depends_on_pairs_only :
  forall lower_at self1 self2,
    reachable lower_at self1 -> reachable lower_at self2 ->
    non_word_boundaries self1 = non_word_boundaries self2 ->
    case_sensitive self1 = case_sensitive self2 ->
    (forall k v, In (k, v) (get_all_keywords self1)
                 <-> In (k, v) (get_all_keywords self2)) ->
    forall sentence span_info,
      extract_keywords lower_at self1 sentence span_info 0
      = extract_keywords lower_at self2 sentence span_info 0.
Proof.
  intros lower_at self1 self2 R1 R2 Nw Cs E sentence span_info.
  destruct (reachable_invariant lower_at self1 R1) as (W1 & _ & _).
  destruct (reachable_invariant lower_at self2 R2) as (W2 & _ & _).
  destruct (get_all_keywords_spec self1 W1) as (_ & I1 & _).
  destruct (get_all_keywords_spec self2 W2) as (_ & I2 & _).
  apply extract_keywords_sim. split; [exact Nw|]. split; [exact Cs|].
  apply same_lookup_sim;
    [exact W1|exact (reachable_pruned lower_at self1 R1)
    |exact W2|exact (reachable_pruned lower_at self2 R2)|].
  intros k.
  destruct (lookup k (keyword_trie_dict self1)) as [v|] eqn:L1.
  - symmetry. apply I2, E, I1. exact L1.
  - destruct (lookup k (keyword_trie_dict self2)) as [v|] eqn:L2; [|reflexivity].
    apply I2, E, I1 in L2. congruence.
Qed.

Lemma rebuilt_processor_reachable : reachable ascii_lower_at rebuilt_processor.
Proof. apply reach_remove. repeat apply reach_add. apply reach_init. Qed.

(** The docstring processor and the one rebuilt in another order. *)
Lemma exact_extraction_depends_on_pairs_only_witness :
  keyword_trie_dict docstring_processor <> keyword_trie_dict rebuilt_processor
  /\ extract_keywords ascii_lower_at docstring_processor docstring_sentence true 0
     = extract_keywords ascii_lower_at rebuilt_processor docstring_sentence true 0.
Proof.
  split; [vm_compute; discriminate|].
  apply (exact_extraction_depends_on_pairs_only ascii_lower_at).
  - apply docstring_processor_reachable.
  - apply rebuilt_processor_reachable.
  - reflexivity.
  - reflexivity.
  - intros k v. vm_compute. tauto.
Defined.

(** ** The next word *)

(** X5: [get_next_word] returns the longest beginning of the sentence made
    of word characters: the sentence starts with it, all its characters are
    in [non_word_boundaries], and the character after it, if any, is not. *)
Theorem get_next_word_longest_word_prefix :
  forall self sentence,
    let word := get_next_word self sentence in
    sentence = word ++ slice_from sentence (len word)
    /\ Forall (fun c => mem c (non_word_boundaries self) = true) word
    /\ forall c, nth_error sentence (length word) = Some c ->
                 mem c (non_word_boundaries self) = false.
Proof.
  intros self sentence. cbv zeta. unfold slice_from, len. rewrite Nat2Z.id.
  induction sentence as [|c rest IH]; cbn [get_next_word].
  - split; [reflexivity|]. split; [constructor|]. intros c; discriminate.
  - destruct (mem c (non_word_boundaries self)) eqn:M; cbn [negb].
    + destruct IH as (E & F & N). split; [|split].
      * cbn [length skipn app]. now rewrite <- E.
      * constructor; assumption.
      * exact N.
    + split; [reflexivity|]. split; [constructor|].
      intros c0 [= <-]. exact M.
Qed.

(** ** The shape of the index mapping *)

Lemma offsets_from_bounds s : forall idx,
  Forall (fun x => idx <= x < idx + len s) (offsets_from idx s).
Proof.
  induction s as [|c rest IH]; intros idx; cbn [offsets_from]; [constructor|].
  rewrite len_cons. pose proof (len_nonneg rest).
  assert (T : Forall (fun x => idx <= x < idx + (len rest + 1))
                (idx :: offsets_from (idx + 1) rest)).
  { constructor; [lia|]. eapply Forall_impl; [|apply (IH (idx + 1))].
    intros x Hx; simpl in Hx; lia. }
  destruct (char_eqb c _); [|exact T].
  constructor; [lia|exact T].
Qed.

Lemma offsets_from_sorted s : forall idx, StronglySorted Z.le (offsets_from idx s).
Proof.
  induction s as [|c rest IH]; intros idx; cbn [offsets_from]; [constructor|].
  assert (F : Forall (Z.le idx) (offsets_from (idx + 1) rest)).
  { eapply Forall_impl; [|apply (offsets_from_bounds rest (idx + 1))].
    intros x Hx; simpl in Hx; lia. }
  assert (T : StronglySorted Z.le (idx :: offsets_from (idx + 1) rest))
    by (constructor; [apply IH|exact F]).
  destruct (char_eqb c _); [|exact T].
  constructor; [exact T|]. constructor; [lia|exact F].
Qed.

Lemma count_occ_offsets_below s : forall idx x,
  x < idx -> count_occ Z.eq_dec (offsets_from idx s) x = O.
Proof.
  intros idx x Hx. apply count_occ_not_In. intros Hin.
  pose proof (offsets_from_bounds s idx) as F. rewrite Forall_forall in F.
  specialize (F x Hin). simpl in F. lia.
Qed.

Lemma count_occ_offsets s : forall idx k c,
  nth_error s k = Some c ->
  count_occ Z.eq_dec (offsets_from idx s) (idx + Z.of_nat k)
  = if char_eqb c LATIN_CAPITAL_LETTER_I_WITH_DOT_ABOVE then 2%nat else 1%nat.
Proof.
  induction s as [|c0 rest IH]; intros idx k c E; [destruct k; discriminate|].
  cbn [offsets_from]. rewrite count_occ_app. destruct k as [|k]; simpl in E.
  - injection E as ->. rewrite Z.add_0_r. rewrite count_occ_cons_eq by reflexivity.
    rewrite count_occ_offsets_below by lia.
    destruct (char_eqb c _); [|reflexivity].
    now rewrite count_occ_cons_eq by reflexivity.
  - rewrite count_occ_cons_neq by lia.
    replace (idx + Z.of_nat (S k)) with (idx + 1 + Z.of_nat k) by lia.
    rewrite (IH (idx + 1) k c E).
    destruct (char_eqb c0 _); [|reflexivity].
    now rewrite count_occ_cons_neq by lia.
Qed.

(** X6: the index mapping, when one is built, lists the indices of the
    original sentence in increasing order: every index of the sentence
    occurs in it, twice when the character there is U+0130 and once
    otherwise, and nothing else occurs. *)
Theorem index_mapping_lists_every_index :
  forall sentence case_sensitive m,
    get_index_mapping sentence case_sensitive = Some m ->
    StronglySorted Z.le m
    /\ (forall x, In x m <-> 0 <= x < len sentence)
    /\ forall k c,
         nth_error sentence k = Some c ->
         count_occ Z.eq_dec m (Z.of_nat k)
         = if char_eqb c LATIN_CAPITAL_LETTER_I_WITH_DOT_ABOVE then 2%nat else 1%nat.
Proof.
  intros sentence cs m E. unfold get_index_mapping in E.
  destruct (cs || _); [discriminate|]. injection E as <-.
  split; [apply offsets_from_sorted|]. split.
  - intros x. split.
    + intros Hin. pose proof (offsets_from_bounds sentence 0) as F.
      rewrite Forall_forall in F. specialize (F x Hin). simpl in F. lia.
    + intros Hx. apply (count_occ_In Z.eq_dec).
      destruct (nth_error sentence (Z.to_nat x)) as [c|] eqn:N.
      * pose proof (count_occ_offsets sentence 0 (Z.to_nat x) c N) as C.
        replace (0 + Z.of_nat (Z.to_nat x)) with x in C by lia.
        rewrite C. destruct (char_eqb c _); lia.
      * apply nth_error_None in N. unfold len in Hx. lia.
  - intros k c N. apply (count_occ_offsets sentence 0 k c N).
Qed.

(** The mapping of the sentence "İ NY". *)
Lemma index_mapping_lists_every_index_witness :
  exists m,
    get_index_mapping dotted_sentence false = Some m
    /\ m = [0; 0; 1; 2; 3]
    /\ StronglySorted Z.le m
    /\ count_occ Z.eq_dec m 0 = 2%nat.
Proof.
  destruct (index_mapping_lists_every_index dotted_sentence false [0; 0; 1; 2; 3] eq_refl)
    as (S & _ & C).
  exists [0; 0; 1; 2; 3]. split; [reflexivity|]. split; [reflexivity|].
  split; [exact S|]. exact (C 0%nat 304%N eq_refl).
Defined.

(** In "Big Apple" the next word is "Big" and the character after it is
    the space. *)
Lemma get_next_word_longest_word_prefix_witness :
  get_next_word (init false) (of_string "Big Apple") = of_string "Big"
  /\ mem 32%N (non_word_boundaries (init false)) = false.
Proof.
  destruct (get_next_word_longest_word_prefix (init false) (of_string "Big Apple"))
    as (_ & _ & N).
  split; [reflexivity|]. apply N. reflexivity.
Defined.

(** ** A sentence that is a registered pattern *)

Lemma lower_from_length_plain lower_at s0 rest : forall i,
  mem LATIN_CAPITAL_LETTER_I_WITH_DOT_ABOVE rest = false ->
  length (lower_from lower_at s0 i rest) = length rest.
Proof.
  induction rest as [|c rest IH]; intros i M; [reflexivity|].
  unfold mem in M. cbn [existsb] in M. apply orb_false_iff in M as (Mc & Mr).
  cbn [lower_from]. rewrite length_app, (IH (S i) Mr).
  unfold lower_piece.
  replace (char_eqb c LATIN_CAPITAL_LETTER_I_WITH_DOT_ABOVE) with false; [reflexivity|].
  rewrite <- Mc. unfold char_eqb. apply N.eqb_sym.
Qed.

Lemma offsets_from_last s : forall idx,
  s <> [] -> last (offsets_from idx s) 0 = idx + len s - 1.
Proof.
  induction s as [|c rest IH]; intros idx Hs; [congruence|].
  cbn [offsets_from]. rewrite len_cons.
  assert (T : last (idx :: offsets_from (idx + 1) rest) 0 = idx + (len rest + 1) - 1).
  { destruct rest as [|c' rest'].
    - cbn [offsets_from last]. unfold len. cbn [length]. lia.
    - assert (Ne : offsets_from (idx + 1) (c' :: rest') <> []).
      { cbn [offsets_from]. destruct (char_eqb c' _); discriminate. }
      destruct (offsets_from (idx + 1) (c' :: rest')) as [|x l] eqn:O; [congruence|].
      change (last (idx :: x :: l) 0) with (last (x :: l) 0).
      rewrite <- O, IH by discriminate. lia. }
  destruct (char_eqb c _); [|exact T].
  change ([idx] ++ idx :: offsets_from (idx + 1) rest)
    with (idx :: idx :: offsets_from (idx + 1) rest).
  change (last (idx :: idx :: offsets_from (idx + 1) rest) 0)
    with (last (idx :: offsets_from (idx + 1) rest) 0).
  exact T.
Qed.

Lemma nth_last {A} (l : list A) (d : A) : nth (length l - 1) l d = last l d.
Proof.
  induction l as [|a [|b l] IH]; try reflexivity.
  change (last (a :: b :: l) d) with (last (b :: l) d). rewrite <- IH.
  cbn [length]. replace (S (S (length l)) - 1)%nat with (S (S (length l) - 1)) by lia.
  reflexivity.
Qed.

(** The span of the whole scanned sentence is the whole original sentence. *)
Lemma whole_span_indices lower_at self q :
  truthy q = true ->
  _get_span_indices 0 (len (fold_case lower_at self q))
    (get_index_mapping q (case_sensitive self))
  = Ok (0, len q).
Proof.
  intros Tq. unfold get_index_mapping, fold_case.
  destruct (case_sensitive self); [reflexivity|]. cbn [orb].
  destruct (mem LATIN_CAPITAL_LETTER_I_WITH_DOT_ABOVE q) eqn:M; cbn [negb].
  - assert (Lm : len (offsets_from 0 q) = len (lower lower_at q))
      by (unfold len, lower;
          now rewrite (offsets_from_length lower_at q q 0%nat 0)).
    pose proof (lower_truthy lower_at q Tq) as Tl.
    assert (Hl : 0 < len (lower lower_at q)).
    { destruct (lower lower_at q) as [|c0 l0]; [discriminate|].
      rewrite len_cons. pose proof (len_nonneg l0). lia. }
    unfold _get_span_indices.
    rewrite (py_index_nth _ 0 0), (py_index_nth _ (len (lower lower_at q) - 1) 0) by lia.
    cbn [bind]. f_equal. f_equal.
    + destruct q as [|c rest]; [discriminate|]. cbn [offsets_from].
      destruct (char_eqb c _); reflexivity.
    + rewrite <- Lm. unfold len at 1.
      replace (Z.to_nat (Z.of_nat (length (offsets_from 0 q)) - 1))
        with (length (offsets_from 0 q) - 1)%nat by lia.
      rewrite nth_last, offsets_from_last by (destruct q; [discriminate|congruence]).
      lia.
  - unfold _get_span_indices, lower, len.
    now rewrite (lower_from_length_plain lower_at q q 0%nat M).
Qed.

(** X7: in a processor built by [add_keyword] and [remove_keyword] calls,
    extracting from a sentence that is itself a registered pattern (in any
    case, when the processor is case insensitive) returns that one match,
    its clean name with the span of the whole original sentence, also when
    other registered patterns are beginnings of it. *)
Theorem registered_pattern_extracted_whole :
  forall lower_at self q v,
    reachable lower_at self ->
    get_keyword lower_at self q = Some v ->
    extract_keywords lower_at self q true 0 = Ok [KeywordSpan v 0 (len q)]
    /\ extract_keywords lower_at self q false 0 = Ok [Keyword v].
Proof.
  intros lower_at self q v Re G.
  destruct (reachable_invariant lower_at self Re) as (W & R & _).
  split; [|now apply extract_registered].
  unfold get_keyword in G. rewrite getitem_lookup in G.
  pose proof (lookup_truthy _ _ _ W G) as Tv.
  assert (Tq : truthy q = true).
  { destruct q; [|reflexivity]. rewrite fold_case_nil in G. simpl in G. congruence. }
  assert (Hi : (Z.to_nat (len (fold_case lower_at self q))
                < enough_fuel lower_at self q)%nat)
    by (unfold enough_fuel, len; rewrite Nat2Z.id; nia).
  pose proof (fold_case_truthy lower_at self q Tq) as Ts.
  pose proof (enough_fuel_outer lower_at self q) as Ho.
  assert (Hl : 0 < len (fold_case lower_at self q)).
  { destruct (fold_case lower_at self q) as [|c0 l0]; [discriminate|].
    rewrite len_cons. pose proof (len_nonneg l0). lia. }
  destruct (scan_registered self (get_index_mapping q (case_sensitive self))
              (fold_case lower_at self q) (enough_fuel lower_at self q) v (0, len q)
              R Hi G Tv (whole_span_indices lower_at self q Tq)
              (enough_fuel lower_at self q) (initial_state self 0))
    as (st & E & Ex); [simpl; auto; try lia ..|].
  unfold extract_keywords, extract_keywords_fuel.
  rewrite Tq, E. simpl. now rewrite Ex.
Qed.

(** "new-york" in the docstring processor, which also holds "NY". *)
Lemma registered_pattern_extracted_whole_witness :
  extract_keywords ascii_lower_at docstring_processor (of_string "New-York") true 0
  = Ok [KeywordSpan (of_string "new york") 0 8].
Proof.
  apply (registered_pattern_extracted_whole ascii_lower_at docstring_processor
           (of_string "New-York") (of_string "new york")
           docstring_processor_reachable eq_refl).
Defined.

(** ** Bulk registration *)

Section BulkFacts.
Variable lower_at : str -> nat -> char.

Lemma add_keyword_lookup self k v q :
  lookup q (keyword_trie_dict (fst (add_keyword lower_at self k (Some v))))
  = if truthy k && truthy v && str_eqb q (fold_case lower_at self k)
    then Some v else lookup q (keyword_trie_dict self).
Proof.
  destruct (truthy k && truthy v) eqn:T; cbn [andb].
  - apply andb_true_iff in T as (Tk & Tv).
    rewrite add_keyword_some by assumption. cbn [fst keyword_trie_dict with_trie].
    destruct (str_eqb q _) eqn:E.
    + apply str_eqb_eq in E. subst q. apply trie_insert_lookup_same.
    + apply trie_insert_lookup_other. intros F. rewrite F, str_eqb_refl in E.
      discriminate.
  - now rewrite add_keyword_noop.
Qed.

Lemma add_pairs_case_sensitive pairs : forall self,
  case_sensitive (add_pairs lower_at self pairs) = case_sensitive self.
Proof.
  induction pairs as [|kv pairs IH]; intros self; [reflexivity|].
  change (add_pairs lower_at self (kv :: pairs))
    with (add_pairs lower_at
            (fst (add_keyword lower_at self (fst kv) (Some (snd kv)))) pairs).
  rewrite IH. apply add_keyword_case_sensitive.
Qed.

Lemma registered_by_cons fold kv pairs q before :
  registered_by fold (kv :: pairs) q before
  = registered_by fold pairs q
      (if truthy (fst kv) && truthy (snd kv) && str_eqb q (fold (fst kv))
       then Some (snd kv) else before).
Proof. reflexivity. Qed.

Lemma registered_by_ext f g pairs q : forall before,
  (forall w, f w = g w) -> registered_by f pairs q before = registered_by g pairs q before.
Proof.
  induction pairs as [|kv pairs IH]; intros before E; [reflexivity|].
  rewrite !registered_by_cons, E. now apply IH.
Qed.

Lemma add_pairs_cons kv pairs self :
  add_pairs lower_at self (kv :: pairs)
  = add_pairs lower_at (fst (add_keyword lower_at self (fst kv) (Some (snd kv)))) pairs.
Proof. reflexivity. Qed.

Lemma add_pairs_lookup pairs : forall self q,
  lookup q (keyword_trie_dict (add_pairs lower_at self pairs))
  = registered_by (fold_case lower_at self) pairs q (lookup q (keyword_trie_dict self)).
Proof.
  induction pairs as [|kv pairs IH]; intros self q; [reflexivity|].
  rewrite add_pairs_cons, registered_by_cons, IH, add_keyword_lookup.
  apply (registered_by_ext _ _ pairs q). intros w.
  apply fold_case_ext, add_keyword_case_sensitive.
Qed.

Lemma registered_by_none fold pairs q before :
  (forall kv, In kv pairs -> q <> fold (fst kv)) ->
  registered_by fold pairs q before = before.
Proof.
  revert before. induction pairs as [|kv pairs IH]; intros before H; [reflexivity|].
  rewrite registered_by_cons.
  assert (E : str_eqb q (fold (fst kv)) = false).
  { destruct (str_eqb q (fold (fst kv))) eqn:E; [|reflexivity].
    apply str_eqb_eq in E. exfalso. apply (H kv); [now left|exact E]. }
  rewrite E, andb_false_r. apply IH. intros kv' Hin. apply H. now right.
Qed.

Lemma registered_by_last fold pairs k v before :
  truthy k = true -> truthy v = true ->
  (forall kv, In kv pairs -> fold k <> fold (fst kv)) ->
  registered_by fold ((k, v) :: pairs) (fold k) before = Some v.
Proof.
  intros Tk Tv H. rewrite registered_by_cons. cbn [fst snd].
  rewrite Tk, Tv, str_eqb_refl. cbn [andb].
  now apply (registered_by_none fold pairs (fold k) (Some v)).
Qed.

Lemma registered_by_In fold pairs : forall k v before,
  NoDup (map (fun kv => fold (fst kv)) pairs) ->
  In (k, v) pairs -> truthy k = true -> truthy v = true ->
  registered_by fold pairs (fold k) before = Some v.
Proof.
  induction pairs as [|[k0 v0] pairs IH]; intros k v before N Hin Tk Tv; [destruct Hin|].
  cbn [map fst] in N. inversion N as [|x l Nin N']; subst.
  destruct Hin as [[= -> ->]|Hin].
  - apply registered_by_last; auto. intros kv Hkv E. apply Nin.
    rewrite E. apply in_map_iff. exists kv. auto.
  - rewrite registered_by_cons. now apply IH.
Qed.

Lemma registered_by_app fold l1 l2 q before :
  registered_by fold (l1 ++ l2) q before
  = registered_by fold l2 q (registered_by fold l1 q before).
Proof. unfold registered_by. apply fold_left_app. Qed.

(** Either no pair gives [q] a value, or the last pair that does is in the
    list. *)
Lemma registered_by_cases fold pairs q before :
  (registered_by fold pairs q before = before
   /\ forall kv, In kv pairs ->
        truthy (fst kv) && truthy (snd kv) && str_eqb q (fold (fst kv)) = false)
  \/ exists k v,
       In (k, v) pairs /\ truthy k = true /\ truthy v = true /\ q = fold k
       /\ registered_by fold pairs q before = Some v.
Proof.
  induction pairs as [|[k0 v0] pairs IH] using rev_ind.
  - left. split; [reflexivity|]. intros kv [].
  - rewrite registered_by_app, registered_by_cons. cbn [fst snd].
    change (registered_by fold [] q ?x) with x.
    destruct (truthy k0 && truthy v0 && str_eqb q (fold k0)) eqn:C.
    + right. apply andb_true_iff in C as (C & E). apply andb_true_iff in C as (Tk & Tv).
      apply str_eqb_eq in E. exists k0, v0. rewrite in_app_iff. simpl. auto 6.
    + destruct IH as [(E & N)|(k & v & Hin & Tk & Tv & Eq & E)].
      * left. split; [exact E|]. intros kv Hin.
        apply in_app_iff in Hin as [Hin|[<-|[]]]; auto.
      * right. exists k, v. rewrite in_app_iff. auto 6.
Qed.

Lemma add_keyword_none_some self keyword :
  fst (add_keyword lower_at self keyword None)
  = fst (add_keyword lower_at self keyword (Some keyword)).
Proof.
  rewrite add_keyword_none. destruct (truthy keyword) eqn:T; [reflexivity|].
  rewrite add_keyword_noop; [reflexivity|]. now rewrite T.
Qed.

Lemma add_keywords_from_list_pairs ks : forall self,
  add_keywords_from_list lower_at self ks
  = add_pairs lower_at self (map (fun k => (k, k)) ks).
Proof.
  induction ks as [|k ks IH]; intros self; [reflexivity|].
  cbn [map]. rewrite add_pairs_cons. cbn [fst snd]. rewrite <- IH.
  unfold add_keywords_from_list. cbn [fold_left]. now rewrite add_keyword_none_some.
Qed.

Lemma add_pairs_app l1 l2 self :
  add_pairs lower_at self (l1 ++ l2) = add_pairs lower_at (add_pairs lower_at self l1) l2.
Proof. unfold add_pairs. apply fold_left_app. Qed.

Lemma add_all_pairs ks cn : forall self,
  add_all lower_at self ks cn = add_pairs lower_at self (map (fun k => (k, cn)) ks).
Proof.
  induction ks as [|k ks IH]; intros self; [reflexivity|].
  cbn [map]. rewrite add_pairs_cons. cbn [fst snd]. rewrite <- IH. reflexivity.
Qed.

Lemma add_entries_pairs entries : forall self,
  add_entries lower_at self entries = add_pairs lower_at self (entry_pairs entries).
Proof.
  induction entries as [|[cn ks] entries IH]; intros self; [reflexivity|].
  unfold add_entries in *. cbn [fold_left entry_pairs flat_map fst snd].
  rewrite add_pairs_app, <- add_all_pairs. apply IH.
Qed.

Lemma get_keyword_lookup self w :
  get_keyword lower_at self w
  = lookup (fold_case lower_at self w) (keyword_trie_dict self).
Proof. unfold get_keyword. apply getitem_lookup. Qed.

Lemma add_pairs_get self pairs w :
  get_keyword lower_at (add_pairs lower_at self pairs) w
  = registered_by (fold_case lower_at self) pairs (fold_case lower_at self w)
      (get_keyword lower_at self w).
Proof.
  rewrite !get_keyword_lookup, add_pairs_lookup.
  now rewrite (fold_case_ext lower_at self (add_pairs lower_at self pairs) w
                 (add_pairs_case_sensitive pairs self)).
Qed.
End BulkFacts.

(** X8: after [add_keywords_from_list], every keyword of the list that is
    not empty is registered, with as clean name a keyword of the list that
    has the same case-folded form (itself when the processor is case
    sensitive), and every word that folds to none of the keywords looks up
    as it did. *)
Theorem add_keywords_from_list_registers :
  forall lower_at self keyword_list,
    let self' := add_keywords_from_list lower_at self keyword_list in
    (forall k, In k keyword_list -> truthy k = true ->
       exists k',
         In k' keyword_list
         /\ fold_case lower_at self k' = fold_case lower_at self k
         /\ get_keyword lower_at self' k = Some k')
    /\ (case_sensitive self = true ->
        forall k, In k keyword_list -> truthy k = true ->
                  get_keyword lower_at self' k = Some k)
    /\ (forall w,
          (forall k, In k keyword_list ->
                     fold_case lower_at self w <> fold_case lower_at self k) ->
          get_keyword lower_at self' w = get_keyword lower_at self w).
Proof.
  intros lower_at self ks self'. subst self'.
  rewrite add_keywords_from_list_pairs.
  assert (S : forall k, In k ks -> truthy k = true ->
    exists k',
      In k' ks /\ fold_case lower_at self k' = fold_case lower_at self k
      /\ get_keyword lower_at (add_pairs lower_at self (map (fun k => (k, k)) ks)) k
         = Some k').
  { intros k Hin Tk. rewrite add_pairs_get.
    destruct (registered_by_cases (fold_case lower_at self) (map (fun k => (k, k)) ks)
                (fold_case lower_at self k) (get_keyword lower_at self k))
      as [(_ & N)|(k' & v' & Hin' & Tk' & Tv' & Eq & E)].
    - specialize (N (k, k)). cbn [fst snd] in N.
      rewrite Tk, str_eqb_refl in N. discriminate N.
      apply in_map_iff. exists k. auto.
    - apply in_map_iff in Hin' as (x & [= <- <-] & Hx).
      exists x. auto. }
  split; [exact S|]. split.
  - intros Cs k Hin Tk. destruct (S k Hin Tk) as (k' & _ & E & G).
    unfold fold_case in E. rewrite Cs in E. now subst k'.
  - intros w N. rewrite add_pairs_get. apply registered_by_none.
    intros kv Hin. apply in_map_iff in Hin as (x & <- & Hx). apply N. exact Hx.
Qed.

(** "java" and "Python" registered from a list, in a case-insensitive
    processor. *)
Lemma add_keywords_from_list_registers_witness :
  let self' := add_keywords_from_list ascii_lower_at (init false)
                 [of_string "java"; of_string "Python"] in
  (exists k', get_keyword ascii_lower_at self' (of_string "Python") = Some k')
  /\ get_keyword ascii_lower_at self' (of_string "c++") = None.
Proof.
  destruct (add_keywords_from_list_registers ascii_lower_at (init false)
              [of_string "java"; of_string "Python"]) as (A & _ & C).
  cbv zeta. split.
  - destruct (A (of_string "Python")) as (k' & _ & _ & G);
      [right; left; reflexivity|reflexivity|].
    exists k'. exact G.
  - refine (eq_trans (C (of_string "c++") _) eq_refl).
    intros k [<-|[<-|[]]]; vm_compute; discriminate.
Defined.

(** X9: [add_keywords_from_dict] on a dictionary whose values are all lists
    and whose keywords have pairwise distinct case-folded forms returns
    normally; every keyword then looks up to the key of its entry (keyword
    and key not empty), and every word that folds to none of the keywords
    looks up as it did. *)
Theorem add_keywords_from_dict_registers :
  forall lower_at self entries,
    NoDup (map (fun kv => fold_case lower_at self (fst kv)) (entry_pairs entries)) ->
    let r := add_keywords_from_dict lower_at self (list_entries entries) in
    snd r = Ok tt
    /\ (forall clean_name keywords keyword,
          In (clean_name, keywords) entries -> In keyword keywords ->
          truthy keyword = true -> truthy clean_name = true ->
          get_keyword lower_at (fst r) keyword = Some clean_name)
    /\ (forall w,
          (forall k, In k (entry_keywords entries) ->
                     fold_case lower_at self w <> fold_case lower_at self k) ->
          get_keyword lower_at (fst r) w = get_keyword lower_at self w).
Proof.
  intros lower_at self entries N r. subst r.
  rewrite <- (app_nil_r (list_entries entries)), add_keywords_from_dict_app.
  cbn [add_keywords_from_dict fst snd]. rewrite add_entries_pairs.
  split; [reflexivity|]. split.
  - intros cn ks k He Hk Tk Tc. rewrite add_pairs_get.
    apply registered_by_In; auto.
    unfold entry_pairs. apply in_flat_map. exists (cn, ks). split; [exact He|].
    cbn [fst snd]. apply in_map_iff. exists k. auto.
  - intros w H. rewrite add_pairs_get. apply registered_by_none.
    intros [k v] Hin. cbn [fst]. apply H.
    unfold entry_pairs in Hin. apply in_flat_map in Hin as ([cn ks] & He & Hm).
    cbn [fst snd] in Hm. apply in_map_iff in Hm as (x & [= <- <-] & Hx).
    unfold entry_keywords. apply in_flat_map. exists (cn, ks). auto.
Qed.

(** The dictionary of the docstring. *)
Lemma add_keywords_from_dict_registers_witness :
  let r := add_keywords_from_dict ascii_lower_at (init false) (list_entries java_entries) in
  snd r = Ok tt
  /\ get_keyword ascii_lower_at (fst r) (of_string "PM")
     = Some (of_string "product management").
Proof.
  assert (N : NoDup (map (fun kv => fold_case ascii_lower_at (init false) (fst kv))
                       (entry_pairs java_entries))).
  { vm_compute. repeat constructor; simpl; intuition discriminate. }
  destruct (add_keywords_from_dict_registers ascii_lower_at (init false) java_entries N)
    as (A & B & _).
  cbv zeta. split; [exact A|].
  refine (eq_trans (B (of_string "product management")
                      [of_string "PM"; of_string "product manager"] (of_string "PM")
                      _ _ eq_refl eq_refl) eq_refl).
  - right; left; reflexivity.
  - left; reflexivity.
Defined.

(** ** Bulk removal *)

Section BulkRemovalFacts.
Variable lower_at : str -> nat -> char.

Lemma remove_keyword_lookup self p q :
  invariant self ->
  lookup q (keyword_trie_dict (fst (remove_keyword lower_at self p)))
  = if str_eqb q (fold_case lower_at self p) then None
    else lookup q (keyword_trie_dict self).
Proof.
  intros (W & R & _). unfold remove_keyword, __delitem__.
  destruct (truthy p) eqn:Tp.
  - destruct (trie_remove _ _) as [[d f]|] eqn:E; cbn [fst keyword_trie_dict with_trie].
    + destruct (trie_remove_spec _ _ _ _ W E) as (_ & L1 & L2 & _).
      destruct (str_eqb q _) eqn:C.
      * apply str_eqb_eq in C. now subst q.
      * apply L2. intros F. rewrite F, str_eqb_refl in C. discriminate.
    + apply trie_remove_None in E.
      destruct (str_eqb q _) eqn:C; [|reflexivity].
      apply str_eqb_eq in C. now subst q.
  - destruct p; [|discriminate]. rewrite fold_case_nil. cbn [fst].
    destruct q; [exact R|reflexivity].
Qed.

Lemma remove_all_cons k ks self :
  remove_all lower_at self (k :: ks)
  = remove_all lower_at (fst (remove_keyword lower_at self k)) ks.
Proof. reflexivity. Qed.

Lemma remove_all_app l1 l2 self :
  remove_all lower_at self (l1 ++ l2)
  = remove_all lower_at (remove_all lower_at self l1) l2.
Proof. unfold remove_all. apply fold_left_app. Qed.

Lemma existsb_same {A} (f g : A -> bool) l :
  (forall x, f x = g x) -> existsb f l = existsb g l.
Proof. intros E. induction l as [|a l IH]; simpl; [reflexivity|]. now rewrite E, IH. Qed.

Lemma remove_all_lookup ks : forall self q,
  invariant self ->
  lookup q (keyword_trie_dict (remove_all lower_at self ks))
  = if existsb (fun k => str_eqb q (fold_case lower_at self k)) ks then None
    else lookup q (keyword_trie_dict self).
Proof.
  induction ks as [|k ks IH]; intros self q I; [reflexivity|].
  rewrite remove_all_cons, IH by now apply remove_keyword_invariant.
  rewrite remove_keyword_lookup by assumption. cbn [existsb].
  replace (existsb (fun k0 => str_eqb q
             (fold_case lower_at (fst (remove_keyword lower_at self k)) k0)) ks)
    with (existsb (fun k0 => str_eqb q (fold_case lower_at self k0)) ks).
  - destruct (str_eqb q (fold_case lower_at self k)); cbn [orb]; [|reflexivity].
    now destruct (existsb _ ks).
  - apply existsb_same. intros k0. f_equal. symmetry.
    apply fold_case_ext, remove_keyword_case_sensitive.
Qed.

Lemma remove_all_case_sensitive ks : forall self,
  case_sensitive (remove_all lower_at self ks) = case_sensitive self.
Proof.
  induction ks as [|k ks IH]; intros self; [reflexivity|].
  rewrite remove_all_cons, IH. apply remove_keyword_case_sensitive.
Qed.

Lemma remove_all_len ks : forall self,
  __len__ (remove_all lower_at self ks) <= __len__ self.
Proof.
  induction ks as [|k ks IH]; intros self; [apply Z.le_refl|].
  rewrite remove_all_cons. specialize (IH (fst (remove_keyword lower_at self k))).
  rewrite remove_keyword_len in IH.
  destruct (snd (remove_keyword lower_at self k)); lia.
Qed.

Lemma remove_all_reachable ks : forall self,
  reachable lower_at self -> reachable lower_at (remove_all lower_at self ks).
Proof.
  induction ks as [|k ks IH]; intros self R; [exact R|].
  rewrite remove_all_cons. apply IH. now apply reach_remove.
Qed.

Lemma add_pairs_reachable pairs : forall self,
  reachable lower_at self -> reachable lower_at (add_pairs lower_at self pairs).
Proof.
  induction pairs as [|kv pairs IH]; intros self R; [exact R|].
  rewrite add_pairs_cons. apply IH. now apply reach_add.
Qed.

Lemma remove_keywords_from_dict_app entries rest : forall self,
  remove_keywords_from_dict lower_at self (list_entries entries ++ rest)
  = remove_keywords_from_dict lower_at
      (remove_all lower_at self (entry_keywords entries)) rest.
Proof.
  induction entries as [|[cn ks] entries IH]; intros self; [reflexivity|].
  cbn [list_entries map app fst snd remove_keywords_from_dict entry_keywords flat_map].
  rewrite remove_all_app. apply IH.
Qed.

Lemma existsb_fold_eq self ks q :
  existsb (fun k => str_eqb q (fold_case lower_at self k)) ks = true
  <-> exists k, In k ks /\ q = fold_case lower_at self k.
Proof.
  rewrite existsb_exists. split; intros (k & Hin & E); exists k; split; auto;
    now apply str_eqb_eq.
Qed.

Lemma remove_all_get self ks w :
  invariant self ->
  get_keyword lower_at (remove_all lower_at self ks) w
  = if existsb (fun k => str_eqb (fold_case lower_at self w) (fold_case lower_at self k)) ks
    then None else get_keyword lower_at self w.
Proof.
  intros I. rewrite !get_keyword_lookup.
  rewrite (fold_case_ext lower_at self (remove_all lower_at self ks) w
             (remove_all_case_sensitive ks self)).
  now apply remove_all_lookup.
Qed.
End BulkRemovalFacts.

(** X10: in a processor built by [add_keyword] and [remove_keyword] calls,
    after [remove_keywords_from_list] no keyword of the list is registered,
    every word that folds to none of them looks up as it did, and the count
    has not grown. *)
Theorem remove_keywords_from_list_unregisters :
  forall lower_at self keyword_list,
    reachable lower_at self ->
    let self' := remove_keywords_from_list lower_at self keyword_list in
    (forall k, In k keyword_list ->
       get_keyword lower_at self' k = None /\ __contains__ lower_at self' k = false)
    /\ (forall w,
          (forall k, In k keyword_list ->
                     fold_case lower_at self w <> fold_case lower_at self k) ->
          get_keyword lower_at self' w = get_keyword lower_at self w)
    /\ __len__ self' <= __len__ self.
Proof.
  intros lower_at self ks R self'. subst self'. unfold remove_keywords_from_list.
  pose proof (reachable_invariant lower_at self R) as I.
  split; [|split].
  - intros k Hin.
    assert (G : get_keyword lower_at (remove_all lower_at self ks) k = None).
    { rewrite remove_all_get by assumption.
      replace (existsb _ ks) with true; [reflexivity|].
      symmetry. apply existsb_fold_eq. exists k. auto. }
    split; [exact G|]. now rewrite contains_get, G.
  - intros w N. rewrite remove_all_get by assumption.
    destruct (existsb _ ks) eqn:X; [|reflexivity].
    apply existsb_fold_eq in X as (k & Hin & E). now elim (N k Hin).
  - apply remove_all_len.
Qed.

(** "NY" and "sf" removed from the docstring processor; "new-york" stays. *)
Lemma remove_keywords_from_list_unregisters_witness :
  let self' := remove_keywords_from_list ascii_lower_at docstring_processor
                 [of_string "NY"; of_string "sf"] in
  get_keyword ascii_lower_at self' (of_string "SF") = None
  /\ get_keyword ascii_lower_at self' (of_string "new-york") = Some (of_string "new york").
Proof.
  destruct (remove_keywords_from_list_unregisters ascii_lower_at docstring_processor
              [of_string "NY"; of_string "sf"] docstring_processor_reachable)
    as (A & B & _).
  cbv zeta. split.
  - refine (eq_trans (proj1 (A (of_string "sf") _)) eq_refl).
    right; left; reflexivity.
  - refine (eq_trans (B (of_string "new-york") _) eq_refl).
    intros k [<-|[<-|[]]]; vm_compute; discriminate.
Defined.

(** X11: [remove_keywords_from_dict] raises [AttributeError] at the first
    entry, in iteration order, whose value is not a list; the keywords of
    the entries before it have been removed by then and stay removed, and
    the other words, those of the later entries among them, look up as they
    did.  When every value is a list the call returns normally with the
    keywords of all entries removed; the keys of the dictionary play no
    role. *)
Theorem remove_keywords_from_dict_stops_at_first_non_list :
  forall lower_at self before clean_name after,
    reachable lower_at self ->
    let r := remove_keywords_from_dict lower_at self
               (list_entries before ++ (clean_name, VOther) :: after) in
    r = (remove_keywords_from_list lower_at self (entry_keywords before),
         Raise AttributeError)
    /\ (forall k, In k (entry_keywords before) ->
                  get_keyword lower_at (fst r) k = None)
    /\ (forall w,
          (forall k, In k (entry_keywords before) ->
                     fold_case lower_at self w <> fold_case lower_at self k) ->
          get_keyword lower_at (fst r) w = get_keyword lower_at self w)
    /\ remove_keywords_from_dict lower_at self (list_entries before)
       = (remove_keywords_from_list lower_at self (entry_keywords before), Ok tt).
Proof.
  intros lower_at self before cn after R r. subst r.
  rewrite remove_keywords_from_dict_app. cbn [remove_keywords_from_dict fst].
  pose proof (reachable_invariant lower_at self R) as I.
  unfold remove_keywords_from_list.
  split; [reflexivity|]. split; [|split].
  - intros k Hin. rewrite remove_all_get by assumption.
    replace (existsb _ (entry_keywords before)) with true; [reflexivity|].
    symmetry. apply existsb_fold_eq. exists k. auto.
  - intros w N. rewrite remove_all_get by assumption.
    destruct (existsb _ (entry_keywords before)) eqn:X; [|reflexivity].
    apply existsb_fold_eq in X as (k & Hin & E). now elim (N k Hin).
  - rewrite <- (app_nil_r (list_entries before)), remove_keywords_from_dict_app.
    reflexivity.
Qed.

(** A dictionary whose second value is not a list: "NY" of the first entry
    is removed, "SF" of the third is not. *)
Lemma remove_keywords_from_dict_stops_at_first_non_list_witness :
  let r := remove_keywords_from_dict ascii_lower_at docstring_processor
             (list_entries [(of_string "new york", [of_string "NY"])]
              ++ (of_string "x", VOther)
                 :: [(of_string "san francisco", VList [of_string "SF"])]) in
  snd r = Raise AttributeError
  /\ get_keyword ascii_lower_at (fst r) (of_string "NY") = None
  /\ get_keyword ascii_lower_at (fst r) (of_string "SF") = Some (of_string "san francisco").
Proof.
  destruct (remove_keywords_from_dict_stops_at_first_non_list ascii_lower_at
              docstring_processor [(of_string "new york", [of_string "NY"])]
              (of_string "x") [(of_string "san francisco", VList [of_string "SF"])]
              docstring_processor_reachable)
    as (A & B & C & _).
  cbv zeta. split; [|split].
  - exact (f_equal snd A).
  - refine (eq_trans (B (of_string "NY") _) eq_refl). left; reflexivity.
  - refine (eq_trans (C (of_string "SF") _) eq_refl).
    intros k [<-|[]]; vm_compute; discriminate.
Defined.

(** ** Loading a dictionary and removing it again *)

Section LoadUnload.
Variable lower_at : str -> nat -> char.

Lemma remove_keyword_boundaries self k :
  non_word_boundaries (fst (remove_keyword lower_at self k)) = non_word_boundaries self.
Proof.
  unfold remove_keyword, __delitem__. destruct (truthy k); [|reflexivity].
  destruct (trie_remove _ _) as [[d f]|]; reflexivity.
Qed.

Lemma remove_all_boundaries ks : forall self,
  non_word_boundaries (remove_all lower_at self ks) = non_word_boundaries self.
Proof.
  induction ks as [|k ks IH]; intros self; [reflexivity|].
  rewrite remove_all_cons, IH. apply remove_keyword_boundaries.
Qed.

Lemma add_pairs_boundaries pairs : forall self,
  non_word_boundaries (add_pairs lower_at self pairs) = non_word_boundaries self.
Proof.
  induction pairs as [|kv pairs IH]; intros self; [reflexivity|].
  rewrite add_pairs_cons, IH.
  now destruct (add_keyword_effect lower_at self (fst kv) (Some (snd kv))) as (_ & N & _).
Qed.

Lemma entry_pairs_keywords entries kv :
  In kv (entry_pairs entries) -> In (fst kv) (entry_keywords entries).
Proof.
  unfold entry_pairs, entry_keywords. rewrite !in_flat_map.
  intros ([cn ks] & He & Hm). cbn [fst snd] in Hm.
  apply in_map_iff in Hm as (x & <- & Hx). exists (cn, ks). auto.
Qed.

(** Two processors with the same lookups have the same count. *)
Lemma same_lookup_len self1 self2 :
  invariant self1 -> invariant self2 ->
  (forall q, lookup q (keyword_trie_dict self1) = lookup q (keyword_trie_dict self2)) ->
  __len__ self1 = __len__ self2.
Proof.
  intros (W1 & _ & C1) (W2 & _ & C2) E.
  destruct (get_all_keywords_spec self1 W1) as (N1 & I1 & L1).
  destruct (get_all_keywords_spec self2 W2) as (N2 & I2 & L2).
  unfold __len__. rewrite C1, C2, <- L1, <- L2. unfold len. f_equal.
  apply Permutation_length. apply NoDup_Permutation.
  - eapply NoDup_map_inv; eauto.
  - eapply NoDup_map_inv; eauto.
  - intros [k v]. rewrite I1, I2, E. reflexivity.
Qed.
End LoadUnload.

(** X12: in a processor built by [add_keyword] and [remove_keyword] calls,
    loading a dictionary of lists none of whose keywords was registered and
    removing the same dictionary again returns normally and leaves a
    processor with the lookups, the count and, without fuzzy budget, the
    extraction results it had before. *)
Theorem add_then_remove_keywords_from_dict :
  forall lower_at self entries,
    reachable lower_at self ->
    (forall k, In k (entry_keywords entries) -> __contains__ lower_at self k = false) ->
    let added := fst (add_keywords_from_dict lower_at self (list_entries entries)) in
    let r := remove_keywords_from_dict lower_at added (list_entries entries) in
    snd r = Ok tt
    /\ (forall w, get_keyword lower_at (fst r) w = get_keyword lower_at self w)
    /\ __len__ (fst r) = __len__ self
    /\ forall sentence span_info,
         extract_keywords lower_at (fst r) sentence span_info 0
         = extract_keywords lower_at self sentence span_info 0.
Proof.
  intros lower_at self entries R Fresh added r. subst r added.
  assert (Ea : add_keywords_from_dict lower_at self (list_entries entries)
               = (add_pairs lower_at self (entry_pairs entries), Ok tt)).
  { rewrite <- (app_nil_r (list_entries entries)), add_keywords_from_dict_app.
    cbn [add_keywords_from_dict]. now rewrite add_entries_pairs. }
  rewrite Ea. cbn [fst].
  set (added := add_pairs lower_at self (entry_pairs entries)).
  assert (Er : remove_keywords_from_dict lower_at added (list_entries entries)
               = (remove_all lower_at added (entry_keywords entries), Ok tt)).
  { rewrite <- (app_nil_r (list_entries entries)), remove_keywords_from_dict_app.
    reflexivity. }
  rewrite Er. cbn [fst snd].
  set (final := remove_all lower_at added (entry_keywords entries)).
  assert (Ra : reachable lower_at added) by now apply add_pairs_reachable.
  assert (Rf : reachable lower_at final) by now apply remove_all_reachable.
  assert (Cs : case_sensitive final = case_sensitive self).
  { unfold final, added.
    now rewrite remove_all_case_sensitive, add_pairs_case_sensitive. }
  assert (E : forall q, lookup q (keyword_trie_dict final)
                        = lookup q (keyword_trie_dict self)).
  { intros q. unfold final.
    rewrite remove_all_lookup by exact (reachable_invariant lower_at added Ra).
    replace (existsb (fun k => str_eqb q (fold_case lower_at added k))
               (entry_keywords entries))
      with (existsb (fun k => str_eqb q (fold_case lower_at self k))
              (entry_keywords entries)).
    - destruct (existsb _ (entry_keywords entries)) eqn:X.
      + apply existsb_fold_eq in X as (k & Hin & ->).
        specialize (Fresh k Hin). rewrite contains_lookup in Fresh.
        destruct (lookup _ _); [discriminate|reflexivity].
      + unfold added. rewrite add_pairs_lookup. apply registered_by_none.
        intros kv Hin F.
        assert (Y : existsb (fun k => str_eqb q (fold_case lower_at self k))
                      (entry_keywords entries) = true).
        { apply existsb_fold_eq. exists (fst kv).
          split; [now apply entry_pairs_keywords|exact F]. }
        congruence.
    - apply existsb_same. intros k. f_equal. symmetry. apply fold_case_ext.
      apply add_pairs_case_sensitive. }
  split; [reflexivity|]. split; [|split].
  - intros w.
    rewrite (get_keyword_lookup lower_at final w), (get_keyword_lookup lower_at self w),
      (fold_case_ext lower_at self final w Cs).
    apply E.
  - apply same_lookup_len;
      [exact (reachable_invariant lower_at final Rf)
      |exact (reachable_invariant lower_at self R)|exact E].
  - intros sentence span_info. apply extract_keywords_sim.
    split; [|split].
    + unfold final, added. now rewrite remove_all_boundaries, add_pairs_boundaries.
    + exact Cs.
    + destruct (reachable_invariant lower_at final Rf) as (Wf & _ & _).
      destruct (reachable_invariant lower_at self R) as (W & _ & _).
      apply same_lookup_sim;
        [exact Wf|exact (reachable_pruned lower_at final Rf)
        |exact W|exact (reachable_pruned lower_at self R)|exact E].
Qed.

(** The dictionary of the docstring, loaded into the docstring processor and
    removed again. *)
Lemma add_then_remove_keywords_from_dict_witness :
  let added := fst (add_keywords_from_dict ascii_lower_at docstring_processor
                      (list_entries java_entries)) in
  let r := remove_keywords_from_dict ascii_lower_at added (list_entries java_entries) in
  snd r = Ok tt /\ __len__ (fst r) = __len__ docstring_processor.
Proof.
  destruct (add_then_remove_keywords_from_dict ascii_lower_at docstring_processor
              java_entries docstring_processor_reachable) as (A & _ & L & _).
  - intros k Hin. vm_compute in Hin.
    destruct Hin as [<-|[<-|[<-|[<-|[]]]]]; reflexivity.
  - cbv zeta. split; [exact A|exact L].
Defined.

(** ** What the fuzzy search yields *)

Lemma lev_nonneg a b : forall i j, 0 <= lev a b i j.
Proof.
  induction i as [|i IH]; intros j; [simpl; lia|].
  induction j as [|j IHj]; [rewrite lev_S_O; lia|].
  rewrite lev_S. unfold min3. pose proof (IH (S j)). pose proof (IH j).
  destruct (char_eqb _ _); lia.
Qed.

(** A trail of the depth-first walk spells a path of the trie that ends at
    its last node. *)
Lemma preorder_path d : forall tr,
  wf d -> In tr (preorder d) ->
  node_at (map fst tr) d = Some (snd (last tr (0%N, empty_dict))).
Proof.
  induction d as [l IH] using trie_ind. intros tr W. rewrite preorder_Dict.
  rewrite in_flat_map. intros ([c t|v] & Hin & Htr); [|destruct Htr].
  inversion W as [l0 Wk Wt Wv Wc]; subst.
  pose proof (In_child_get_child l c t Wk Hin) as G.
  destruct Htr as [<-|Htr].
  - cbn [map fst node_at items last snd]. now rewrite G.
  - apply in_map_iff in Htr as (tr' & <- & Hin').
    pose proof (preorder_nonempty t tr' Hin') as Ne.
    cbn [map fst node_at items]. rewrite G.
    rewrite (IH c t Hin tr' (Wc c t Hin) Hin').
    destruct tr'; [congruence|reflexivity].
Qed.

Lemma yielded_from_accepted self word k : forall tr base,
  yielded_from self word k base tr = true ->
  accepted self word k (base ++ map fst tr) (snd (last tr (0%N, empty_dict))) = true.
Proof.
  induction tr as [|[c n] tr IH]; intros base Y; [discriminate|].
  destruct tr as [|x tr].
  - exact Y.
  - rewrite yielded_from_cons in Y. apply andb_true_iff in Y as (_ & Y).
    specialize (IH (base ++ [c]) Y). rewrite <- app_assoc in IH. exact IH.
Qed.

Lemma yielded_cost_bounds word path k :
  path <> [] -> edit_distance path word <= k ->
  0 <= yielded_cost word path <= k.
Proof.
  intros Np Hk. unfold yielded_cost. destruct word as [|c w].
  - unfold edit_distance in Hk. simpl length in Hk. rewrite lev_O_r in Hk.
    destruct path; [congruence|]. simpl length in Hk. lia.
  - pose proof (lev_nonneg path (c :: w) (length path) (length (c :: w))).
    unfold edit_distance in *. lia.
Qed.

(** A result of the fuzzy search is a dictionary below the start node, at a
    cost between [0] and the budget. *)
Lemma levensthein_results self word max_cost start_node node cost depth :
  wf (start_node_of self start_node) ->
  In (node, cost, depth) (levensthein self word max_cost start_node) ->
  (exists path, node_at path (start_node_of self start_node) = Some node)
  /\ 0 <= cost <= max_cost.
Proof.
  intros W Hin.
  rewrite levensthein_spec in Hin. apply in_map_iff in Hin as (tr & E & Hf).
  apply filter_In in Hf as (Hp & Y).
  pose proof (preorder_nonempty _ tr Hp) as Ne.
  pose proof (yielded_from_accepted self word max_cost tr [] Y) as A.
  cbn [app] in A. unfold accepted in A. apply andb_true_iff in A as (Hd & _).
  apply Z.leb_le in Hd.
  unfold result_of in E. cbn [app] in E. injection E as <- <- _.
  split; [exists (map fst tr); now apply preorder_path|].
  apply yielded_cost_bounds; [destruct tr; [congruence|discriminate]|exact Hd].
Qed.

(** X13: every result [(node, cost, depth)] of the fuzzy search in a trie
    whose dictionaries have no repeated key is the end of a path of [depth]
    characters from the start node, [depth >= 1]; the edit distance of the
    path to the word is within the budget; the node is terminal or goes on
    with one of the white-space characters; and the yielded cost is that
    distance ([0] when the word is empty), between [0] and the budget. *)
Theorem levensthein_yields_paths_within_budget :
  forall self word max_cost start_node node cost depth,
    wf (start_node_of self start_node) ->
    In (node, cost, depth) (levensthein self word max_cost start_node) ->
    exists path,
      node_at path (start_node_of self start_node) = Some node
      /\ depth = len path /\ 1 <= depth
      /\ edit_distance path word <= max_cost
      /\ stop_crit self node = true
      /\ cost = yielded_cost word path
      /\ 0 <= cost <= max_cost.
Proof.
  intros self word k start_node node cost depth W Hin.
  rewrite levensthein_spec in Hin. apply in_map_iff in Hin as (tr & E & Hf).
  apply filter_In in Hf as (Hp & Y).
  pose proof (preorder_nonempty _ tr Hp) as Ne.
  pose proof (preorder_path _ tr W Hp) as N.
  pose proof (yielded_from_accepted self word k tr [] Y) as A.
  cbn [app] in A. unfold accepted in A. apply andb_true_iff in A as (Hd & Hs).
  apply Z.leb_le in Hd.
  unfold result_of in E. cbn [app] in E. injection E as <- <- <-.
  assert (Nm : map fst tr <> []) by (destruct tr; [congruence|discriminate]).
  exists (map fst tr). split; [exact N|].
  split; [unfold len; rewrite length_map; simpl; lia|].
  split; [destruct tr; [congruence|]; rewrite len_cons; cbn [len length];
          pose proof (len_nonneg tr); unfold len; simpl; lia|].
  split; [exact Hd|]. split; [exact Hs|]. split; [reflexivity|].
  now apply yielded_cost_bounds.
Qed.

(** The docstring example: "Maria" against "Marie". *)
Lemma levensthein_yields_paths_within_budget_witness :
  exists path,
    node_at path (keyword_trie_dict marie_processor) = Some (Dict [Term (of_string "Mary")])
    /\ edit_distance path (of_string "Maria") <= 1.
Proof.
  assert (W : wf (start_node_of marie_processor None)).
  { assert (R : reachable ascii_lower_at marie_processor)
      by (apply reach_add, reach_init).
    now destruct (reachable_invariant ascii_lower_at marie_processor R). }
  assert (Hin : In (Dict [Term (of_string "Mary")], 1, 5)
                  (levensthein marie_processor (of_string "Maria") 1 None))
    by (vm_compute; left; reflexivity).
  destruct (levensthein_yields_paths_within_budget marie_processor (of_string "Maria")
              1 None (Dict [Term (of_string "Mary")]) 1 5 W Hin)
    as (path & N & _ & _ & D & _).
  exists path. split; assumption.
Defined.

(** ** Extraction with a fuzzy budget stays within the trie and the budget *)

Section Sound.
Variable self : KeywordProcessor.
Variable index_mapping : option (list Z).
Variable sentence : str.
Variable max_cost : Z.
Hypothesis root_wf : wf (keyword_trie_dict self).

Lemma in_trie_root : in_trie (keyword_trie_dict self) (keyword_trie_dict self).
Proof. now exists []. Qed.

Lemma in_trie_wf node : in_trie (keyword_trie_dict self) node -> wf node.
Proof. intros (p & N). eapply node_at_wf; eauto. Qed.

Lemma in_trie_term node v :
  in_trie (keyword_trie_dict self) node -> get_term (items node) = Some v ->
  registered_value (keyword_trie_dict self) v.
Proof. intros (p & N) G. exists p. now rewrite (lookup_at p _ _ N). Qed.

Lemma in_trie_child node c sub :
  in_trie (keyword_trie_dict self) node -> get_child c (items node) = Some sub ->
  in_trie (keyword_trie_dict self) sub.
Proof. intros (p & N) G. exists (p ++ [c]). eapply node_at_snoc; eauto. Qed.

(** What the fuzzy search started at a dictionary of the trie gives. *)
Lemma fuzzy_step_sound word k cd default :
  in_trie (keyword_trie_dict self) cd -> 0 <= k ->
  let found := next (levensthein self word k (Some cd)) (default, 0, 0) in
  0 <= snd (fst found) <= k
  /\ (fst (fst found) = default \/ in_trie (keyword_trie_dict self) (fst (fst found))).
Proof.
  intros T Hk found.
  destruct (next_cases (levensthein self word k (Some cd)) (default, 0, 0)) as [E|E];
    fold found in E.
  - rewrite E. cbn [fst snd]. split; [lia|now left].
  - destruct found as [[n c] d]. cbn [fst snd].
    assert (W : wf (start_node_of self (Some cd))).
    { cbn [start_node_of]. destruct (truthy (items cd)); [now apply in_trie_wf|exact root_wf]. }
    destruct (levensthein_results self word k (Some cd) n c d W E)
      as ((path & N) & B).
    split; [exact B|]. right. cbn [start_node_of] in N.
    destruct (truthy (items cd)).
    + destruct T as (p & Np). exists (p ++ path). now rewrite node_at_app, Np.
    + now exists path.
Qed.

Lemma found_longer_sound st :
  lookahead_sound (keyword_trie_dict self) max_cost st ->
  in_trie (keyword_trie_dict self) (current_dict_continued st) ->
  lookahead_sound (keyword_trie_dict self) max_cost (found_longer st).
Proof.
  intros (Hc & Hv) T. split; [exact Hc|]. cbn [found_longer longest_sequence_found].
  intros v G. eapply in_trie_term; eauto.
Qed.

Lemma lookahead_step_sound st ctl st' :
  lookahead_sound (keyword_trie_dict self) max_cost st ->
  in_trie (keyword_trie_dict self) (current_dict_continued st) ->
  lookahead_step self sentence st = Ok (ctl, st') ->
  lookahead_sound (keyword_trie_dict self) max_cost st'
  /\ la_curr_cost st' <= la_curr_cost st
  /\ (ctl = Continue -> in_trie (keyword_trie_dict self) (current_dict_continued st')).
Proof.
  intros S T E. unfold lookahead_step in E.
  destruct (py_index sentence (idy st)) as [ch|e|]; cbn [bind] in E; try discriminate.
  set (st1 := if is_boundary self ch && has_keyword (current_dict_continued st)
              then found_longer st else st) in E.
  assert (S1 : lookahead_sound (keyword_trie_dict self) max_cost st1
               /\ in_trie (keyword_trie_dict self) (current_dict_continued st1)
               /\ la_curr_cost st1 = la_curr_cost st).
  { unfold st1. destruct (_ && _); [|auto].
    split; [now apply found_longer_sound|]. split; [exact T|reflexivity]. }
  destruct S1 as ((Hc & Hv) & T1 & Ek). clearbody st1.
  destruct (get_child ch (items (current_dict_continued st1))) as [sub|] eqn:G.
  - injection E as <- <-. cbn. split; [split; assumption|]. split; [lia|].
    intros _. eapply in_trie_child; eauto.
  - destruct (la_curr_cost st1 >? 0) eqn:C.
    + apply Z.gtb_lt in C.
      destruct (fuzzy_step_sound
                  (get_next_word self (slice_from sentence (idy st1)))
                  (la_curr_cost st1) (current_dict_continued st1) empty_dict T1
                  ltac:(lia)) as (B & N).
      set (found := next (levensthein self
                            (get_next_word self (slice_from sentence (idy st1)))
                            (la_curr_cost st1) (Some (current_dict_continued st1)))
                      (empty_dict, 0, 0)) in *.
      destruct (truthy (items (fst (fst found)))) eqn:Tf; cbn [negb] in E;
        injection E as <- <-; cbn.
      * split; [split; [intros H0; specialize (Hc H0); cbn; lia|exact Hv]|].
        split; [lia|]. intros _. destruct N as [N|N]; [|exact N].
        rewrite N in Tf. discriminate.
      * split; [split; [intros H0; specialize (Hc H0); cbn; lia|exact Hv]|].
        split; [lia|discriminate].
    + injection E as <- <-. split; [split; assumption|]. split; [lia|discriminate].
Qed.

Lemma lookahead_sound_loop : forall fuel st st',
  lookahead_sound (keyword_trie_dict self) max_cost st ->
  in_trie (keyword_trie_dict self) (current_dict_continued st) ->
  lookahead self sentence fuel st = Ok st' ->
  lookahead_sound (keyword_trie_dict self) max_cost st'
  /\ la_curr_cost st' <= la_curr_cost st.
Proof.
  induction fuel as [|fuel IH]; intros st st' S T E; [discriminate|].
  cbn [lookahead] in E. destruct (idy st <? len sentence).
  - destruct (lookahead_step self sentence st) as [[ctl st1]|e|] eqn:L;
      cbn [bind fst snd] in E; try discriminate.
    destruct (lookahead_step_sound st ctl st1 S T L) as (S1 & C1 & T1).
    destruct ctl.
    + destruct (IH st1 st' S1 (T1 eq_refl) E) as (S' & C'). split; [exact S'|lia].
    + injection E as <-. split; [exact S1|exact C1].
  - injection E as <-. destruct (has_keyword (current_dict_continued st)).
    + split; [now apply found_longer_sound|cbn; lia].
    + split; [exact S|lia].
Qed.

Lemma append_match_value ext v a b ext' :
  append_match index_mapping ext v a b = Ok ext' ->
  exists a' b', ext' = ext ++ [(v, a', b')].
Proof.
  unfold append_match.
  destruct (_get_span_indices a b index_mapping) as [[a' b']|e|]; cbn [bind];
    try discriminate.
  intros [= <-]. eauto.
Qed.

Lemma append_match_sound ext v a b ext' :
  Forall (fun m => registered_value (keyword_trie_dict self) (fst (fst m))) ext ->
  registered_value (keyword_trie_dict self) v ->
  append_match index_mapping ext v a b = Ok ext' ->
  Forall (fun m => registered_value (keyword_trie_dict self) (fst (fst m))) ext'.
Proof.
  intros F R E. apply append_match_value in E as (a' & b' & ->).
  apply Forall_app. split; [exact F|]. constructor; [exact R|constructor].
Qed.

Lemma at_boundary_sound inner_fuel ch st st' b :
  scan_sound (keyword_trie_dict self) max_cost st ->
  at_boundary self index_mapping sentence max_cost inner_fuel ch st = Ok (st', b) ->
  scan_sound (keyword_trie_dict self) max_cost st'.
Proof.
  intros (Hc & T & F) E. unfold at_boundary in E.
  destruct (has_keyword (current_dict st) || has_child ch (current_dict st));
    [|injection E as <- <-; cbn; split; [exact Hc|split; [apply in_trie_root|exact F]]].
  set (longest0 := if has_keyword (current_dict st)
                   then get_term (items (current_dict st)) else None) in E.
  set (end0 := if has_keyword (current_dict st) then idx st else sequence_end_pos st) in E.
  assert (S0 : forall i cd,
    lookahead_sound (keyword_trie_dict self) max_cost
      {| idy := i; current_dict_continued := cd; la_curr_cost := curr_cost st;
         longest_sequence_found := longest0; la_sequence_end_pos := end0;
         is_longer_seq_found := false |}).
  { intros i cd. split; [exact Hc|]. cbn. unfold longest0. intros v G.
    destruct (has_keyword (current_dict st)); [|discriminate].
    eapply in_trie_term; eauto. }
  match type of E with
  | bind ?m _ = _ => destruct m as [la|e|] eqn:L
  end; cbn [bind] in E; try discriminate.
  assert (Sl : lookahead_sound (keyword_trie_dict self) max_cost la).
  { destruct (get_child ch (items (current_dict st))) as [sub|] eqn:G.
    - eapply lookahead_sound_loop; [apply S0| |exact L]. cbn.
      eapply in_trie_child; eauto.
    - injection L as <-. apply S0. }
  destruct Sl as (Hcl & Hvl).
  assert (D : forall i e,
    scan_sound (keyword_trie_dict self) max_cost
      (update st i (keyword_trie_dict self) e (la_curr_cost la) (keywords_extracted st))).
  { intros i e. split; [exact Hcl|]. split; [apply in_trie_root|exact F]. }
  destruct (longest_sequence_found la) as [v|] eqn:Lf;
    [|injection E as <- <-; apply D].
  destruct (truthy v); [|injection E as <- <-; apply D].
  match type of E with
  | bind ?m _ = _ => destruct m as [ext|e|] eqn:A
  end; cbn [bind] in E; try discriminate.
  injection E as <- <-. split; [cbn; intros H0; lia|].
  split; [apply in_trie_root|]. cbn.
  eapply append_match_sound; [exact F| |exact A]. now apply Hvl.
Qed.

Lemma at_word_char_sound ch st :
  scan_sound (keyword_trie_dict self) max_cost st ->
  scan_sound (keyword_trie_dict self) max_cost (fst (at_word_char self sentence ch st)).
Proof.
  intros (Hc & T & F). unfold at_word_char.
  destruct (get_child ch (items (current_dict st))) as [sub|] eqn:G.
  - cbn. split; [exact Hc|]. split; [eapply in_trie_child; eauto|exact F].
  - destruct (curr_cost st >? 0) eqn:C.
    + apply Z.gtb_lt in C.
      destruct (fuzzy_step_sound
                  (get_next_word self (slice_from sentence (idx st)))
                  (curr_cost st) (current_dict st) (keyword_trie_dict self) T
                  ltac:(lia)) as (B & N).
      cbn [fst]. split; [|split].
      * intros H0. specialize (Hc H0). cbn [update curr_cost]. lia.
      * cbn [update current_dict]. destruct N as [->|N]; [apply in_trie_root|exact N].
      * exact F.
    + cbn. split; [exact Hc|]. split; [apply in_trie_root|exact F].
Qed.

Lemma scan_step_sound inner_fuel st st' :
  scan_sound (keyword_trie_dict self) max_cost st ->
  scan_step self index_mapping sentence max_cost inner_fuel st = Ok st' ->
  scan_sound (keyword_trie_dict self) max_cost st'.
Proof.
  intros S E. unfold scan_step in E.
  destruct (py_index sentence (idx st)) as [ch|e|]; cbn [bind] in E; try discriminate.
  match type of E with
  | bind ?m _ = _ => destruct m as [[st1 reset]|e|] eqn:B
  end; cbn [bind fst snd] in E; try discriminate.
  assert (S1 : scan_sound (keyword_trie_dict self) max_cost st1).
  { destruct (is_boundary self ch).
    - eapply at_boundary_sound; eauto.
    - injection B as B.
      replace st1 with (fst (at_word_char self sentence ch st)) by now rewrite B.
      now apply at_word_char_sound. }
  destruct S1 as (Hc & T & F).
  match type of E with
  | bind ?m _ = _ => destruct m as [ext|e|] eqn:X
  end; cbn [bind] in E; try discriminate.
  injection E as <-. split; [exact Hc|]. split; [exact T|]. cbn.
  destruct (idx st1 + 1 >=? len sentence); [|now injection X as <-].
  destruct (get_term (items (current_dict st1))) as [v|] eqn:G; [|now injection X as <-].
  eapply append_match_sound; [exact F| |exact X]. eapply in_trie_term; eauto.
Qed.

Lemma scan_loop_sound inner_fuel : forall fuel st st',
  scan_sound (keyword_trie_dict self) max_cost st ->
  scan_loop self index_mapping sentence max_cost inner_fuel fuel st = Ok st' ->
  scan_sound (keyword_trie_dict self) max_cost st'.
Proof.
  induction fuel as [|fuel IH]; intros st st' S E; [discriminate|].
  cbn [scan_loop] in E. destruct (idx st <? len sentence); [|now injection E as <-].
  destruct (scan_step self index_mapping sentence max_cost inner_fuel st) as [st1|e|] eqn:B;
    cbn [bind] in E; try discriminate.
  eapply IH; [eapply scan_step_sound; eauto|exact E].
Qed.

Lemma initial_state_sound :
  scan_sound (keyword_trie_dict self) max_cost (initial_state self max_cost).
Proof.
  split; [cbn; intros; lia|]. split; [apply in_trie_root|constructor].
Qed.
End Sound.

(** X14: whatever the fuzzy budget, every value [extract_keywords] returns
    from a processor built by [add_keyword] and [remove_keyword] calls is
    the clean name of a registered pattern, one that [get_all_keywords]
    lists; a processor without keywords extracts nothing. *)
Theorem extracted_values_are_registered :
  forall lower_at self sentence span_info max_cost,
    reachable lower_at self ->
    exists r,
      extract_keywords lower_at self sentence span_info max_cost = Ok r
      /\ Forall (fun e => exists p, In (p, value_of e) (get_all_keywords self)) r
      /\ (get_all_keywords self = [] -> r = []).
Proof.
  intros lower_at self sentence span_info max_cost R.
  destruct (reachable_invariant lower_at self R) as (W & _ & _).
  destruct (get_all_keywords_spec self W) as (_ & I & _).
  destruct (extract_keywords_fuel_total lower_at self sentence span_info max_cost
              (enough_fuel lower_at self sentence) (Nat.le_refl _)) as (r & E).
  exists r. split; [exact E|].
  assert (F : Forall (fun e => exists p, In (p, value_of e) (get_all_keywords self)) r).
  { unfold extract_keywords_fuel in E.
    destruct (negb (truthy sentence)); [injection E as <-; constructor|].
    destruct (scan_loop self _ _ max_cost _ _ (initial_state self max_cost))
      as [st|e|] eqn:L; cbn [bind] in E; try discriminate.
    pose proof (scan_loop_sound self _ _ max_cost W _ _ _ _
                  (initial_state_sound self max_cost) L) as (_ & _ & F).
    assert (G : forall (f : str * Z * Z -> extracted),
      (forall m, value_of (f m) = fst (fst m)) ->
      Forall (fun e => exists p, In (p, value_of e) (get_all_keywords self))
        (map f (keywords_extracted st))).
    { intros f Hf. apply Forall_map. eapply Forall_impl; [|exact F].
      intros m (p & Lp). exists p. rewrite Hf. now apply I. }
    destruct span_info; injection E as <-; apply G; reflexivity. }
  split; [exact F|]. intros Em. destruct r as [|e r]; [reflexivity|].
  inversion F as [|x l (p & Hin) F']. rewrite Em in Hin. destruct Hin.
Qed.

(** The fuzzy example of the docstring. *)
Lemma extracted_values_are_registered_witness :
  exists r,
    extract_keywords ascii_lower_at big_apple_processor
      (of_string "I love Big Aple and Baay Area.") false 1 = Ok r
    /\ Forall (fun e => exists p, In (p, value_of e) (get_all_keywords big_apple_processor)) r.
Proof.
  destruct (extracted_values_are_registered ascii_lower_at big_apple_processor
              (of_string "I love Big Aple and Baay Area.") false 1)
    as (r & E & F & _).
  - repeat apply reach_add. apply reach_init.
  - exists r. split; assumption.
Defined.

(** X15: during extraction from a processor built by [add_keyword] and
    [remove_keyword] calls with a budget [max_cost >= 0], the budget left
    never goes below [0] nor above [max_cost]: this holds when the scan
    starts, every iteration of the scan loop and of the lookahead loop keeps
    it (the lookahead never gives budget back), and so it holds when the
    scan ends; the current dictionary stays one of the trie. *)
Theorem fuzzy_budget_stays_within_bounds :
  forall lower_at self index_mapping sentence max_cost inner_fuel,
    reachable lower_at self -> 0 <= max_cost ->
    let root := keyword_trie_dict self in
    scan_sound root max_cost (initial_state self max_cost)
    /\ (forall st st',
          scan_sound root max_cost st ->
          scan_step self index_mapping sentence max_cost inner_fuel st = Ok st' ->
          scan_sound root max_cost st' /\ 0 <= curr_cost st' <= max_cost)
    /\ (forall st ctl st',
          lookahead_sound root max_cost st -> in_trie root (current_dict_continued st) ->
          lookahead_step self sentence st = Ok (ctl, st') ->
          lookahead_sound root max_cost st'
          /\ 0 <= la_curr_cost st' <= la_curr_cost st)
    /\ (forall fuel st',
          scan_loop self index_mapping sentence max_cost inner_fuel fuel
            (initial_state self max_cost) = Ok st' ->
          0 <= curr_cost st' <= max_cost /\ in_trie root (current_dict st')).
Proof.
  intros lower_at self index_mapping sentence max_cost inner_fuel R Hm root.
  destruct (reachable_invariant lower_at self R) as (W & _ & _).
  split; [apply initial_state_sound|]. split; [|split].
  - intros st st' S E.
    pose proof (scan_step_sound self index_mapping sentence max_cost W inner_fuel
                  st st' S E) as S'.
    split; [exact S'|]. destruct S' as (Hc & _). auto.
  - intros st ctl st' S T E.
    destruct (lookahead_step_sound self sentence max_cost W st ctl st' S T E)
      as (S' & C & _).
    split; [exact S'|]. destruct S' as (Hc & _). specialize (Hc Hm). lia.
  - intros fuel st' E.
    destruct (scan_loop_sound self index_mapping sentence max_cost W inner_fuel fuel
                _ st' (initial_state_sound self max_cost) E) as (Hc & T & _).
    auto.
Qed.

(** The end of the scan of the fuzzy example of the docstring. *)
Lemma fuzzy_budget_stays_within_bounds_witness :
  exists st',
    scan_loop big_apple_processor None (of_string "i love big aple and baay area.") 1
      100 100 (initial_state big_apple_processor 1) = Ok st'
    /\ 0 <= curr_cost st' <= 1.
Proof.
  destruct (scan_loop big_apple_processor None
              (of_string "i love big aple and baay area.") 1 100 100
              (initial_state big_apple_processor 1)) as [st'|e|] eqn:L;
    [|vm_compute in L; discriminate..].
  exists st'. split; [reflexivity|].
  destruct (fuzzy_budget_stays_within_bounds ascii_lower_at big_apple_processor None
              (of_string "i love big aple and baay area.") 1 100%nat)
    as (_ & _ & _ & F).
  - repeat apply reach_add. apply reach_init.
  - lia.
  - now destruct (F 100%nat st' L).
Defined.

(** ** The values extracted do not depend on the index mapping *)

Section Values.
Variable self : KeywordProcessor.
Variable m1 m2 : option (list Z).
Variable sentence : str.
Variable max_cost : Z.
Variable inner_fuel : nat.

Lemma append_match_values e1 e2 v a b x1 x2 :
  map (fun m => fst (fst m)) e1 = map (fun m => fst (fst m)) e2 ->
  append_match m1 e1 v a b = Ok x1 -> append_match m2 e2 v a b = Ok x2 ->
  map (fun m => fst (fst m)) x1 = map (fun m => fst (fst m)) x2.
Proof.
  intros E A1 A2.
  apply append_match_value in A1 as (a1 & b1 & ->).
  apply append_match_value in A2 as (a2 & b2 & ->).
  rewrite !map_app, E. reflexivity.
Qed.

Lemma at_boundary_values ch st1 st2 r1 r2 :
  same_values st1 st2 ->
  at_boundary self m1 sentence max_cost inner_fuel ch st1 = Ok r1 ->
  at_boundary self m2 sentence max_cost inner_fuel ch st2 = Ok r2 ->
  same_values (fst r1) (fst r2) /\ snd r1 = snd r2.
Proof.
  destruct st1 as [i1 d1 s1 e1 c1 x1], st2 as [i2 d2 s2 e2 c2 x2].
  intros (Ei & Ed & Es & Ee & Ec & Ex). cbn in Ei, Ed, Es, Ee, Ec, Ex. subst i2 d2 s2 e2 c2.
  unfold at_boundary. cbn [idx current_dict sequence_start_pos sequence_end_pos
                           curr_cost keywords_extracted].
  destruct (has_keyword d1 || has_child ch d1).
  - match goal with
    | |- bind ?m _ = _ -> _ => destruct m as [la|e|]
    end; cbn [bind]; try discriminate.
    destruct (longest_sequence_found la) as [v|].
    + destruct (truthy v).
      * destruct (append_match m1 x1 v _ _) as [y1|e|] eqn:A1; cbn [bind]; try discriminate.
        destruct (append_match m2 x2 v _ _) as [y2|e|] eqn:A2; cbn [bind]; try discriminate.
        intros [= <-] [= <-]. cbn. repeat split; auto.
        eapply append_match_values; eauto.
      * intros [= <-] [= <-]. cbn. repeat split; auto.
    + intros [= <-] [= <-]. cbn. repeat split; auto.
  - intros [= <-] [= <-]. cbn. repeat split; auto.
Qed.

Lemma at_word_char_values ch st1 st2 :
  same_values st1 st2 ->
  same_values (fst (at_word_char self sentence ch st1))
    (fst (at_word_char self sentence ch st2))
  /\ snd (at_word_char self sentence ch st1) = snd (at_word_char self sentence ch st2).
Proof.
  destruct st1 as [i1 d1 s1 e1 c1 x1], st2 as [i2 d2 s2 e2 c2 x2].
  intros (Ei & Ed & Es & Ee & Ec & Ex). cbn in Ei, Ed, Es, Ee, Ec, Ex. subst i2 d2 s2 e2 c2.
  unfold at_word_char. cbn [idx current_dict sequence_start_pos sequence_end_pos
                            curr_cost keywords_extracted].
  destruct (get_child ch (items d1)); [cbn; repeat split; auto|].
  destruct (c1 >? 0); cbn; repeat split; auto.
Qed.

Lemma scan_step_values st1 st2 r1 r2 :
  same_values st1 st2 ->
  scan_step self m1 sentence max_cost inner_fuel st1 = Ok r1 ->
  scan_step self m2 sentence max_cost inner_fuel st2 = Ok r2 ->
  same_values r1 r2.
Proof.
  intros S. pose proof S as (Ei & _). unfold scan_step. rewrite <- Ei.
  destruct (py_index sentence (idx st1)) as [ch|e|]; cbn [bind]; try discriminate.
  assert (B : forall b1 b2,
    (if is_boundary self ch
     then at_boundary self m1 sentence max_cost inner_fuel ch st1
     else Ok (at_word_char self sentence ch st1)) = Ok b1 ->
    (if is_boundary self ch
     then at_boundary self m2 sentence max_cost inner_fuel ch st2
     else Ok (at_word_char self sentence ch st2)) = Ok b2 ->
    same_values (fst b1) (fst b2) /\ snd b1 = snd b2).
  { intros b1 b2. destruct (is_boundary self ch).
    - now apply at_boundary_values.
    - intros [= <-] [= <-]. now apply at_word_char_values. }
  destruct (if is_boundary self ch
            then at_boundary self m1 sentence max_cost inner_fuel ch st1
            else Ok (at_word_char self sentence ch st1)) as [[t1 f1]|e|];
    cbn [bind]; try discriminate.
  destruct (if is_boundary self ch
            then at_boundary self m2 sentence max_cost inner_fuel ch st2
            else Ok (at_word_char self sentence ch st2)) as [[t2 f2]|e|];
    cbn [bind]; try discriminate.
  destruct (B _ _ eq_refl eq_refl) as ((Fi & Fd & Fs & Fe & Fc & Fx) & Ff).
  cbn [fst snd] in *. subst f2. rewrite <- Fi, <- Fd, <- Fs.
  assert (X : forall y1 y2,
    (if idx t1 + 1 >=? len sentence
     then match get_term (items (current_dict t1)) with
          | Some sequence_found =>
              append_match m1 (keywords_extracted t1) sequence_found
                (sequence_start_pos t1) (len sentence)
          | None => Ok (keywords_extracted t1)
          end
     else Ok (keywords_extracted t1)) = Ok y1 ->
    (if idx t1 + 1 >=? len sentence
     then match get_term (items (current_dict t1)) with
          | Some sequence_found =>
              append_match m2 (keywords_extracted t2) sequence_found
                (sequence_start_pos t1) (len sentence)
          | None => Ok (keywords_extracted t2)
          end
     else Ok (keywords_extracted t2)) = Ok y2 ->
    map (fun m => fst (fst m)) y1 = map (fun m => fst (fst m)) y2).
  { intros y1 y2. destruct (idx t1 + 1 >=? len sentence).
    - destruct (get_term (items (current_dict t1))).
      + now apply append_match_values.
      + now intros [= <-] [= <-].
    - now intros [= <-] [= <-]. }
  match goal with
  | |- bind ?a _ = _ -> bind ?b _ = _ -> _ =>
      destruct a as [y1|e|]; cbn [bind]; try discriminate;
      destruct b as [y2|e|]; cbn [bind]; try discriminate
  end.
  intros [= <-] [= <-]. cbn. repeat split; auto.
Qed.

Lemma scan_loop_values : forall fuel st1 st2 r1 r2,
  same_values st1 st2 ->
  scan_loop self m1 sentence max_cost inner_fuel fuel st1 = Ok r1 ->
  scan_loop self m2 sentence max_cost inner_fuel fuel st2 = Ok r2 ->
  same_values r1 r2.
Proof.
  induction fuel as [|fuel IH]; intros st1 st2 r1 r2 S; [discriminate|].
  cbn [scan_loop]. pose proof S as (Ei & _). rewrite <- Ei.
  destruct (idx st1 <? len sentence); [|now intros [= <-] [= <-]].
  destruct (scan_step self m1 sentence max_cost inner_fuel st1) as [t1|e|] eqn:B1;
    cbn [bind]; try discriminate.
  destruct (scan_step self m2 sentence max_cost inner_fuel st2) as [t2|e|] eqn:B2;
    cbn [bind]; try discriminate.
  apply IH. eapply scan_step_values; eauto.
Qed.
End Values.

Lemma fold_case_truthy_iff lower_at self s :
  truthy (fold_case lower_at self s) = truthy s.
Proof.
  destruct s as [|c s]; [now rewrite fold_case_nil|].
  now apply fold_case_truthy.
Qed.

(** X16: sentences with the same case-folded form give the same values,
    whatever the fuzzy budget: in a case-insensitive processor extraction
    does not depend on the case of the sentence (nor on whether it spells
    U+0130 as one character or as its two-character lowering). *)
Theorem extraction_ignores_case_of_sentence :
  forall lower_at self sentence1 sentence2 max_cost,
    fold_case lower_at self sentence1 = fold_case lower_at self sentence2 ->
    extract_keywords lower_at self sentence1 false max_cost
    = extract_keywords lower_at self sentence2 false max_cost.
Proof.
  intros lower_at self s1 s2 max_cost E.
  destruct (extract_keywords_fuel_total lower_at self s1 false max_cost
              (enough_fuel lower_at self s1) (Nat.le_refl _)) as (r1 & E1).
  destruct (extract_keywords_fuel_total lower_at self s2 false max_cost
              (enough_fuel lower_at self s2) (Nat.le_refl _)) as (r2 & E2).
  unfold extract_keywords. rewrite E1, E2. f_equal.
  unfold extract_keywords_fuel, enough_fuel in E1, E2.
  rewrite <- (fold_case_truthy_iff lower_at self s1) in E1.
  rewrite <- (fold_case_truthy_iff lower_at self s2) in E2.
  rewrite <- E in E2.
  destruct (negb (truthy (fold_case lower_at self s1))); [congruence|].
  destruct (scan_loop self (get_index_mapping s1 _) _ max_cost _ _ _) as [t1|e|] eqn:L1;
    cbn [bind] in E1; try discriminate.
  destruct (scan_loop self (get_index_mapping s2 _) _ max_cost _ _ _) as [t2|e|] eqn:L2;
    cbn [bind] in E2; try discriminate.
  injection E1 as <-. injection E2 as <-.
  assert (S0 : same_values (initial_state self max_cost) (initial_state self max_cost))
    by (repeat split).
  destruct (scan_loop_values self _ _ _ max_cost _ _ _ _ t1 t2 S0 L1 L2)
    as (_ & _ & _ & _ & _ & X).
  rewrite <- (map_map (fun m => fst (fst m)) Keyword (keywords_extracted t1)).
  rewrite <- (map_map (fun m => fst (fst m)) Keyword (keywords_extracted t2)).
  now rewrite X.
Qed.

(** The docstring sentence in upper case. *)
Lemma extraction_ignores_case_of_sentence_witness :
  extract_keywords ascii_lower_at docstring_processor
    (of_string "I LOVE SF AND NY. NEW-YORK IS THE BEST.") false 0
  = extract_keywords ascii_lower_at docstring_processor docstring_sentence false 0.
Proof.
  apply extraction_ignores_case_of_sentence. reflexivity.
Defined.

(** ** Registering the listed keywords again *)

(** X17: registering the pairs that [get_all_keywords] lists into a fresh
    processor with the same settings gives a processor with the same
    lookups, the same count, the same listed pairs and, without fuzzy
    budget, the same extraction results, provided that case folding leaves
    the listed patterns as they are (which always holds when the processor
    is case sensitive). *)
Theorem rebuilt_from_keywords_equivalent :
  forall lower_at self,
    reachable lower_at self ->
    (forall k v, In (k, v) (get_all_keywords self) -> fold_case lower_at self k = k) ->
    let self' := rebuilt_from_keywords lower_at self in
    (forall w, get_keyword lower_at self' w = get_keyword lower_at self w)
    /\ __len__ self' = __len__ self
    /\ (forall k v, In (k, v) (get_all_keywords self')
                    <-> In (k, v) (get_all_keywords self))
    /\ forall sentence span_info,
         extract_keywords lower_at self' sentence span_info 0
         = extract_keywords lower_at self sentence span_info 0.
Proof.
  intros lower_at self R Hf self'.
  set (base := set_non_word_boundaries (init (case_sensitive self))
                 (non_word_boundaries self)).
  assert (Rb : reachable lower_at base) by apply reach_set_boundaries, reach_init.
  assert (R' : reachable lower_at self') by now apply add_pairs_reachable.
  destruct (reachable_invariant lower_at self R) as (W & Rt & C).
  destruct (reachable_invariant lower_at self' R') as (W' & Rt' & C').
  destruct (get_all_keywords_spec self W) as (N & I & _).
  destruct (get_all_keywords_spec self' W') as (_ & I' & _).
  assert (Cs : case_sensitive self' = case_sensitive self)
    by (unfold self', rebuilt_from_keywords; now rewrite add_pairs_case_sensitive).
  assert (Fb : forall w, fold_case lower_at base w = fold_case lower_at self w)
    by (intros w; now apply fold_case_ext).
  assert (E : forall q, lookup q (keyword_trie_dict self')
                        = lookup q (keyword_trie_dict self)).
  { intros q. unfold self', rebuilt_from_keywords. fold base.
    rewrite add_pairs_lookup.
    rewrite (registered_by_ext _ (fold_case lower_at self) _ q _ Fb).
    change (lookup q (keyword_trie_dict base)) with (lookup q empty_dict).
    rewrite lookup_empty.
    destruct (lookup q (keyword_trie_dict self)) as [v|] eqn:L.
    - pose proof (proj2 (I q v) L) as Hin.
      rewrite <- (Hf q v Hin) at 1.
      apply registered_by_In; auto.
      + erewrite map_ext_in; [exact N|].
        intros [k0 v0] H0. cbn [fst]. now apply (Hf k0 v0).
      + destruct q; [|reflexivity]. simpl in L. congruence.
      + exact (lookup_truthy q _ v W L).
    - apply registered_by_none. intros [k0 v0] Hin Eq. cbn [fst] in Eq.
      rewrite (Hf k0 v0 Hin) in Eq. subst k0.
      apply I in Hin. congruence. }
  split; [|split; [|split]].
  - intros w.
    rewrite (get_keyword_lookup lower_at self' w), (get_keyword_lookup lower_at self w),
      (fold_case_ext lower_at self self' w Cs).
    apply E.
  - apply same_lookup_len;
      [exact (reachable_invariant lower_at self' R')
      |exact (reachable_invariant lower_at self R)|exact E].
  - intros k v. now rewrite I, I', E.
  - intros sentence span_info. apply extract_keywords_sim. split; [|split].
    + unfold self', rebuilt_from_keywords. now rewrite add_pairs_boundaries.
    + exact Cs.
    + apply same_lookup_sim;
        [exact W'|exact (reachable_pruned lower_at self' R')
        |exact W|exact (reachable_pruned lower_at self R)|exact E].
Qed.

(** The docstring processor, whose listed patterns are in lower case. *)
Lemma rebuilt_from_keywords_equivalent_witness :
  __len__ (rebuilt_from_keywords ascii_lower_at docstring_processor) = 3
  /\ extract_keywords ascii_lower_at
       (rebuilt_from_keywords ascii_lower_at docstring_processor)
       docstring_sentence false 0
     = extract_keywords ascii_lower_at docstring_processor docstring_sentence false 0.
Proof.
  destruct (rebuilt_from_keywords_equivalent ascii_lower_at docstring_processor
              docstring_processor_reachable) as (_ & L & _ & X).
  - intros k v Hin. vm_compute in Hin.
    destruct Hin as [[= <- <-]|[[= <- <-]|[[= <- <-]|[]]]]; reflexivity.
  - split; [exact L|apply X].
Defined.

(** ** Reported spans are ordered and do not overlap, with any budget *)

Section Ordered.
Variable self : KeywordProcessor.
Variable index_mapping : option (list Z).
Variable sentence : str.
Variable max_cost : Z.
Variable inner_fuel : nat.
Hypothesis mapping_len : forall m, index_mapping = Some m -> len m = len sentence.
Hypothesis inner_fuel_enough :
  (Z.to_nat (len sentence) * (height (keyword_trie_dict self) + 2) <= inner_fuel)%nat.
Hypothesis root_no_term : get_term (items (keyword_trie_dict self)) = None.

(** What the branch taken on a boundary character appends, if anything. *)
Lemma at_boundary_span ch st :
  scan_inv self index_mapping sentence st -> idx st < len sentence ->
  exists st',
    at_boundary self index_mapping sentence max_cost inner_fuel ch st = Ok (st', true)
    /\ (keywords_extracted st' = keywords_extracted st
        \/ exists v a' b',
             keywords_extracted st' = keywords_extracted st ++ [(v, a', b')]
             /\ _get_span_indices (sequence_start_pos st) (idx st') index_mapping
                = Ok (a', b')
             /\ sequence_start_pos st < idx st').
Proof.
  intros (Hs & Hh & Hk & Hf) Hlen. unfold at_boundary.
  destruct (has_keyword (current_dict st) || has_child ch (current_dict st));
    [|eexists; split; [reflexivity|left; reflexivity]].
  set (longest0 := if has_keyword (current_dict st)
                   then get_term (items (current_dict st)) else None).
  set (end0 := if has_keyword (current_dict st) then idx st else sequence_end_pos st).
  assert (L : exists la,
    match get_child ch (items (current_dict st)) with
    | Some sub =>
        lookahead self sentence inner_fuel
          {| idy := idx st + 1; current_dict_continued := sub;
             la_curr_cost := curr_cost st; longest_sequence_found := longest0;
             la_sequence_end_pos := end0; is_longer_seq_found := false |}
    | None =>
        Ok {| idy := idx st; current_dict_continued := current_dict st;
              la_curr_cost := curr_cost st; longest_sequence_found := longest0;
              la_sequence_end_pos := end0; is_longer_seq_found := false |}
    end = Ok la /\ lookahead_inv sentence (idx st + 1) longest0 la).
  { destruct (get_child ch (items (current_dict st))) as [sub|] eqn:G.
    - pose proof (height_child _ _ _ G) as Hsub.
      apply lookahead_ok; simpl; try lia.
      + unfold lookahead_measure; simpl.
        pose proof (node_weight_le (height (keyword_trie_dict self)) sub ltac:(lia)).
        assert (Z.to_nat (len sentence - (idx st + 1))
                <= Z.to_nat (len sentence) - 1)%nat by lia.
        assert (1 <= Z.to_nat (len sentence))%nat by lia.
        nia.
      + split; simpl; [discriminate|reflexivity].
    - eexists; split; [reflexivity|]. split; simpl; [discriminate|reflexivity]. }
  destruct L as (la & -> & (J1 & J2)). cbn [bind].
  set (idx' := if is_longer_seq_found la then la_sequence_end_pos la else idx st).
  assert (Hi : idx st <= idx' <= len sentence).
  { unfold idx'. destruct (is_longer_seq_found la); [specialize (J1 eq_refl)|]; lia. }
  destruct (longest_sequence_found la) as [v|] eqn:Lf;
    [|eexists; split; [reflexivity|left; reflexivity]].
  destruct (truthy v); [|eexists; split; [reflexivity|left; reflexivity]].
  assert (Hlt : sequence_start_pos st < idx').
  { unfold idx'. destruct (is_longer_seq_found la) eqn:IL.
    - specialize (J1 eq_refl). lia.
    - specialize (J2 eq_refl). unfold longest0 in J2.
      destruct (has_keyword (current_dict st)) eqn:K; [auto|congruence]. }
  destruct (span_indices_ok self index_mapping sentence mapping_len
              (sequence_start_pos st) idx') as ([a' b'] & Esp); [lia|lia|].
  unfold append_match. rewrite Esp. cbn [bind fst snd].
  eexists; split; [reflexivity|]. right. exists v, a', b'. cbn. auto.
Qed.

Lemma append_match_span ext v a b ext' :
  append_match index_mapping ext v a b = Ok ext' ->
  exists a' b',
    ext' = ext ++ [(v, a', b')] /\ _get_span_indices a b index_mapping = Ok (a', b').
Proof.
  unfold append_match.
  destruct (_get_span_indices a b index_mapping) as [[a' b']|e|]; cbn [bind];
    try discriminate.
  intros [= <-]. eauto.
Qed.

Lemma spans_snoc fs ext v a b a' b' :
  Forall2 (reported index_mapping) fs ext ->
  StronglySorted ends_before fs ->
  Forall (span_in sentence) fs ->
  Forall (fun f => snd f < a) fs ->
  0 <= a < b -> b <= len sentence ->
  _get_span_indices a b index_mapping = Ok (a', b') ->
  Forall2 (reported index_mapping) (fs ++ [(v, a, b)]) (ext ++ [(v, a', b')])
  /\ StronglySorted ends_before (fs ++ [(v, a, b)])
  /\ Forall (span_in sentence) (fs ++ [(v, a, b)]).
Proof.
  intros F2 So Fb Fg Ha Hb Esp. split; [|split].
  - apply Forall2_app; [exact F2|]. constructor; [|constructor].
    split; [reflexivity|exact Esp].
  - apply StronglySorted_snoc; [exact So|]. intros y Hy.
    rewrite Forall_forall in Fg. exact (Fg y Hy).
  - apply Forall_app. split; [exact Fb|]. constructor; [|constructor].
    unfold span_in. cbn. lia.
Qed.

Lemma scan_step_ordered st st' :
  scan_inv self index_mapping sentence st -> idx st < len sentence ->
  spans_ordered index_mapping sentence st ->
  scan_step self index_mapping sentence max_cost inner_fuel st = Ok st' ->
  spans_ordered index_mapping sentence st'.
Proof.
  intros I Hlen (fs & F2 & So & Fb & Fg) E. specialize (Fg Hlen).
  pose proof I as (Hs & _).
  unfold scan_step in E.
  destruct (py_index_ok sentence (idx st)) as (ch & Ep & Enth); [lia|].
  rewrite Ep in E. cbn [bind] in E.
  assert (B : exists st1 reset,
    (if is_boundary self ch
     then at_boundary self index_mapping sentence max_cost inner_fuel ch st
     else Ok (at_word_char self sentence ch st)) = Ok (st1, reset)
    /\ idx st <= idx st1 <= len sentence
    /\ (reset = true -> current_dict st1 = keyword_trie_dict self)
    /\ sequence_start_pos st1 = sequence_start_pos st
    /\ (keywords_extracted st1 = keywords_extracted st
        \/ reset = true
           /\ exists v a' b',
                keywords_extracted st1 = keywords_extracted st ++ [(v, a', b')]
                /\ _get_span_indices (sequence_start_pos st) (idx st1) index_mapping
                   = Ok (a', b')
                /\ sequence_start_pos st < idx st1)).
  { destruct (is_boundary self ch) eqn:Hb.
    - destruct (at_boundary_ok self index_mapping sentence max_cost mapping_len
                  inner_fuel inner_fuel_enough ch st I Hlen)
        as (st1 & A & Hi & Hc & Hp & _).
      destruct (at_boundary_span ch st I Hlen) as (st1' & A' & Sh).
      rewrite A in A'. injection A' as <-.
      exists st1, true. split; [exact A|]. split; [exact Hi|].
      split; [intros _; exact Hc|]. split; [exact Hp|].
      destruct Sh as [Sh|Sh]; [left; exact Sh|right; split; [reflexivity|exact Sh]].
    - pose proof (at_word_char_ok self index_mapping sentence inner_fuel
                    inner_fuel_enough ch st I Hlen Enth Hb)
        as (Hi & _ & Hc & _ & Hp & He).
      destruct (at_word_char self sentence ch st) as [st1 reset]. cbn [fst snd] in *.
      exists st1, reset. split; [reflexivity|]. split; [exact Hi|].
      split; [exact Hc|]. split; [exact Hp|left; exact He]. }
  destruct B as (st1 & reset & Eb & Hi & Hc & Hp & Sh).
  rewrite Eb in E. cbn [bind fst snd] in E.
  destruct (idx st1 + 1 >=? len sentence) eqn:C.
  - rewrite Z.geb_leb in C. apply Z.leb_le in C.
    destruct (get_term (items (current_dict st1))) as [v|] eqn:G.
    + assert (Rf : reset = false).
      { destruct reset; [|reflexivity]. rewrite (Hc eq_refl), root_no_term in G.
        discriminate. }
      subst reset. destruct Sh as [Sh|(Sh & _)]; [|discriminate].
      destruct (append_match index_mapping (keywords_extracted st1) v
                  (sequence_start_pos st1) (len sentence)) as [ext|e|] eqn:A;
        cbn [bind] in E; try discriminate.
      injection E as <-.
      apply append_match_span in A as (a' & b' & -> & Esp).
      rewrite Sh, Hp in *.
      destruct (spans_snoc fs (keywords_extracted st) v (sequence_start_pos st)
                  (len sentence) a' b' F2 So Fb Fg) as (X1 & X2 & X3);
        [lia|lia|exact Esp|].
      unfold spans_ordered. cbn [keywords_extracted idx sequence_start_pos].
      exists (fs ++ [(v, sequence_start_pos st, len sentence)]).
      split; [exact X1|]. split; [exact X2|]. split; [exact X3|]. intros; lia.
    + cbn [bind] in E. injection E as <-.
      unfold spans_ordered. cbn [keywords_extracted idx sequence_start_pos].
      destruct Sh as [Sh|(_ & v & a' & b' & Sh & Esp & Hlt)].
      * exists fs. rewrite Sh. split; [exact F2|]. split; [exact So|].
        split; [exact Fb|]. intros; lia.
      * destruct (spans_snoc fs (keywords_extracted st) v (sequence_start_pos st)
                    (idx st1) a' b' F2 So Fb Fg) as (X1 & X2 & X3);
          [lia|lia|exact Esp|].
        exists (fs ++ [(v, sequence_start_pos st, idx st1)]). rewrite Sh.
        split; [exact X1|]. split; [exact X2|]. split; [exact X3|]. intros; lia.
  - rewrite Z.geb_leb in C. apply Z.leb_gt in C.
    cbn [bind] in E. injection E as <-.
    unfold spans_ordered. cbn [keywords_extracted idx sequence_start_pos].
    destruct Sh as [Sh|(Rt & v & a' & b' & Sh & Esp & Hlt)].
    + exists fs. rewrite Sh. split; [exact F2|]. split; [exact So|].
      split; [exact Fb|]. intros _.
      eapply Forall_impl; [|exact Fg]. intros f Hf. cbn beta in Hf.
      destruct reset; lia.
    + subst reset.
      destruct (spans_snoc fs (keywords_extracted st) v (sequence_start_pos st)
                  (idx st1) a' b' F2 So Fb Fg) as (X1 & X2 & X3);
        [lia|lia|exact Esp|].
      exists (fs ++ [(v, sequence_start_pos st, idx st1)]). rewrite Sh.
      split; [exact X1|]. split; [exact X2|]. split; [exact X3|]. intros _.
      apply Forall_app. split.
      * eapply Forall_impl; [|exact Fg]. intros f Hf. cbn beta in Hf. lia.
      * constructor; [cbn; lia|constructor].
Qed.

Lemma scan_loop_ordered : forall fuel st st',
  scan_inv self index_mapping sentence st ->
  spans_ordered index_mapping sentence st ->
  scan_loop self index_mapping sentence max_cost inner_fuel fuel st = Ok st' ->
  spans_ordered index_mapping sentence st'.
Proof.
  induction fuel as [|fuel IH]; intros st st' I O E; [discriminate|].
  cbn [scan_loop] in E. destruct (idx st <? len sentence) eqn:C;
    [|now injection E as <-].
  apply Z.ltb_lt in C.
  destruct (scan_step_ok self index_mapping sentence max_cost mapping_len
              inner_fuel inner_fuel_enough st I C) as (st1 & B & I1 & _).
  rewrite B in E. cbn [bind] in E.
  apply (IH st1 st' I1); [|exact E]. now apply (scan_step_ordered st st1).
Qed.

Lemma initial_state_ordered :
  spans_ordered index_mapping sentence (initial_state self max_cost).
Proof.
  exists []. split; [constructor|]. split; [constructor|].
  split; [constructor|]. intros _; constructor.
Qed.
End Ordered.

Lemma StronglySorted_nth {A} (R : A -> A -> Prop) (d : A) l :
  StronglySorted R l ->
  forall i j, (i < j < length l)%nat -> R (nth i l d) (nth j l d).
Proof.
  induction 1 as [|a l S IH F]; intros i j Hij; [simpl in Hij; lia|].
  destruct j as [|j]; [lia|]. destruct i as [|i].
  - cbn [nth]. rewrite Forall_forall in F. apply F. apply nth_In. simpl in Hij. lia.
  - cbn [nth]. apply IH. simpl in Hij. lia.
Qed.

Lemma StronglySorted_map {A B} (f : A -> B) (Q : B -> B -> Prop) l :
  StronglySorted (fun x y => Q (f x) (f y)) l -> StronglySorted Q (map f l).
Proof.
  induction 1 as [|a l S IH F]; cbn [map]; constructor; [exact IH|].
  now apply Forall_map.
Qed.

Lemma Forall2_Forall {A B} (R : A -> B -> Prop) (P : A -> Prop) (Q : B -> Prop) fs r :
  Forall2 R fs r -> Forall P fs ->
  (forall f e, R f e -> P f -> Q e) -> Forall Q r.
Proof.
  intros F2 Fp H. induction F2 as [|f e fs r Rfe F2 IH]; [constructor|].
  inversion Fp as [|x l Pf Fp']; subst.
  constructor; [now apply (H f e)|now apply IH].
Qed.

Lemma Forall2_sorted {A B} (R : A -> B -> Prop) (P : A -> A -> Prop)
    (Q : B -> B -> Prop) (D : A -> Prop) fs r :
  Forall2 R fs r -> Forall D fs -> StronglySorted P fs ->
  (forall f1 f2 e1 e2, D f1 -> D f2 -> R f1 e1 -> R f2 e2 -> P f1 f2 -> Q e1 e2) ->
  StronglySorted Q r.
Proof.
  intros F2 Fd So H. induction F2 as [|f e fs r Rfe F2 IH]; [constructor|].
  inversion Fd as [|x l Df Fd']; subst. inversion So as [|x l So' Fp]; subst.
  constructor; [now apply IH|].
  apply (Forall2_Forall R (fun f2 => D f2 /\ P f f2) (Q e) fs r F2).
  - rewrite Forall_forall in *. intros x Hx. split; auto.
  - intros f2 e2 R2 (D2 & P2). now apply (H f f2 e e2).
Qed.

Lemma offsets_nth_bounds s idx i :
  (i < length (offsets_from idx s))%nat ->
  idx <= nth i (offsets_from idx s) 0 < idx + len s.
Proof.
  intros Hi. pose proof (offsets_from_bounds s idx) as F.
  rewrite Forall_forall in F. apply (F (nth i (offsets_from idx s) 0)).
  now apply nth_In.
Qed.

(** Two positions of the mapping that are two apart do not come from the
    same character. *)
Lemma offsets_gap s : forall idx i j,
  (i + 2 <= j)%nat -> (j < length (offsets_from idx s))%nat ->
  nth i (offsets_from idx s) 0 + 1 <= nth j (offsets_from idx s) 0.
Proof.
  induction s as [|c rest IH]; intros idx i j Hij Hj; [simpl in Hj; lia|].
  cbn [offsets_from] in *.
  destruct (char_eqb c LATIN_CAPITAL_LETTER_I_WITH_DOT_ABOVE).
  - cbn [app] in *. cbn [length] in Hj.
    destruct j as [|[|j]]; try lia. cbn [nth].
    pose proof (offsets_nth_bounds rest (idx + 1) j ltac:(lia)) as Bj.
    destruct i as [|[|i]]; cbn [nth]; try lia.
    apply IH; lia.
  - cbn [app] in *. cbn [length] in Hj.
    destruct j as [|j]; try lia. cbn [nth].
    pose proof (offsets_nth_bounds rest (idx + 1) j ltac:(lia)) as Bj.
    destruct i as [|i]; cbn [nth]; try lia.
    apply IH; lia.
Qed.

Section Translation.
Variable lower_at : str -> nat -> char.
Variable self : KeywordProcessor.
Variable sentence : str.

(** The report of a span of the scanned sentence lies in the original
    sentence. *)
Lemma reported_in_sentence f e :
  span_in (fold_case lower_at self sentence) f ->
  reported (get_index_mapping sentence (case_sensitive self)) f e ->
  0 <= snd (fst e) < snd e /\ snd e <= len sentence.
Proof.
  destruct f as [[v a] b], e as [[v' a'] b']. unfold span_in, reported. cbn [fst snd].
  intros (Ha & Hb) (_ & E). revert Hb E. unfold get_index_mapping, fold_case.
  destruct (case_sensitive self); cbn [orb].
  - intros Hb [= <- <-]. lia.
  - destruct (mem LATIN_CAPITAL_LETTER_I_WITH_DOT_ABOVE sentence) eqn:M; cbn [negb].
    + intros Hb E.
      assert (Lm : length (offsets_from 0 sentence) = length (lower lower_at sentence))
        by (unfold lower; apply (offsets_from_length lower_at sentence sentence 0%nat 0)).
      unfold len in Hb. unfold _get_span_indices in E.
      rewrite (py_index_nth _ a 0), (py_index_nth _ (b - 1) 0) in E
        by (unfold len; lia).
      cbn [bind] in E. injection E as <- <-.
      pose proof (offsets_nth_bounds sentence 0 (Z.to_nat a) ltac:(lia)) as Ba.
      pose proof (offsets_nth_bounds sentence 0 (Z.to_nat (b - 1)) ltac:(lia)) as Bb.
      assert (Le : nth (Z.to_nat a) (offsets_from 0 sentence) 0
                   <= nth (Z.to_nat (b - 1)) (offsets_from 0 sentence) 0).
      { destruct (Z.eq_dec a (b - 1)) as [->|Ne]; [lia|].
        apply (StronglySorted_nth Z.le 0 _ (offsets_from_sorted sentence 0)). lia. }
      lia.
    + intros Hb [= <- <-]. unfold lower, len in Hb.
      rewrite (lower_from_length_plain lower_at sentence sentence 0%nat M) in Hb.
      unfold len. lia.
Qed.

(** The reports of two spans of the scanned sentence of which the first ends
    before the second starts do not overlap. *)
Lemma reported_order f1 f2 e1 e2 :
  span_in (fold_case lower_at self sentence) f1 ->
  span_in (fold_case lower_at self sentence) f2 ->
  reported (get_index_mapping sentence (case_sensitive self)) f1 e1 ->
  reported (get_index_mapping sentence (case_sensitive self)) f2 e2 ->
  ends_before f1 f2 -> snd e1 <= snd (fst e2).
Proof.
  destruct f1 as [[v1 a1] b1], e1 as [[w1 a1'] b1'].
  destruct f2 as [[v2 a2] b2], e2 as [[w2 a2'] b2'].
  unfold span_in, reported, ends_before. cbn [fst snd].
  intros (Ha1 & Hb1) (Ha2 & Hb2) (_ & E1) (_ & E2) Hlt.
  revert Hb1 Hb2 E1 E2. unfold get_index_mapping, fold_case.
  destruct (case_sensitive self); cbn [orb].
  - intros _ _ [= <- <-] [= <- <-]. lia.
  - destruct (mem LATIN_CAPITAL_LETTER_I_WITH_DOT_ABOVE sentence) eqn:M; cbn [negb].
    + intros Hb1 Hb2 E1 E2.
      assert (Lm : length (offsets_from 0 sentence) = length (lower lower_at sentence))
        by (unfold lower; apply (offsets_from_length lower_at sentence sentence 0%nat 0)).
      unfold len in Hb1, Hb2. unfold _get_span_indices in E1, E2.
      rewrite (py_index_nth _ a1 0), (py_index_nth _ (b1 - 1) 0) in E1
        by (unfold len; lia).
      rewrite (py_index_nth _ a2 0), (py_index_nth _ (b2 - 1) 0) in E2
        by (unfold len; lia).
      cbn [bind] in E1, E2. injection E1 as <- <-. injection E2 as <- <-.
      pose proof (offsets_gap sentence 0 (Z.to_nat (b1 - 1)) (Z.to_nat a2)
                    ltac:(lia) ltac:(lia)).
      lia.
    + intros _ _ [= <- <-] [= <- <-]. lia.
Qed.
End Translation.

(** X18: whatever the fuzzy budget, the spans [extract_keywords] reports
    from a processor built by [add_keyword] and [remove_keyword] calls are
    not empty, lie in the original sentence, come in increasing order and
    do not overlap, also when the sentence contains U+0130. *)
Theorem extracted_spans_ordered :
  forall lower_at self sentence max_cost,
    reachable lower_at self ->
    exists r,
      extract_keywords lower_at self sentence true max_cost = Ok r
      /\ Forall (fun e => 0 <= span_start e < span_end e
                          /\ span_end e <= len sentence) r
      /\ StronglySorted (fun e1 e2 => span_end e1 <= span_start e2) r.
Proof.
  intros lower_at self sentence max_cost R.
  destruct (reachable_invariant lower_at self R) as (_ & Rt & _).
  unfold extract_keywords, extract_keywords_fuel.
  destruct (negb (truthy sentence)).
  { exists []. split; [reflexivity|]. split; constructor. }
  destruct (scan_total lower_at self sentence max_cost
              (enough_fuel lower_at self sentence) (Nat.le_refl _)) as (st & L & I).
  rewrite L. cbn [bind]. eexists. split; [reflexivity|].
  destruct (scan_loop_ordered self (get_index_mapping sentence (case_sensitive self))
              (fold_case lower_at self sentence) max_cost
              (enough_fuel lower_at self sentence)
              (fun m => get_index_mapping_len lower_at self sentence m)
              (enough_fuel_inner lower_at self sentence) Rt
              (enough_fuel lower_at self sentence) (initial_state self max_cost) st
              (initial_state_inv self _ _ max_cost)
              (initial_state_ordered self _ _ max_cost) L)
    as (fs & F2 & So & Fb & _).
  split.
  - apply Forall_map. cbn [span_start span_end].
    clear So. induction F2 as [|f e fs ext Rfe F2 IH]; [constructor|].
    inversion Fb as [|x l Bf Fb']; subst.
    constructor; [|now apply IH].
    exact (reported_in_sentence lower_at self sentence f e Bf Rfe).
  - apply StronglySorted_map. cbn [span_start span_end].
    apply (Forall2_sorted (reported (get_index_mapping sentence (case_sensitive self)))
             ends_before _ (span_in (fold_case lower_at self sentence)) fs _ F2 Fb So).
    intros f1 f2 e1 e2 D1 D2 R1 R2 P.
    exact (reported_order lower_at self sentence f1 f2 e1 e2 D1 D2 R1 R2 P).
Qed.

(** The fuzzy example of the docstring, with spans. *)
Lemma extracted_spans_ordered_witness :
  exists r,
    extract_keywords ascii_lower_at big_apple_processor
      (of_string "I love Big Aple and Baay Area.") true 1 = Ok r
    /\ StronglySorted (fun e1 e2 => span_end e1 <= span_start e2) r.
Proof.
  destruct (extracted_spans_ordered ascii_lower_at big_apple_processor
              (of_string "I love Big Aple and Baay Area.") 1)
    as (r & E & _ & S).
  - repeat apply reach_add. apply reach_init.
  - exists r. split; assumption.
Defined.

(** ** Registering the same pair twice *)

Lemma set_term_same v l : get_term l = Some v -> set_term v l = l.
Proof.
  induction l as [|[c t|v0] l IH]; cbn [get_term set_term]; try discriminate.
  - intros G. now rewrite IH.
  - now intros [= ->].
Qed.

Lemma trie_insert_same k v : forall d,
  lookup k d = Some v -> trie_insert k v d = (d, false).
Proof.
  induction k as [|c rest IH]; intros [l] L; cbn [trie_insert lookup items] in *.
  - unfold has_keyword. cbn [items]. now rewrite L, set_term_same.
  - destruct (get_child c l) as [sub|] eqn:G; [|discriminate].
    rewrite (IH sub L). now rewrite set_child_same.
Qed.

(** X19: registering a pair again changes nothing: a second
    [add_keyword(keyword, clean_name)] right after the first returns
    [False] and leaves the processor, trie and count, as the first call
    left it. *)
Theorem add_keyword_twice :
  forall lower_at self keyword clean_name,
    let self' := fst (add_keyword lower_at self keyword clean_name) in
    add_keyword lower_at self' keyword clean_name = (self', false).
Proof.
  intros lower_at self keyword clean_name self'.
  assert (S : forall cn : list char,
    add_keyword lower_at
      (fst (add_keyword lower_at self keyword (@Some (list char) cn)))
      keyword (@Some (list char) cn)
    = (fst (add_keyword lower_at self keyword (@Some (list char) cn)), false)).
  { intros cn. destruct (truthy keyword && truthy cn) eqn:T.
    - apply andb_true_iff in T as (Tk & Tc).
      rewrite (add_keyword_some lower_at self keyword cn Tk Tc). cbn [fst].
      rewrite add_keyword_some by assumption.
      rewrite fold_case_with_trie. cbn [keyword_trie_dict with_trie _terms_in_trie].
      rewrite (trie_insert_same _ cn _ (trie_insert_lookup_same _ cn _)).
      cbn [fst snd]. unfold with_trie. cbn. do 2 f_equal. lia.
    - rewrite (add_keyword_noop lower_at self keyword cn T). cbn [fst].
      now apply add_keyword_noop. }
  subst self'. destruct clean_name as [cn|]; [apply S|].
  change (@None (list char)) with (@None str).
  rewrite (add_keyword_none lower_at self keyword).
  destruct (truthy keyword) eqn:Tk.
  - rewrite add_keyword_none, Tk. apply S.
  - cbn [fst]. now rewrite add_keyword_none, Tk.
Qed.
